(** * Morpion Ultime (Ultimate Tic-Tac-Toe): rules engine and move selection

    A shallow embedding of [game.py] (classes [PetitPlateau] and
    [MorpionUltime]) and of [ai.py] (the two heuristics and the three
    [get_move] strategies), followed by the properties established about
    them.

    Layout of the development:
    - values: symbols, cells, fixed 3-element rows, indices;
    - [PetitPlateau] and [MorpionUltime]: the methods as functions that take
      the receiver and return the updated receiver next to the result;
    - the heuristics and the strategies of [ai.py];
    - an object store with references, for the methods that copy or mutate
      objects ([dupliquer], [jouer_coup]);
    - the lemmas. *)

From Stdlib Require Import ZArith List Bool Lia.
From stdpp Require Import gmap.
Import ListNotations.

Local Open Scope Z_scope.

(** ** Values *)

(** The two symbols ['X'] and ['O']. *)
Inductive joueur := jX | jO.

(** Content of a cell: [' '], ['X'] or ['O']. *)
Inductive case := Vide | Pion (j : joueur).

(** A non-[None] value of the attribute [vainqueur]: ['X'], ['O'] or
    ["DRAW"]. *)
Inductive issue := Gagne (j : joueur) | DRAW.

(** A cell of the virtual grid [global_p] of [mettre_a_jour_etat_global]:
    [vainq if vainq is not None else ' ']. *)
Inductive marque := M_espace | M_de (v : issue).

#[global] Instance joueur_eq_dec : EqDecision joueur.
Proof. solve_decision. Defined.

#[global] Instance case_eq_dec : EqDecision case.
Proof. solve_decision. Defined.

#[global] Instance issue_eq_dec : EqDecision issue.
Proof. solve_decision. Defined.

Definition joueur_eqb (a b : joueur) : bool :=
  match a, b with jX, jX | jO, jO => true | _, _ => false end.

Definition case_eqb (a b : case) : bool :=
  match a, b with
  | Vide, Vide => true
  | Pion x, Pion y => joueur_eqb x y
  | _, _ => false
  end.

Definition issue_eqb (a b : issue) : bool :=
  match a, b with
  | Gagne x, Gagne y => joueur_eqb x y
  | DRAW, DRAW => true
  | _, _ => false
  end.

Definition marque_eqb (a b : marque) : bool :=
  match a, b with
  | M_espace, M_espace => true
  | M_de x, M_de y => issue_eqb x y
  | _, _ => false
  end.

(** ['O' if joueur == 'X' else 'X'] *)
Definition autre (j : joueur) : joueur :=
  if joueur_eqb j jX then jO else jX.

(** The lists of the program that are built with three elements and never
    resized: a row of cells, the three rows of a grid. *)
Definition tri (A : Type) : Type := (A * A * A)%type.

(** An index that passed the test [0 <= i < 3]. *)
Inductive idx := I0 | I1 | I2.

(** [range(3)] *)
Definition range3 : list idx := [I0; I1; I2].

Definition idx_of_Z (z : Z) : option idx :=
  if z =? 0 then Some I0
  else if z =? 1 then Some I1
  else if z =? 2 then Some I2
  else None.

Definition Z_of_idx (i : idx) : Z :=
  match i with I0 => 0 | I1 => 1 | I2 => 2 end.

#[global] Instance idx_eq_dec : EqDecision idx.
Proof. solve_decision. Defined.

Definition idx_eqb (a b : idx) : bool :=
  match a, b with I0, I0 | I1, I1 | I2, I2 => true | _, _ => false end.

(** [2 - i] *)
Definition miroir (i : idx) : idx :=
  match i with I0 => I2 | I1 => I1 | I2 => I0 end.

Definition get3 {A} (t : tri A) (i : idx) : A :=
  let '(a, b, c) := t in
  match i with I0 => a | I1 => b | I2 => c end.

Definition set3 {A} (t : tri A) (i : idx) (v : A) : tri A :=
  let '(a, b, c) := t in
  match i with I0 => (v, b, c) | I1 => (a, v, c) | I2 => (a, b, v) end.

Definition map3 {A B} (f : A -> B) (t : tri A) : tri B :=
  let '(a, b, c) := t in (f a, f b, f c).

Definition liste3 {A} (t : tri A) : list A :=
  let '(a, b, c) := t in [a; b; c].

(** [g[l][c]] and [g[l][c] = v] on a grid. *)
Definition get2 {A} (g : tri (tri A)) (l c : idx) : A := get3 (get3 g l) c.

Definition set2 {A} (g : tri (tri A)) (l c : idx) (v : A) : tri (tri A) :=
  set3 g l (set3 (get3 g l) c v).

(** A move [(sp_l, sp_c, cel_l, cel_c)]: four Python integers. *)
Definition coup : Type := (Z * Z * Z * Z)%type.

(** ** [PetitPlateau]: one 3 x 3 sub-board *)

Module PetitPlateau.

Record t := Build {
  plateau : tri (tri case);
  vainqueur : option issue;
  jeu_termine : bool
}.

Definition reinitialiser : t :=
  {| plateau := ((Vide, Vide, Vide), (Vide, Vide, Vide), (Vide, Vide, Vide));
     vainqueur := None;
     jeu_termine := false |}.

Definition coup_valide (self : t) (ligne colonne : Z) : bool :=
  match idx_of_Z ligne, idx_of_Z colonne with
  | Some l, Some c =>
      case_eqb (get2 (plateau self) l c) Vide && negb (jeu_termine self)
  | _, _ => false
  end.

Definition est_nul (self : t) : bool :=
  forallb (fun i =>
    forallb (fun j => negb (case_eqb (get2 (plateau self) i j) Vide)) range3)
    range3.

(** One iteration of the loop over [i]: row [i], then column [i]. *)
Definition ligne_ou_colonne (self : t) (j : joueur) (i : idx) : bool :=
  forallb (fun k => case_eqb (get2 (plateau self) i k) (Pion j)) range3
  || forallb (fun k => case_eqb (get2 (plateau self) k i) (Pion j)) range3.

Definition diagonales (self : t) (j : joueur) : bool :=
  let p := plateau self in
  (case_eqb (get2 p I0 I0) (get2 p I1 I1)
   && case_eqb (get2 p I1 I1) (get2 p I2 I2)
   && case_eqb (get2 p I2 I2) (Pion j))
  || (case_eqb (get2 p I0 I2) (get2 p I1 I1)
      && case_eqb (get2 p I1 I1) (get2 p I2 I0)
      && case_eqb (get2 p I2 I0) (Pion j)).

Definition verifier_etat (self : t) (j : joueur) : t :=
  if existsb (ligne_ou_colonne self j) range3 then
    {| plateau := plateau self; vainqueur := Some (Gagne j); jeu_termine := true |}
  else if diagonales self j then
    {| plateau := plateau self; vainqueur := Some (Gagne j); jeu_termine := true |}
  else if est_nul self then
    {| plateau := plateau self; vainqueur := Some DRAW; jeu_termine := true |}
  else self.

Definition jouer_coup (self : t) (ligne colonne : Z) (j : joueur) : bool * t :=
  if coup_valide self ligne colonne then
    match idx_of_Z ligne, idx_of_Z colonne with
    | Some l, Some c =>
        let self1 :=
          {| plateau := set2 (plateau self) l c (Pion j);
             vainqueur := vainqueur self;
             jeu_termine := jeu_termine self |} in
        (true, verifier_etat self1 j)
    | _, _ => (false, self)
    end
  else (false, self).

Definition obtenir_vainqueur (self : t) : option issue := vainqueur self.

(** Value of the copy; the store-level method is [Tas.pp_dupliquer]. *)
Definition dupliquer (self : t) : t :=
  let nouveau := reinitialiser in
  {| plateau := map3 (fun ligne => map3 (fun x => x) ligne) (plateau self);
     vainqueur := vainqueur self;
     jeu_termine := jeu_termine self |}.

(** The two attributes [vainqueur] and [jeu_termine] are assigned together. *)
Definition coherent (self : t) : Prop :=
  vainqueur self <> None <-> jeu_termine self = true.

(** The sub-boards the program can build: a fresh one, then any calls of
    [jouer_coup]. *)
Inductive atteint : t -> Prop :=
| atteint_neuf : atteint reinitialiser
| atteint_coup self l c j : atteint self -> atteint (snd (jouer_coup self l c j)).

(** A sequence of [place] calls: the results, and the final sub-board. *)
Fixpoint jouer_suite (self : t) (ops : list (Z * Z * joueur)) : list bool * t :=
  match ops with
  | [] => ([], self)
  | (l, c, j) :: ops' =>
      let '(ok, self1) := jouer_coup self l c j in
      let '(oks, self2) := jouer_suite self1 ops' in
      (ok :: oks, self2)
  end.

End PetitPlateau.

(** ** [MorpionUltime]: the 3 x 3 board of sub-boards *)

Module MorpionUltime.

(** [plateau_actif] is [None] or the pair [(cel_l, cel_c)] of a move that
    [coup_valide] accepted, hence a pair of indices.  The global
    [vainqueur] is only ever assigned [None] or a cell of [global_p] that
    is neither [' '] nor ["DRAW"], hence a symbol. *)
Record t := Build {
  plateaux : tri (tri PetitPlateau.t);
  joueur_courant : joueur;
  plateau_actif : option (idx * idx);
  jeu_termine : bool;
  vainqueur : option joueur
}.

Definition reinitialiser : t :=
  let p := PetitPlateau.reinitialiser in
  {| plateaux := ((p, p, p), (p, p, p), (p, p, p));
     joueur_courant := jX;
     plateau_actif := None;
     jeu_termine := false;
     vainqueur := None |}.

Definition actif_compatible (self : t) (l c : idx) : bool :=
  match plateau_actif self with
  | None => true
  | Some (al, ac) => idx_eqb l al && idx_eqb c ac
  end.

Definition coup_valide (self : t) (mv : coup) : bool :=
  let '(sp_l, sp_c, cel_l, cel_c) := mv in
  match idx_of_Z sp_l, idx_of_Z sp_c with
  | Some l, Some c =>
      let plateau := get2 (plateaux self) l c in
      if PetitPlateau.jeu_termine plateau then false
      else if negb (actif_compatible self l c) then false
      else PetitPlateau.coup_valide plateau cel_l cel_c
  | _, _ => false
  end.

(** Step 1: the virtual grid [global_p]. *)
Definition grille_virtuelle (self : t) : tri (tri marque) :=
  map3 (map3 (fun p =>
          match PetitPlateau.obtenir_vainqueur p with
          | Some v => M_de v
          | None => M_espace
          end)) (plateaux self).

Definition en (g : tri (tri marque)) (rc : idx * idx) : marque :=
  get2 g (fst rc) (snd rc).

(** Step 2, rows and columns: the first cell is neither [' '] nor
    ["DRAW"] and the three cells equal the first one. *)
Definition aligne_tous (g : tri (tri marque)) (a b c : idx * idx) : option joueur :=
  match en g a with
  | M_de (Gagne j) =>
      if forallb (fun p => marque_eqb (en g p) (en g a)) [a; b; c]
      then Some j else None
  | _ => None
  end.

(** Step 2, diagonals: [g[a] == g[b] == g[c]]. *)
Definition aligne_chaine (g : tri (tri marque)) (a b c : idx * idx) : option joueur :=
  match en g a with
  | M_de (Gagne j) =>
      if marque_eqb (en g a) (en g b) && marque_eqb (en g b) (en g c)
      then Some j else None
  | _ => None
  end.

Fixpoint premier {A} (l : list (option A)) : option A :=
  match l with
  | [] => None
  | Some a :: _ => Some a
  | None :: l' => premier l'
  end.

(** The tests of step 2 in the order the code runs them; the first that
    succeeds returns. *)
Definition victoire_globale (g : tri (tri marque)) : option joueur :=
  premier
    (flat_map (fun i =>
       [aligne_tous g (i, I0) (i, I1) (i, I2);
        aligne_tous g (I0, i) (I1, i) (I2, i)]) range3
     ++ [aligne_chaine g (I0, I0) (I1, I1) (I2, I2);
         aligne_chaine g (I0, I2) (I1, I1) (I2, I0)]).

Definition tous_termines (self : t) : bool :=
  forallb (fun i =>
    forallb (fun j => PetitPlateau.jeu_termine (get2 (plateaux self) i j)) range3)
    range3.

Definition combinaisons : list (list (idx * idx)) :=
  [ [(I0,I0);(I0,I1);(I0,I2)]; [(I1,I0);(I1,I1);(I1,I2)]; [(I2,I0);(I2,I1);(I2,I2)];
    [(I0,I0);(I1,I0);(I2,I0)]; [(I0,I1);(I1,I1);(I2,I1)]; [(I0,I2);(I1,I2);(I2,I2)];
    [(I0,I0);(I1,I1);(I2,I2)]; [(I0,I2);(I1,I1);(I2,I0)] ].

(** [all(global_p[r][c] in [joueur, ' '] for (r, c) in combo)] *)
Definition combo_ouverte (g : tri (tri marque)) (j : joueur) (combo : list (idx * idx)) : bool :=
  forallb (fun rc => existsb (marque_eqb (en g rc)) [M_de (Gagne j); M_espace]) combo.

Definition peut_encore_gagner (g : tri (tri marque)) (j : joueur) : bool :=
  existsb (combo_ouverte g j) combinaisons.

Definition fixer_issue (self : t) (v : option joueur) : t :=
  {| plateaux := plateaux self;
     joueur_courant := joueur_courant self;
     plateau_actif := plateau_actif self;
     jeu_termine := true;
     vainqueur := v |}.

Definition mettre_a_jour_etat_global (self : t) : t :=
  let global_p := grille_virtuelle self in
  match victoire_globale global_p with
  | Some j => fixer_issue self (Some j)
  | None =>
      if tous_termines self then fixer_issue self None
      else if negb (peut_encore_gagner global_p jX)
              && negb (peut_encore_gagner global_p jO)
      then fixer_issue self None
      else self
  end.

Definition jouer_coup (self : t) (mv : coup) : bool * t :=
  let '(sp_l, sp_c, cel_l, cel_c) := mv in
  if negb (coup_valide self mv) || jeu_termine self then (false, self)
  else
    match idx_of_Z sp_l, idx_of_Z sp_c, idx_of_Z cel_l, idx_of_Z cel_c with
    | Some sl, Some sc, Some cl, Some cc =>
        let plateau := get2 (plateaux self) sl sc in
        let '(ok, plateau1) :=
          PetitPlateau.jouer_coup plateau cel_l cel_c (joueur_courant self) in
        let self1 :=
          {| plateaux := set2 (plateaux self) sl sc plateau1;
             joueur_courant := joueur_courant self;
             plateau_actif := plateau_actif self;
             jeu_termine := jeu_termine self;
             vainqueur := vainqueur self |} in
        if negb ok then (false, self1)
        else
          let self2 := mettre_a_jour_etat_global self1 in
          let prochain := (cl, cc) in
          let self3 :=
            {| plateaux := plateaux self2;
               joueur_courant := joueur_courant self2;
               plateau_actif :=
                 if PetitPlateau.jeu_termine (get2 (plateaux self2) cl cc)
                 then None else Some prochain;
               jeu_termine := jeu_termine self2;
               vainqueur := vainqueur self2 |} in
          if negb (jeu_termine self3) then
            (true,
             {| plateaux := plateaux self3;
                joueur_courant :=
                  if joueur_eqb (joueur_courant self3) jX then jO else jX;
                plateau_actif := plateau_actif self3;
                jeu_termine := jeu_termine self3;
                vainqueur := vainqueur self3 |})
          else (true, self3)
    | _, _, _, _ => (false, self)
    end.

(** [range(3)] as Python integers. *)
Definition range3Z : list Z := [0; 1; 2].

(** The double loop over the cells of one sub-board. *)
Definition cases_jouables (plateau : PetitPlateau.t) (sp_l sp_c : Z) : list coup :=
  flat_map (fun i =>
    flat_map (fun j =>
      if PetitPlateau.coup_valide plateau i j then [(sp_l, sp_c, i, j)] else [])
      range3Z) range3Z.

Definition obtenir_coups_valides (self : t) : list coup :=
  match plateau_actif self with
  | Some (sp_l, sp_c) =>
      cases_jouables (get2 (plateaux self) sp_l sp_c) (Z_of_idx sp_l) (Z_of_idx sp_c)
  | None =>
      flat_map (fun sp_l =>
        flat_map (fun sp_c =>
          let plateau := get2 (plateaux self) sp_l sp_c in
          if PetitPlateau.jeu_termine plateau then []
          else cases_jouables plateau (Z_of_idx sp_l) (Z_of_idx sp_c))
          range3) range3
  end.

Definition obtenir_vainqueur (self : t) : option joueur := vainqueur self.

(** Value of the copy; the store-level method is [Tas.dupliquer]. *)
Definition dupliquer (self : t) : t :=
  let clone := reinitialiser in
  {| plateaux := map3 (map3 PetitPlateau.dupliquer) (plateaux self);
     joueur_courant := joueur_courant self;
     plateau_actif := plateau_actif self;
     jeu_termine := jeu_termine self;
     vainqueur := vainqueur self |}.

(** A game: the moves of a list played in order from a board; [None] as
    soon as one of them is refused. *)
Fixpoint jouer_partie (self : t) (l : list coup) : option t :=
  match l with
  | [] => Some self
  | mv :: l' =>
      let '(ok, self') := jouer_coup self mv in
      if ok then jouer_partie self' l' else None
  end.

(** The board between the placement and the update of the global state. *)
Definition apres_placement (self : t) (sl sc : idx) (p1 : PetitPlateau.t) : t :=
  {| plateaux := set2 (plateaux self) sl sc p1;
     joueur_courant := joueur_courant self;
     plateau_actif := plateau_actif self;
     jeu_termine := jeu_termine self;
     vainqueur := vainqueur self |}.

(** The boards a game goes through from [b0], each with the last move
    played ([None] before the first one). *)
Inductive suite (b0 : t) : option coup -> t -> Prop :=
| suite_debut : suite b0 None b0
| suite_coup dernier self mv self' :
    suite b0 dernier self ->
    jouer_coup self mv = (true, self') ->
    suite b0 (Some mv) self'.

(** Successive calls of [jouer_coup], whatever each returns. *)
Fixpoint appliquer (self : t) (l : list coup) : t :=
  match l with
  | [] => self
  | mv :: l' => appliquer (snd (jouer_coup self mv)) l'
  end.

End MorpionUltime.


(** ** [ai.py]: scores *)

(** The scores are Python integers; the searches start from [-math.inf] and
    [math.inf], which compare exactly with integers. *)
Inductive score := MoinsInf | Fini (z : Z) | PlusInf.

(** [a < b] *)
Definition score_ltb (a b : score) : bool :=
  match a, b with
  | MoinsInf, MoinsInf => false
  | MoinsInf, _ => true
  | Fini _, MoinsInf => false
  | Fini x, Fini y => x <? y
  | Fini _, PlusInf => true
  | PlusInf, _ => false
  end.

(** [a > b], [a >= b], [a == b] *)
Definition score_gtb (a b : score) : bool := score_ltb b a.
Definition score_geb (a b : score) : bool := negb (score_ltb a b).
Definition score_eqb (a b : score) : bool :=
  negb (score_ltb a b) && negb (score_ltb b a).

(** [max(a, b)] and [min(a, b)]: the first argument unless the second is
    strictly better. *)
Definition score_max (a b : score) : score := if score_gtb b a then b else a.
Definition score_min (a b : score) : score := if score_ltb b a then b else a.

(** A score that is a Python integer. *)
Definition est_fini (s : score) : Prop := exists z, s = Fini z.

(** [joueur in ligne] and [ligne.count(joueur)] *)
Definition contient (ligne : list case) (j : joueur) : bool :=
  existsb (case_eqb (Pion j)) ligne.

Definition compte (ligne : list case) (c : case) : Z :=
  Z.of_nat (length (filter (case_eqb c) ligne)).

Definition evaluer_ligne (ligne : list case) (j : joueur) : Z :=
  let adversaire := if joueur_eqb j jX then jO else jX in
  if contient ligne j && contient ligne adversaire then 0
  else if contient ligne j then 10 ^ compte ligne (Pion j)
  else if contient ligne adversaire then - (10 ^ compte ligne (Pion adversaire))
  else 0.

(** The three columns, then the two diagonals, as fresh lists. *)
Definition colonne {A} (g : tri (tri A)) (c : idx) : list A :=
  map (fun r => get2 g r c) range3.

Definition diag1 {A} (g : tri (tri A)) : list A :=
  map (fun i => get2 g i i) range3.

Definition diag2 {A} (g : tri (tri A)) : list A :=
  map (fun i => get2 g i (miroir i)) range3.

Definition evaluer_sous_plateau (plateau : PetitPlateau.t) (j : joueur) : Z :=
  let g := PetitPlateau.plateau plateau in
  let score := 0 in
  let score :=
    if case_eqb (get2 g I1 I1) (Pion j) then score + 20
    else if case_eqb (get2 g I1 I1) (Pion (if joueur_eqb j jX then jO else jX))
    then score - 20
    else score in
  let score :=
    fold_left (fun score r => score + evaluer_ligne (liste3 (get3 g r)) j) range3 score in
  let score :=
    fold_left (fun score c => score + evaluer_ligne (colonne g c) j) range3 score in
  let score := score + evaluer_ligne (diag1 g) j in
  let score := score + evaluer_ligne (diag2 g) j in
  score.

(** What one iteration of the first double loop of [evaluer_ultime] adds to
    [score] for the sub-board [sp]. *)
Definition part_sous_plateau (sp : PetitPlateau.t) (j : joueur) : Z :=
  let adversaire := if joueur_eqb j jX then jO else jX in
  match PetitPlateau.vainqueur sp with
  | Some (Gagne w) =>
      if joueur_eqb w j then 10000
      else if joueur_eqb w adversaire then - 10000
      else evaluer_sous_plateau sp j
  | _ => evaluer_sous_plateau sp j
  end.

(** [pg[i][j] = w if w and w != 'DRAW' else ' '] *)
Definition plateau_global (partie : MorpionUltime.t) : tri (tri case) :=
  map3 (map3 (fun p =>
          match PetitPlateau.vainqueur p with
          | Some (Gagne w) => Pion w
          | _ => Vide
          end)) (MorpionUltime.plateaux partie).

Definition evaluer_ultime (partie : MorpionUltime.t) (j : joueur) : Z :=
  let score := 0 in
  let score :=
    fold_left (fun score i =>
      fold_left (fun score k =>
        score + part_sous_plateau (get2 (MorpionUltime.plateaux partie) i k) j)
        range3 score) range3 score in
  let pg := plateau_global partie in
  let score :=
    fold_left (fun score r => score + evaluer_ligne (liste3 (get3 pg r)) j * 10) range3 score in
  let score :=
    fold_left (fun score c => score + evaluer_ligne (colonne pg c) j * 10) range3 score in
  let score := score + evaluer_ligne (diag1 pg) j * 10 in
  let score := score + evaluer_ligne (diag2 pg) j * 10 in
  score.

(** The eight lines of a sub-board, in the order [lignes] is filled. *)
Definition huit_lignes (g : tri (tri case)) : list (list case) :=
  map liste3 (liste3 g) ++ map (colonne g) range3 ++ [diag1 g] ++ [diag2 g].

(** The fork adjustment of one non-terminal sub-board. *)
Definition fourches (sp : PetitPlateau.t) (j : joueur) (score : Z) : Z :=
  let adversaire := if joueur_eqb j jX then jO else jX in
  let lignes := huit_lignes (PetitPlateau.plateau sp) in
  let men_joueur :=
    fold_left (fun n ligne =>
      if (compte ligne (Pion j) =? 2) && (compte ligne Vide =? 1) then n + 1 else n)
      lignes 0 in
  let men_adv :=
    fold_left (fun n ligne =>
      if (compte ligne (Pion adversaire) =? 2) && (compte ligne Vide =? 1) then n + 1 else n)
      lignes 0 in
  let score := if men_joueur >=? 2 then score + 300 else score in
  let score := if men_adv >=? 2 then score - 300 else score in
  score.

Definition evaluer_difficile (partie : MorpionUltime.t) (j : joueur) : Z :=
  let score := evaluer_ultime partie j in
  let score := score + Z.of_nat (length (MorpionUltime.obtenir_coups_valides partie)) in
  fold_left (fun score i =>
    fold_left (fun score k =>
      let sp := get2 (MorpionUltime.plateaux partie) i k in
      if PetitPlateau.jeu_termine sp then score else fourches sp j score)
      range3 score) range3 score.

(** [clone = partie.dupliquer(); clone.jouer_coup( *mv)]: the clone after
    the call, whose result the strategies discard. *)
Definition simuler (partie : MorpionUltime.t) (mv : coup) : MorpionUltime.t :=
  let clone := MorpionUltime.dupliquer partie in
  snd (MorpionUltime.jouer_coup clone mv).

(** ** [ai.py]: the three strategies

    [ia] is the attribute [self.joueur] of the strategy.  A search depth is
    carried as [reste = profondeur_max - profondeur], so that the test
    [profondeur == self.profondeur_max] reads [reste = 0]. *)

Module IAFacile.

(** [clone = partie.dupliquer(); clone.jouer_coup( *mv)], then
    [evaluer_ultime(clone, self.joueur)]: the score of the move [mv]. *)
Definition note (ia : joueur) (partie : MorpionUltime.t) (mv : coup) : Z :=
  let clone := simuler partie mv in
  evaluer_ultime clone ia.

(** One iteration of the loop of [get_move] on the state
    [(meilleur_score, meilleur_coup)]. *)
Definition pas (ia : joueur) (partie : MorpionUltime.t)
    (etat : score * option coup) (mv : coup) : score * option coup :=
  let '(meilleur_score, meilleur_coup) := etat in
  let sc := Fini (note ia partie mv) in
  if score_gtb sc meilleur_score then (sc, Some mv)
  else (meilleur_score, meilleur_coup).

(** The final [(score_dernier_coup, meilleur_coup)]. *)
Definition boucle (ia : joueur) (partie : MorpionUltime.t) : score * option coup :=
  fold_left (pas ia partie) (MorpionUltime.obtenir_coups_valides partie)
    (MoinsInf, None).

Definition get_move (ia : joueur) (partie : MorpionUltime.t) : option coup :=
  snd (boucle ia partie).

End IAFacile.

(** What a call that can raise gives back. *)
Inductive resultat (A : Type) := Renvoie (a : A) | IndexError.
Arguments Renvoie {A} a.
Arguments IndexError {A}.

(** The draws of the random source during one call of [IAMoyenne.get_move]:
    whether [random.random() < self.taux_erreur_strategique], and the
    position [random.choice] picks (read modulo the length of its
    argument). *)
Record alea := { erreur_strategique : bool; indice_choisi : nat }.

(** [random.choice(seq)]: raises [IndexError] on an empty sequence. *)
Definition random_choice {A} (r : alea) (seq : list A) : resultat A :=
  match nth_error seq (Nat.modulo (indice_choisi r) (length seq)) with
  | Some x => Renvoie x
  | None => IndexError
  end.

Module IAMoyenne.

Definition profondeur_max : nat := 3.

Fixpoint minimax (ia : joueur) (reste : nat) (partie : MorpionUltime.t)
    (est_max : bool) : score :=
  match reste with
  | O => Fini (evaluer_ultime partie ia)
  | S reste' =>
      if MorpionUltime.jeu_termine partie then Fini (evaluer_ultime partie ia)
      else if est_max then
        fold_left (fun meilleur mv =>
          score_max meilleur (minimax ia reste' (simuler partie mv) false))
          (MorpionUltime.obtenir_coups_valides partie) MoinsInf
      else
        fold_left (fun pire mv =>
          score_min pire (minimax ia reste' (simuler partie mv) true))
          (MorpionUltime.obtenir_coups_valides partie) PlusInf
  end.

(** One iteration of the second loop of [get_move] on the state
    [(meilleur_score, meilleurs)]. *)
Definition pas (ia : joueur) (partie : MorpionUltime.t)
    (etat : score * list coup) (mv : coup) : score * list coup :=
  let '(meilleur_score, meilleurs) := etat in
  let clone := simuler partie mv in
  let sc := minimax ia (profondeur_max - 1) clone false in
  if score_gtb sc meilleur_score then (sc, [mv])
  else if score_eqb sc meilleur_score then (meilleur_score, meilleurs ++ [mv])
  else (meilleur_score, meilleurs).

Definition get_move (ia : joueur) (r : alea) (partie : MorpionUltime.t)
    : resultat coup :=
  if erreur_strategique r then
    random_choice r (MorpionUltime.obtenir_coups_valides partie)
  else
    let '(meilleur_score, meilleurs) :=
      fold_left (pas ia partie) (MorpionUltime.obtenir_coups_valides partie)
        (MoinsInf, []) in
    random_choice r meilleurs.

End IAMoyenne.

Module IADifficile.

Definition profondeur_max : nat := 4.

(** The loops of [minimax] over the moves of a node, with their [break];
    [f] is the recursive call on the clone. *)
Fixpoint boucle_max (f : MorpionUltime.t -> score -> score -> score)
    (partie : MorpionUltime.t) (l : list coup) (val alpha beta : score) : score :=
  match l with
  | [] => val
  | mv :: l' =>
      let val := score_max val (f (simuler partie mv) alpha beta) in
      let alpha := score_max alpha val in
      if score_geb alpha beta then val
      else boucle_max f partie l' val alpha beta
  end.

Fixpoint boucle_min (f : MorpionUltime.t -> score -> score -> score)
    (partie : MorpionUltime.t) (l : list coup) (val alpha beta : score) : score :=
  match l with
  | [] => val
  | mv :: l' =>
      let val := score_min val (f (simuler partie mv) alpha beta) in
      let beta := score_min beta val in
      if score_geb alpha beta then val
      else boucle_min f partie l' val alpha beta
  end.

Fixpoint minimax (ia : joueur) (reste : nat) (partie : MorpionUltime.t)
    (alpha beta : score) (est_max : bool) : score :=
  match reste with
  | O => Fini (evaluer_difficile partie ia)
  | S reste' =>
      if MorpionUltime.jeu_termine partie then Fini (evaluer_difficile partie ia)
      else if est_max then
        boucle_max (fun clone a b => minimax ia reste' clone a b false)
          partie (MorpionUltime.obtenir_coups_valides partie) MoinsInf alpha beta
      else
        boucle_min (fun clone a b => minimax ia reste' clone a b true)
          partie (MorpionUltime.obtenir_coups_valides partie) PlusInf alpha beta
  end.

(** One iteration of the loop of [get_move] on the state
    [(meilleur_score, meilleur_coup, alpha)]; [beta] stays [math.inf]. *)
Definition pas (ia : joueur) (partie : MorpionUltime.t)
    (etat : score * option coup * score) (mv : coup) : score * option coup * score :=
  let '(meilleur_score, meilleur_coup, alpha) := etat in
  let clone := simuler partie mv in
  let sc := minimax ia (profondeur_max - 1) clone alpha PlusInf false in
  let '(meilleur_score, meilleur_coup) :=
    if score_gtb sc meilleur_score then (sc, Some mv)
    else (meilleur_score, meilleur_coup) in
  (meilleur_score, meilleur_coup, score_max alpha meilleur_score).

Definition get_move (ia : joueur) (partie : MorpionUltime.t) : option coup :=
  snd (fst (fold_left (pas ia partie) (MorpionUltime.obtenir_coups_valides partie)
              (MoinsInf, None, MoinsInf))).

End IADifficile.

(** ** Positions used as examples

    Each is given by the moves of a game played from the initial board. *)

(** X wins the three sub-boards of the bottom row in 17 moves. *)
Definition partie_gagnee : list coup :=
  [(2,2,1,0); (1,0,2,1); (2,1,1,1); (1,1,2,0); (2,0,0,2); (0,2,2,0);
   (2,0,2,2); (2,2,2,1); (2,1,0,1); (0,1,2,0); (2,0,1,2); (1,2,2,2);
   (2,2,0,0); (0,0,2,1); (2,1,2,1); (0,2,2,2); (2,2,2,0)].

(** Sub-board (0,0) is filled without a line in 21 moves. *)
Definition partie_sous_plateau_nul : list coup :=
  [(0,0,2,1); (2,1,0,1); (0,1,0,0); (0,0,0,1); (0,1,2,2); (2,2,0,0);
   (0,0,0,0); (0,0,2,2); (2,2,2,1); (2,1,1,0); (1,0,0,0); (0,0,1,1);
   (1,1,0,0); (0,0,2,0); (2,0,0,0); (0,0,1,0); (1,0,2,1); (2,1,0,0);
   (0,0,0,2); (0,2,0,0); (0,0,1,2)].

(** The nine sub-boards are all won, without a global line, in 33 moves. *)
Definition partie_pleine : list coup :=
  [(0,2,2,0); (2,0,1,0); (1,0,1,1); (1,1,1,1); (1,1,0,0); (0,0,0,2);
   (0,2,0,0); (0,0,0,1); (0,1,0,0); (0,0,0,0); (0,2,1,0); (1,0,0,1);
   (0,1,0,2); (1,2,1,1); (1,1,0,2); (2,1,1,1); (1,1,0,1); (0,1,1,0);
   (1,0,2,1); (2,1,0,0); (0,1,0,1); (2,1,2,2); (2,2,2,1); (1,2,2,1);
   (2,2,2,0); (2,0,1,2); (1,2,2,0); (2,0,1,1); (2,2,2,2); (1,2,0,1);
   (1,0,2,2); (1,0,0,0); (1,0,2,0)].

(** After 35 moves sub-board (1,1) is drawn, (0,0) and (1,2) are still
    open, and every triple holds a drawn sub-board or both symbols. *)
Definition partie_nulle_anticipee : list coup :=
  [(1,1,1,2); (1,2,2,2); (2,2,2,1); (2,1,0,1); (0,1,2,0); (2,0,2,0);
   (2,0,1,1); (1,1,1,0); (1,0,2,0); (2,0,2,2); (2,2,2,2); (2,2,1,0);
   (1,0,1,1); (1,1,0,1); (0,1,1,1); (1,1,2,2); (2,2,2,0); (2,0,2,1);
   (2,1,2,0); (0,2,0,1); (0,1,0,2); (0,2,2,0); (1,1,0,2); (0,2,0,2);
   (0,2,0,0); (0,0,1,2); (1,2,2,1); (2,1,1,1); (1,1,2,0); (2,1,2,1);
   (1,0,0,2); (0,2,1,1); (1,1,2,1); (1,1,1,1); (1,1,0,0)].

(** The board a game ends on; the initial board if a move is refused. *)
Definition position_apres (l : list coup) : MorpionUltime.t :=
  match MorpionUltime.jouer_partie MorpionUltime.reinitialiser l with
  | Some b => b
  | None => MorpionUltime.reinitialiser
  end.

(** The board of [partie_nulle_anticipee] after its last placement, before
    the update of the global state that follows it. *)
Definition avant_nulle_anticipee : MorpionUltime.t :=
  let b := position_apres (removelast partie_nulle_anticipee) in
  MorpionUltime.apres_placement b I1 I1
    (snd (PetitPlateau.jouer_coup (get2 (MorpionUltime.plateaux b) I1 I1) 0 0
            (MorpionUltime.joueur_courant b))).

(** The board of [partie_pleine] before its last move: four moves are
    legal, all in sub-board (1,0). *)
Definition avant_partie_pleine : MorpionUltime.t :=
  position_apres (removelast partie_pleine).

(** The reading of the anticipated-draw test under which a triple stays
    open for [j] as long as no sub-board of it is won by the other symbol
    (a drawn sub-board does not close it). *)
Definition combo_ouverte_sauf_adverse (g : tri (tri marque)) (j : joueur)
    (combo : list (idx * idx)) : bool :=
  forallb (fun rc =>
    negb (marque_eqb (MorpionUltime.en g rc)
            (M_de (Gagne (if joueur_eqb j jX then jO else jX))))) combo.

(** ** Counting cells, lines of a grid *)

(** Sum of [f] over the three elements of a row. *)
Definition somme3 {A} (f : A -> nat) (t : tri A) : nat :=
  let '(a, b, c) := t in (f a + f b + f c)%nat.

Definition vide_1 (c : case) : nat :=
  match c with Vide => 1%nat | Pion _ => 0%nat end.

(** Number of empty cells of a sub-board, of a board. *)
Definition pp_nb_vides (p : PetitPlateau.t) : nat :=
  somme3 (somme3 vide_1) (PetitPlateau.plateau p).

Definition nb_vides (b : MorpionUltime.t) : nat :=
  somme3 (somme3 pp_nb_vides) (MorpionUltime.plateaux b).

(** The symbol [j] fills one of the eight lines of the grid [g]. *)
Definition a_une_ligne (g : tri (tri case)) (j : joueur) : bool :=
  existsb (fun combo =>
    forallb (fun rc => case_eqb (get2 g (fst rc) (snd rc)) (Pion j)) combo)
    MorpionUltime.combinaisons.

(** The outcome recorded in a sub-board agrees with its grid: in progress
    with an empty cell and no line; won by a symbol that fills a line; or
    drawn, full and without any line. *)
Definition etat_juste (p : PetitPlateau.t) : Prop :=
  match PetitPlateau.vainqueur p with
  | None =>
      PetitPlateau.jeu_termine p = false
      /\ PetitPlateau.est_nul p = false
      /\ forall j, a_une_ligne (PetitPlateau.plateau p) j = false
  | Some (Gagne j) =>
      PetitPlateau.jeu_termine p = true
      /\ a_une_ligne (PetitPlateau.plateau p) j = true
  | Some DRAW =>
      PetitPlateau.jeu_termine p = true
      /\ PetitPlateau.est_nul p = true
      /\ forall j, a_une_ligne (PetitPlateau.plateau p) j = false
  end.

(** What the last loop of [evaluer_difficile] adds for one sub-board. *)
Definition ajustement_fourches (sp : PetitPlateau.t) (j : joueur) : Z :=
  if PetitPlateau.jeu_termine sp then 0 else fourches sp j 0.

(** Number of cells holding the symbol [j] in a sub-board, on a board. *)
Definition pion_1 (j : joueur) (c : case) : nat :=
  if case_eqb c (Pion j) then 1%nat else 0%nat.

Definition pp_nb_pions (j : joueur) (p : PetitPlateau.t) : nat :=
  somme3 (somme3 (pion_1 j)) (PetitPlateau.plateau p).

Definition nb_pions (j : joueur) (b : MorpionUltime.t) : nat :=
  somme3 (somme3 (pp_nb_pions j)) (MorpionUltime.plateaux b).

(** The player whose move led to the board [b]: [jouer_coup] hands the turn
    over only when the game goes on. *)
Definition dernier_joueur (b : MorpionUltime.t) : joueur :=
  if MorpionUltime.jeu_termine b then MorpionUltime.joueur_courant b
  else autre (MorpionUltime.joueur_courant b).

(** ** The search of [IADifficile] with its cut-offs removed

    The reference the pruned search is compared with: the same recursion
    and the same root loop as [IADifficile], without [alpha], [beta] and
    the [break]. *)

(** [a <= b] on scores. *)
Definition score_leb (a b : score) : bool := negb (score_ltb b a).

Module SansElagage.

Fixpoint minimax (ia : joueur) (reste : nat) (partie : MorpionUltime.t)
    (est_max : bool) : score :=
  match reste with
  | O => Fini (evaluer_difficile partie ia)
  | S reste' =>
      if MorpionUltime.jeu_termine partie then Fini (evaluer_difficile partie ia)
      else if est_max then
        fold_left (fun val mv =>
          score_max val (minimax ia reste' (simuler partie mv) false))
          (MorpionUltime.obtenir_coups_valides partie) MoinsInf
      else
        fold_left (fun val mv =>
          score_min val (minimax ia reste' (simuler partie mv) true))
          (MorpionUltime.obtenir_coups_valides partie) PlusInf
  end.

(** The value of the root move [mv]. *)
Definition valeur (ia : joueur) (partie : MorpionUltime.t) (mv : coup) : score :=
  minimax ia (IADifficile.profondeur_max - 1) (simuler partie mv) false.

Definition pas (ia : joueur) (partie : MorpionUltime.t)
    (etat : score * option coup) (mv : coup) : score * option coup :=
  let '(meilleur_score, meilleur_coup) := etat in
  let sc := valeur ia partie mv in
  if score_gtb sc meilleur_score then (sc, Some mv)
  else (meilleur_score, meilleur_coup).

(** The final [(score_dernier_coup, meilleur_coup)]. *)
Definition boucle (ia : joueur) (partie : MorpionUltime.t) : score * option coup :=
  fold_left (pas ia partie) (MorpionUltime.obtenir_coups_valides partie)
    (MoinsInf, None).

Definition get_move (ia : joueur) (partie : MorpionUltime.t) : option coup :=
  snd (boucle ia partie).

End SansElagage.

(** What a call of the pruned search with the window [(alpha, beta)] tells
    about the value [v] of the node: the result [r] is [v] when it falls
    inside the window, an upper bound of [v] when it is at most [alpha], a
    lower bound when it is at least [beta]. *)
Definition encadre (r v alpha beta : score) : Prop :=
  (score_ltb alpha r = true -> score_ltb r beta = true -> r = v)
  /\ (score_leb r alpha = true -> score_leb v r = true)
  /\ (score_leb beta r = true -> score_leb r v = true).


(** The value the second loop of [IAMoyenne.get_move] gives the move [mv],
    and the greatest of [depart] and the values of the moves of [l]. *)
Definition valeur_moyenne (ia : joueur) (partie : MorpionUltime.t) (mv : coup)
    : score :=
  IAMoyenne.minimax ia (IAMoyenne.profondeur_max - 1) (simuler partie mv) false.

Definition meilleure_valeur (ia : joueur) (partie : MorpionUltime.t)
    (l : list coup) (depart : score) : score :=
  fold_left (fun m mv => score_max m (valeur_moyenne ia partie mv)) l depart.

(** ** [tournament.py]: the turn-by-turn loop of one game of [lancer_match] *)

Module Tournoi.

(** The three classes [lancer_match] is given instances of. *)
Inductive strategie := Facile | Moyenne | Difficile.

(** [ia_courante.get_move(jeu)] for the instance that plays the symbol [j];
    [r] holds what the random source draws during the call. *)
Definition get_move (s : strategie) (j : joueur) (r : alea)
    (jeu : MorpionUltime.t) : resultat (option coup) :=
  match s with
  | Facile => Renvoie (IAFacile.get_move j jeu)
  | Moyenne =>
      match IAMoyenne.get_move j r jeu with
      | Renvoie mv => Renvoie (Some mv)
      | IndexError => IndexError
      end
  | Difficile => Renvoie (IADifficile.get_move j jeu)
  end.

(** How [while not jeu.jeu_termine] is left: its condition fails, the
    [break] on [None] is taken, or [get_move] raises.  [Inacheve] is not an
    outcome of the loop: the iterations allowed did not suffice. *)
Inductive sortie :=
| Condition (jeu : MorpionUltime.t)
| Break (jeu : MorpionUltime.t)
| Leve
| Inacheve (jeu : MorpionUltime.t).

(** At most [n] iterations of the loop from the board [jeu]; [joueurs] is
    the dictionary from symbols to instances, [tirages k] the draws of the
    random source during iteration [k], [tour] the number of the next
    iteration.  The two instances are different objects: the loop over
    [joueurs.items()] that precedes this one then leaves in each its own
    symbol as [self.joueur], which is [jeu.joueur_courant] whenever the
    instance is asked for a move.  (With one object given twice
    [self.joueur] would be ['O'] for both sides; that call is not
    modelled.)  The counters of the loop body are left out: nothing reads
    them before the loop ends, and the value [jouer_coup] returns is
    dropped. *)
Fixpoint boucle (n : nat) (joueurs : joueur -> strategie) (tirages : nat -> alea)
    (tour : nat) (jeu : MorpionUltime.t) : sortie :=
  if MorpionUltime.jeu_termine jeu then Condition jeu
  else
    match n with
    | O => Inacheve jeu
    | S n' =>
        let ia_courante := joueurs (MorpionUltime.joueur_courant jeu) in
        match get_move ia_courante (MorpionUltime.joueur_courant jeu)
                (tirages tour) jeu with
        | IndexError => Leve
        | Renvoie None => Break jeu
        | Renvoie (Some mv) =>
            boucle n' joueurs tirages (S tour)
              (snd (MorpionUltime.jouer_coup jeu mv))
        end
    end.

End Tournoi.

(** The 81 moves in the order of their coordinates
    [(sp_l, sp_c, cel_l, cel_c)]. *)
Definition tous_les_coups : list coup :=
  flat_map (fun a =>
    flat_map (fun b =>
      flat_map (fun i =>
        flat_map (fun j => [(a, b, i, j)]) MorpionUltime.range3Z)
        MorpionUltime.range3Z)
      MorpionUltime.range3Z)
    MorpionUltime.range3Z.

(** ** [tournament.py]: the games of [lancer_match] and their count *)

Module Match.
Import Tournoi.

(** The keys of the dictionary [resultats]: the attribute [nom] of an
    instance, which its class fixes, or ['nuls']. *)
Inductive cle := Nom (s : strategie) | Nuls.

#[global] Instance strategie_eq_dec : EqDecision strategie.
Proof. solve_decision. Defined.

#[global] Instance cle_eq_dec : EqDecision cle.
Proof. solve_decision. Defined.

(** [resultats]: the count under each key. *)
Definition resultats : Type := cle -> nat.

(** [{ia1.nom: 0, ia2.nom: 0, 'nuls': 0}] *)
Definition resultats_initiaux : resultats := fun _ => 0%nat.

(** [resultats[k] += 1] *)
Definition incrementer (res : resultats) (k : cle) : resultats :=
  fun k' => if bool_decide (k' = k) then S (res k') else res k'.

(** [joueurs]: [ia1] plays ['X'] in the games of even number. *)
Definition joueurs_de (ia1 ia2 : strategie) (num_partie : nat) (j : joueur)
    : strategie :=
  if Nat.even num_partie
  then match j with jX => ia1 | jO => ia2 end
  else match j with jX => ia2 | jO => ia1 end.

(** What [lancer_match] gives: the dictionary, the exception raised by a
    [get_move], or the one raised by [temps_total / nb_parties].
    [Inacheve_m] is not an outcome of the program: a game ran out of the
    iterations allowed. *)
Inductive fin_match :=
| Resultats (res : resultats)
| Exception
| ZeroDivisionError
| Inacheve_m.

(** The end of the body of [for num_partie in range(nb_parties)]. *)
Definition compter (ia1 ia2 : strategie) (num_partie : nat)
    (jeu : MorpionUltime.t) (res : resultats) : resultats :=
  match MorpionUltime.obtenir_vainqueur jeu with
  | Some gagnant => incrementer res (Nom (joueurs_de ia1 ia2 num_partie gagnant))
  | None => incrementer res Nuls
  end.

(** The games [num_partie, num_partie + 1, ...], [restantes] of them, each
    of at most [n] moves; [tirages num k] is what the random source draws
    during iteration [k] of game [num].  The two instances are different
    objects, so each keeps the symbol the loop over [joueurs.items()] gives
    it. *)
Fixpoint parties (n : nat) (ia1 ia2 : strategie) (tirages : nat -> nat -> alea)
    (num_partie restantes : nat) (res : resultats) : fin_match :=
  match restantes with
  | O => Resultats res
  | S restantes' =>
      match boucle n (joueurs_de ia1 ia2 num_partie) (tirages num_partie) 0
              MorpionUltime.reinitialiser with
      | Leve => Exception
      | Inacheve _ => Inacheve_m
      | Condition jeu | Break jeu =>
          parties n ia1 ia2 tirages (S num_partie) restantes'
            (compter ia1 ia2 num_partie jeu res)
      end
  end.

(** [range(nb_parties)] has [Z.to_nat nb_parties] elements; after the
    games, the entry ['moyenne_par_partie'] of [perf] divides the elapsed
    time, a float, by [nb_parties]. *)
Definition lancer_match (n : nat) (ia1 ia2 : strategie) (nb_parties : Z)
    (tirages : nat -> nat -> alea) : fin_match :=
  match parties n ia1 ia2 tirages 0 (Z.to_nat nb_parties) resultats_initiaux with
  | Resultats res => if nb_parties =? 0 then ZeroDivisionError else Resultats res
  | Exception => Exception
  | ZeroDivisionError => ZeroDivisionError
  | Inacheve_m => Inacheve_m
  end.

(** The games counted in [res]: the sum of its entries. *)
Definition total (ia1 ia2 : strategie) (res : resultats) : nat :=
  if bool_decide (ia1 = ia2) then (res (Nom ia1) + res Nuls)%nat
  else (res (Nom ia1) + res (Nom ia2) + res Nuls)%nat.

End Match.

(** ** The object store

    [dupliquer] and [jouer_coup] are methods of mutable objects.  The store
    below holds the objects the program mutates in place or through their
    attributes: the rows of a sub-board (lists of three strings, written by
    [self.plateau[ligne][colonne] = joueur]), the [PetitPlateau] objects and
    the [MorpionUltime] objects.  The outer lists ([plateau], [plateaux] and
    its rows) are built once and only ever replaced as a whole, never
    written into; an object carries them as the triple of the references
    they hold. *)

Module Tas.

Definition adr : Type := positive.

Inductive objet :=
| OLigne (cases : tri case)
| OPetit (plateau : tri adr) (vainqueur : option issue) (jeu_termine : bool)
| OUltime (plateaux : tri (tri adr)) (joueur_courant : joueur)
    (plateau_actif : option (idx * idx)) (jeu_termine : bool)
    (vainqueur : option joueur).

Abbreviation tas := (gmap adr objet).

(** A computation on the store; [None] stands for a fault of the
    interpreter (attribute of the wrong kind, dangling reference), which no
    store built by the program exhibits. *)
Definition M (A : Type) : Type := tas -> option (A * tas).

Definition ret {A} (a : A) : M A := fun h => Some (a, h).

Definition bind {A B} (m : M A) (k : A -> M B) : M B :=
  fun h => match m h with Some (a, h') => k a h' | None => None end.

Definition echec {A} : M A := fun _ => None.

Notation "'soit' x '<-' m 'dans' k" := (bind m (fun x => k))
  (at level 10, x name, m at level 100, k at level 200).

(** Creation of an object, at an address that is not in use. *)
Definition allouer (o : objet) : M adr :=
  fun h => let a := fresh (dom h) in Some (a, <[a := o]> h).

Definition lire (a : adr) : M objet :=
  fun h => match h !! a with Some o => Some (o, h) | None => None end.

Definition ecrire (a : adr) (o : objet) : M unit :=
  fun h => match h !! a with Some _ => Some (tt, <[a := o]> h) | None => None end.

Definition mapM3 {A B} (f : A -> M B) (t : tri A) : M (tri B) :=
  let '(a, b, c) := t in
  soit x <- f a dans
  soit y <- f b dans
  soit z <- f c dans
  ret (x, y, z).

Fixpoint mapM {A B} (f : A -> M B) (l : list A) : M (list B) :=
  match l with
  | [] => ret []
  | a :: l' => soit x <- f a dans soit xs <- mapM f l' dans ret (x :: xs)
  end.

(** *** What the attributes of an object read as *)

Definition opt3 {A} (t : tri (option A)) : option (tri A) :=
  match t with
  | (Some a, Some b, Some c) => Some (a, b, c)
  | _ => None
  end.

Definition valeur_ligne (h : tas) (a : adr) : option (tri case) :=
  match h !! a with Some (OLigne cs) => Some cs | _ => None end.

Definition valeur_petit (h : tas) (a : adr) : option PetitPlateau.t :=
  match h !! a with
  | Some (OPetit ls v t) =>
      match opt3 (map3 (valeur_ligne h) ls) with
      | Some g =>
          Some {| PetitPlateau.plateau := g;
                  PetitPlateau.vainqueur := v;
                  PetitPlateau.jeu_termine := t |}
      | None => None
      end
  | _ => None
  end.

Definition valeur_ultime (h : tas) (a : adr) : option MorpionUltime.t :=
  match h !! a with
  | Some (OUltime ps jc pa jt v) =>
      match opt3 (map3 (fun r => opt3 (map3 (valeur_petit h) r)) ps) with
      | Some g =>
          Some {| MorpionUltime.plateaux := g;
                  MorpionUltime.joueur_courant := jc;
                  MorpionUltime.plateau_actif := pa;
                  MorpionUltime.jeu_termine := jt;
                  MorpionUltime.vainqueur := v |}
      | None => None
      end
  | _ => None
  end.

(** Reading without writing: what the tests of a method see. *)
Definition voir_petit (a : adr) : M PetitPlateau.t :=
  fun h => match valeur_petit h a with Some p => Some (p, h) | None => None end.

Definition voir_ultime (a : adr) : M MorpionUltime.t :=
  fun h => match valeur_ultime h a with Some b => Some (b, h) | None => None end.

(** Assignment to attributes of a [PetitPlateau], of a [MorpionUltime]. *)
Definition affecter_petit (a : adr)
    (f : tri adr -> option issue -> bool -> objet) : M unit :=
  soit o <- lire a dans
  match o with
  | OPetit ls v t => ecrire a (f ls v t)
  | _ => echec
  end.

Definition affecter_ultime (a : adr)
    (f : tri (tri adr) -> joueur -> option (idx * idx) -> bool -> option joueur -> objet)
    : M unit :=
  soit o <- lire a dans
  match o with
  | OUltime ps jc pa jt v => ecrire a (f ps jc pa jt v)
  | _ => echec
  end.

(** *** [PetitPlateau] *)

(** [PetitPlateau()]: three fresh rows of [' '], [vainqueur = None],
    [jeu_termine = False]. *)
Definition pp_nouveau : M adr :=
  soit l0 <- allouer (OLigne (Vide, Vide, Vide)) dans
  soit l1 <- allouer (OLigne (Vide, Vide, Vide)) dans
  soit l2 <- allouer (OLigne (Vide, Vide, Vide)) dans
  allouer (OPetit (l0, l1, l2) None false).

(** [ligne[:]] *)
Definition copier_ligne (a : adr) : M adr :=
  soit o <- lire a dans
  match o with
  | OLigne cs => allouer (OLigne cs)
  | _ => echec
  end.

Definition pp_dupliquer (self : adr) : M adr :=
  soit nouveau <- pp_nouveau dans
  soit o <- lire self dans
  match o with
  | OPetit ls v t =>
      soit copie <- mapM3 copier_ligne ls dans
      soit _ <- affecter_petit nouveau (fun _ v' t' => OPetit copie v' t') dans
      soit _ <- affecter_petit nouveau (fun ls' _ t' => OPetit ls' v t') dans
      soit _ <- affecter_petit nouveau (fun ls' v' _ => OPetit ls' v' t) dans
      ret nouveau
  | _ => echec
  end.

(** [self.vainqueur, self.jeu_termine = v, True] *)
Definition pp_terminer (self : adr) (v : issue) : M unit :=
  affecter_petit self (fun ls _ _ => OPetit ls (Some v) true).

Definition pp_verifier_etat (self : adr) (j : joueur) : M unit :=
  soit p <- voir_petit self dans
  if existsb (PetitPlateau.ligne_ou_colonne p j) range3 then pp_terminer self (Gagne j)
  else if PetitPlateau.diagonales p j then pp_terminer self (Gagne j)
  else if PetitPlateau.est_nul p then pp_terminer self DRAW
  else ret tt.

Definition pp_jouer_coup (self : adr) (ligne colonne : Z) (j : joueur) : M bool :=
  soit p <- voir_petit self dans
  if PetitPlateau.coup_valide p ligne colonne then
    match idx_of_Z ligne, idx_of_Z colonne with
    | Some l, Some c =>
        soit o <- lire self dans
        match o with
        | OPetit ls _ _ =>
            soit r <- lire (get3 ls l) dans
            match r with
            | OLigne cs =>
                soit _ <- ecrire (get3 ls l) (OLigne (set3 cs c (Pion j))) dans
                soit _ <- pp_verifier_etat self j dans
                ret true
            | _ => echec
            end
        | _ => echec
        end
    | _, _ => echec
    end
  else ret false.

(** *** [MorpionUltime] *)

(** [MorpionUltime()] *)
Definition nouveau : M adr :=
  soit ps <- mapM3 (mapM3 (fun _ : unit => pp_nouveau))
               ((tt, tt, tt), (tt, tt, tt), (tt, tt, tt)) dans
  allouer (OUltime ps jX None false None).

Definition dupliquer (self : adr) : M adr :=
  soit clone <- nouveau dans
  soit o <- lire self dans
  match o with
  | OUltime ps jc pa jt v =>
      soit copies <- mapM3 (mapM3 pp_dupliquer) ps dans
      soit _ <- affecter_ultime clone
                  (fun _ jc' pa' jt' v' => OUltime copies jc' pa' jt' v') dans
      soit _ <- affecter_ultime clone
                  (fun ps' _ pa' jt' v' => OUltime ps' jc pa' jt' v') dans
      soit _ <- affecter_ultime clone
                  (fun ps' jc' _ jt' v' => OUltime ps' jc' pa jt' v') dans
      soit _ <- affecter_ultime clone
                  (fun ps' jc' pa' _ v' => OUltime ps' jc' pa' jt v') dans
      soit _ <- affecter_ultime clone
                  (fun ps' jc' pa' jt' _ => OUltime ps' jc' pa' jt' v) dans
      ret clone
  | _ => echec
  end.

(** [self.vainqueur, self.jeu_termine = v, True] *)
Definition terminer (self : adr) (v : option joueur) : M unit :=
  affecter_ultime self (fun ps jc pa _ _ => OUltime ps jc pa true v).

Definition mettre_a_jour_etat_global (self : adr) : M unit :=
  soit b <- voir_ultime self dans
  let global_p := MorpionUltime.grille_virtuelle b in
  match MorpionUltime.victoire_globale global_p with
  | Some j => terminer self (Some j)
  | None =>
      if MorpionUltime.tous_termines b then terminer self None
      else if negb (MorpionUltime.peut_encore_gagner global_p jX)
              && negb (MorpionUltime.peut_encore_gagner global_p jO)
      then terminer self None
      else ret tt
  end.

Definition jouer_coup (self : adr) (mv : coup) : M bool :=
  let '(sp_l, sp_c, cel_l, cel_c) := mv in
  soit b <- voir_ultime self dans
  if negb (MorpionUltime.coup_valide b mv) || MorpionUltime.jeu_termine b
  then ret false
  else
    match idx_of_Z sp_l, idx_of_Z sp_c, idx_of_Z cel_l, idx_of_Z cel_c with
    | Some sl, Some sc, Some cl, Some cc =>
        soit o <- lire self dans
        match o with
        | OUltime ps _ _ _ _ =>
            let plateau := get2 ps sl sc in
            soit ok <- pp_jouer_coup plateau cel_l cel_c
                         (MorpionUltime.joueur_courant b) dans
            if negb ok then ret false
            else
              soit _ <- mettre_a_jour_etat_global self dans
              soit b2 <- voir_ultime self dans
              soit _ <- affecter_ultime self
                          (fun ps' jc' _ jt' v' =>
                             OUltime ps' jc'
                               (if PetitPlateau.jeu_termine
                                     (get2 (MorpionUltime.plateaux b2) cl cc)
                                then None else Some (cl, cc))
                               jt' v') dans
              soit b3 <- voir_ultime self dans
              soit _ <-
                (if negb (MorpionUltime.jeu_termine b3) then
                   affecter_ultime self
                     (fun ps' _ pa' jt' v' =>
                        OUltime ps'
                          (if joueur_eqb (MorpionUltime.joueur_courant b3) jX
                           then jO else jX)
                          pa' jt' v')
                 else ret tt) dans
              ret true
        | _ => echec
        end
    | _, _, _, _ => echec
    end.

(** Successive calls of [jouer_coup] on the same object. *)
Definition appliquer (self : adr) (l : list coup) : M (list bool) :=
  mapM (jouer_coup self) l.

(** *** Shape of a board in the store *)

(** For each sub-board, the address of its object and of its three rows. *)
Definition forme : Type := tri (tri (adr * tri adr)).

Definition forme_petit (h : tas) (a : adr) : option (adr * tri adr) :=
  match h !! a with
  | Some (OPetit ls _ _) => Some (a, ls)
  | _ => None
  end.

Definition forme_de (h : tas) (u : adr) : option forme :=
  match h !! u with
  | Some (OUltime ps _ _ _ _) =>
      opt3 (map3 (fun r => opt3 (map3 (forme_petit h) r)) ps)
  | _ => None
  end.

Definition bloc (pl : adr * tri adr) : list adr := fst pl :: liste3 (snd pl).

Definition adresses (f : forme) : list adr :=
  flat_map (fun r => flat_map bloc (liste3 r)) (liste3 f).

(** The board at [u] reads as [b], and no object or row is used twice in
    it. *)
Definition bien_forme (h : tas) (u : adr) (b : MorpionUltime.t) : Prop :=
  valeur_ultime h u = Some b
  /\ exists f, forme_de h u = Some f /\ NoDup (adresses f).

(** *** Vocabulary of the store proofs *)

(** Every object of [h] is still there, unchanged, in [h']. *)
Definition preserve (h h' : tas) : Prop :=
  forall a, a ∈ dom h -> h' !! a = h !! a.

(** The addresses of [l] are in use in [h'] and were not in [h]. *)
Definition frais (h h' : tas) (l : list adr) : Prop :=
  forall a, In a l -> (a ∉ dom h) /\ (a ∈ dom h').

(** The sub-board object at [a], with rows at [ls], reads as [p]. *)
Definition repr_petit (h : tas) (a : adr) (ls : tri adr) (p : PetitPlateau.t) : Prop :=
  h !! a = Some (OPetit ls (PetitPlateau.vainqueur p) (PetitPlateau.jeu_termine p))
  /\ forall k, h !! get3 ls k = Some (OLigne (get3 (PetitPlateau.plateau p) k)).

(** The board object at [u], laid out as [f], reads as [b]. *)
Definition repr (h : tas) (u : adr) (f : forme) (b : MorpionUltime.t) : Prop :=
  h !! u = Some (OUltime (map3 (map3 fst) f)
                   (MorpionUltime.joueur_courant b) (MorpionUltime.plateau_actif b)
                   (MorpionUltime.jeu_termine b) (MorpionUltime.vainqueur b))
  /\ forall i j,
       repr_petit h (fst (get2 f i j)) (snd (get2 f i j))
         (get2 (MorpionUltime.plateaux b) i j).

(** [m] runs without fault from [h], keeps the objects of [h], and creates
    the objects at the addresses [adrs w], all different, with [post]. *)
Definition cree {B W} (adrs : W -> list adr) (post : tas -> B -> W -> Prop)
    (m : M B) (h : tas) : Prop :=
  exists y h' w,
    m h = Some (y, h') /\ preserve h h' /\ frais h h' (adrs w)
    /\ NoDup (adrs w) /\ post h' y w.

Definition nat_of_idx (i : idx) : nat :=
  match i with I0 => 0 | I1 => 1 | I2 => 2 end.

(** Rank in [adresses f] of the object of sub-board [(i, j)], and of its
    row [k]. *)
Definition rang_petit (i j : idx) : nat :=
  (12 * nat_of_idx i + 4 * nat_of_idx j)%nat.

Definition rang_ligne (i j k : idx) : nat :=
  (12 * nat_of_idx i + 4 * nat_of_idx j + 1 + nat_of_idx k)%nat.

(** The boards at [u] and [c] are both well formed and have no object or
    row in common. *)
Definition separes (h : tas) (u c : adr) : Prop :=
  u <> c
  /\ exists f g,
       forme_de h u = Some f /\ forme_de h c = Some g
       /\ forall a, In a (adresses f) -> In a (adresses g) -> False.

(** The store after [jeu = MorpionUltime()] as first statement, and the
    address of [jeu] in it. *)
Definition tas_initial : tas :=
  match nouveau ∅ with Some (_, h) => h | None => ∅ end.

Definition jeu_initial : adr :=
  match nouveau ∅ with Some (u, _) => u | None => 1%positive end.

End Tas.

(** ** The strategies on the object store

    [get_move] receives the board of the game itself.  Here the three
    strategies run on the store: every trial move is played on a clone made
    by [dupliquer], and the heuristics and [obtenir_coups_valides] only
    read. *)

Module TasIA.
Import Tas.

(** [clone = partie.dupliquer(); clone.jouer_coup( *mv)] *)
Definition essayer (partie : adr) (mv : coup) : M adr :=
  soit clone <- dupliquer partie dans
  soit _ <- jouer_coup clone mv dans
  ret clone.

(** A function that reads the board and writes nothing. *)
Definition consulter {A} (f : MorpionUltime.t -> A) (partie : adr) : M A :=
  soit b <- voir_ultime partie dans ret (f b).

(** [for mv in coups: ...] on the variables the loop assigns. *)
Fixpoint pour {S} (corps : S -> coup -> M S) (coups : list coup) (etat : S) : M S :=
  match coups with
  | [] => ret etat
  | mv :: coups' => soit etat' <- corps etat mv dans pour corps coups' etat'
  end.

Definition facile_pas (ia : joueur) (partie : adr)
    (etat : score * option coup) (mv : coup) : M (score * option coup) :=
  let '(meilleur_score, meilleur_coup) := etat in
  soit clone <- essayer partie mv dans
  soit sc <- consulter (fun b => Fini (evaluer_ultime b ia)) clone dans
  ret (if score_gtb sc meilleur_score then (sc, Some mv)
       else (meilleur_score, meilleur_coup)).

Definition facile_get_move (ia : joueur) (partie : adr) : M (option coup) :=
  soit coups <- consulter MorpionUltime.obtenir_coups_valides partie dans
  soit etat <- pour (facile_pas ia partie) coups (MoinsInf, None) dans
  ret (snd etat).

Fixpoint moyenne_minimax (ia : joueur) (reste : nat) (partie : adr)
    (est_max : bool) : M score :=
  match reste with
  | O => consulter (fun b => Fini (evaluer_ultime b ia)) partie
  | S reste' =>
      soit fini <- consulter MorpionUltime.jeu_termine partie dans
      if fini then consulter (fun b => Fini (evaluer_ultime b ia)) partie
      else
        soit coups <- consulter MorpionUltime.obtenir_coups_valides partie dans
        if est_max then
          pour (fun meilleur mv =>
                  soit clone <- essayer partie mv dans
                  soit v <- moyenne_minimax ia reste' clone false dans
                  ret (score_max meilleur v)) coups MoinsInf
        else
          pour (fun pire mv =>
                  soit clone <- essayer partie mv dans
                  soit v <- moyenne_minimax ia reste' clone true dans
                  ret (score_min pire v)) coups PlusInf
  end.

Definition moyenne_pas (ia : joueur) (partie : adr)
    (etat : score * list coup) (mv : coup) : M (score * list coup) :=
  let '(meilleur_score, meilleurs) := etat in
  soit clone <- essayer partie mv dans
  soit sc <- moyenne_minimax ia (IAMoyenne.profondeur_max - 1) clone false dans
  ret (if score_gtb sc meilleur_score then (sc, [mv])
       else if score_eqb sc meilleur_score then (meilleur_score, meilleurs ++ [mv])
       else (meilleur_score, meilleurs)).

Definition moyenne_get_move (ia : joueur) (r : alea) (partie : adr)
    : M (resultat coup) :=
  if erreur_strategique r then
    soit coups <- consulter MorpionUltime.obtenir_coups_valides partie dans
    match random_choice r coups with
    | IndexError => ret IndexError
    | Renvoie mv =>
        soit clone <- essayer partie mv dans
        soit _ <- consulter (fun b => evaluer_ultime b ia) clone dans
        ret (Renvoie mv)
    end
  else
    soit coups <- consulter MorpionUltime.obtenir_coups_valides partie dans
    soit etat <- pour (moyenne_pas ia partie) coups (MoinsInf, []) dans
    ret (random_choice r (snd etat)).

Fixpoint difficile_boucle_max (f : adr -> score -> score -> M score)
    (partie : adr) (l : list coup) (val alpha beta : score) : M score :=
  match l with
  | [] => ret val
  | mv :: l' =>
      soit clone <- essayer partie mv dans
      soit v <- f clone alpha beta dans
      let val := score_max val v in
      let alpha := score_max alpha val in
      if score_geb alpha beta then ret val
      else difficile_boucle_max f partie l' val alpha beta
  end.

Fixpoint difficile_boucle_min (f : adr -> score -> score -> M score)
    (partie : adr) (l : list coup) (val alpha beta : score) : M score :=
  match l with
  | [] => ret val
  | mv :: l' =>
      soit clone <- essayer partie mv dans
      soit v <- f clone alpha beta dans
      let val := score_min val v in
      let beta := score_min beta val in
      if score_geb alpha beta then ret val
      else difficile_boucle_min f partie l' val alpha beta
  end.

Fixpoint difficile_minimax (ia : joueur) (reste : nat) (partie : adr)
    (alpha beta : score) (est_max : bool) : M score :=
  match reste with
  | O => consulter (fun b => Fini (evaluer_difficile b ia)) partie
  | S reste' =>
      soit fini <- consulter MorpionUltime.jeu_termine partie dans
      if fini then consulter (fun b => Fini (evaluer_difficile b ia)) partie
      else
        soit coups <- consulter MorpionUltime.obtenir_coups_valides partie dans
        if est_max then
          difficile_boucle_max
            (fun clone a b => difficile_minimax ia reste' clone a b false)
            partie coups MoinsInf alpha beta
        else
          difficile_boucle_min
            (fun clone a b => difficile_minimax ia reste' clone a b true)
            partie coups PlusInf alpha beta
  end.

Definition difficile_pas (ia : joueur) (partie : adr)
    (etat : score * option coup * score) (mv : coup)
    : M (score * option coup * score) :=
  let '(meilleur_score, meilleur_coup, alpha) := etat in
  soit clone <- essayer partie mv dans
  soit sc <- difficile_minimax ia (IADifficile.profondeur_max - 1) clone
               alpha PlusInf false dans
  let '(meilleur_score, meilleur_coup) :=
    if score_gtb sc meilleur_score then (sc, Some mv)
    else (meilleur_score, meilleur_coup) in
  ret (meilleur_score, meilleur_coup, score_max alpha meilleur_score).

Definition difficile_get_move (ia : joueur) (partie : adr) : M (option coup) :=
  soit coups <- consulter MorpionUltime.obtenir_coups_valides partie dans
  soit etat <- pour (difficile_pas ia partie) coups (MoinsInf, None, MoinsInf) dans
  ret (snd (fst etat)).

(** [m] run from [h] returns [a] and leaves every object of [h] as it
    was. *)
Definition sans_effet {A} (m : M A) (h : tas) (a : A) : Prop :=
  exists h', m h = Some (a, h') /\ preserve h h'.

End TasIA.

(** * Properties *)

(** ** Indices, rows and equality tests *)

Lemma joueur_eqb_eq a b : joueur_eqb a b = true <-> a = b.
Proof. destruct a, b; simpl; split; congruence. Qed.

Lemma joueur_eqb_refl a : joueur_eqb a a = true.
Proof. now destruct a. Qed.

Lemma case_eqb_eq a b : case_eqb a b = true <-> a = b.
Proof.
  destruct a as [|x], b as [|y]; simpl; try (split; congruence).
  rewrite joueur_eqb_eq. split; congruence.
Qed.

Lemma issue_eqb_eq a b : issue_eqb a b = true <-> a = b.
Proof.
  destruct a as [x|], b as [y|]; simpl; try (split; congruence).
  rewrite joueur_eqb_eq. split; congruence.
Qed.

Lemma marque_eqb_eq a b : marque_eqb a b = true <-> a = b.
Proof.
  destruct a as [|x], b as [|y]; simpl; try (split; congruence).
  rewrite issue_eqb_eq. split; congruence.
Qed.

Lemma idx_eqb_eq a b : idx_eqb a b = true <-> a = b.
Proof. destruct a, b; simpl; split; congruence. Qed.

Lemma idx_of_Z_of_idx i : idx_of_Z (Z_of_idx i) = Some i.
Proof. now destruct i. Qed.

Lemma idx_of_Z_Some z i : idx_of_Z z = Some i -> z = Z_of_idx i.
Proof.
  unfold idx_of_Z.
  destruct (Z.eqb_spec z 0); [intros [= <-]; assumption|].
  destruct (Z.eqb_spec z 1); [intros [= <-]; assumption|].
  destruct (Z.eqb_spec z 2); [intros [= <-]; assumption|].
  discriminate.
Qed.

Lemma idx_of_Z_range z : is_Some (idx_of_Z z) <-> 0 <= z < 3.
Proof.
  unfold idx_of_Z. split.
  - destruct (Z.eqb_spec z 0), (Z.eqb_spec z 1), (Z.eqb_spec z 2);
      intros [i Hi]; try lia; discriminate.
  - intros H. destruct (Z.eqb_spec z 0); [eauto|].
    destruct (Z.eqb_spec z 1); [eauto|].
    destruct (Z.eqb_spec z 2); [eauto|]. lia.
Qed.

Lemma Z_of_idx_inj i k : Z_of_idx i = Z_of_idx k -> i = k.
Proof. destruct i, k; simpl; intros; congruence || lia. Qed.

Lemma In_range3 i : In i range3.
Proof. destruct i; simpl; auto. Qed.

Lemma In_range3Z z : In z MorpionUltime.range3Z <-> is_Some (idx_of_Z z).
Proof.
  rewrite idx_of_Z_range. unfold MorpionUltime.range3Z. simpl. lia.
Qed.

Lemma get3_set3_eq {A} (t : tri A) i v : get3 (set3 t i v) i = v.
Proof. destruct t as [[a b] c], i; reflexivity. Qed.

Lemma get3_set3_ne {A} (t : tri A) i k v : i <> k -> get3 (set3 t i v) k = get3 t k.
Proof. destruct t as [[a b] c], i, k; simpl; congruence. Qed.

Lemma set3_get3 {A} (t : tri A) i : set3 t i (get3 t i) = t.
Proof. destruct t as [[a b] c], i; reflexivity. Qed.

Lemma get3_map3 {A B} (f : A -> B) (t : tri A) i : get3 (map3 f t) i = f (get3 t i).
Proof. destruct t as [[a b] c], i; reflexivity. Qed.

Lemma map3_id {A} (t : tri A) : map3 (fun x => x) t = t.
Proof. now destruct t as [[a b] c]. Qed.

Lemma map3_ext {A B} (f g : A -> B) (t : tri A) :
  (forall i, f (get3 t i) = g (get3 t i)) -> map3 f t = map3 g t.
Proof.
  destruct t as [[a b] c]. intros H.
  pose proof (H I0) as H0. pose proof (H I1) as H1. pose proof (H I2) as H2.
  simpl in *. congruence.
Qed.

Lemma tri_ext {A} (t u : tri A) : (forall i, get3 t i = get3 u i) -> t = u.
Proof.
  destruct t as [[a b] c], u as [[a' b'] c']. intros H.
  pose proof (H I0) as H0. pose proof (H I1) as H1. pose proof (H I2) as H2.
  simpl in *. congruence.
Qed.

Lemma get2_set2_eq {A} (g : tri (tri A)) l c v : get2 (set2 g l c v) l c = v.
Proof. unfold get2, set2. now rewrite !get3_set3_eq. Qed.

Lemma get2_set2_ne {A} (g : tri (tri A)) l c l' c' v :
  (l, c) <> (l', c') -> get2 (set2 g l c v) l' c' = get2 g l' c'.
Proof.
  unfold get2, set2. intros H.
  destruct (decide (l = l')) as [<-|Hl]; [|now rewrite get3_set3_ne].
  rewrite get3_set3_eq, get3_set3_ne; [reflexivity|congruence].
Qed.

Lemma set2_get2 {A} (g : tri (tri A)) l c : set2 g l c (get2 g l c) = g.
Proof. unfold get2, set2. now rewrite !set3_get3. Qed.

Lemma get2_map3 {A B} (f : A -> B) (g : tri (tri A)) l c :
  get2 (map3 (map3 f) g) l c = f (get2 g l c).
Proof. unfold get2. now rewrite !get3_map3. Qed.

(** ** [PetitPlateau] *)

Module PetitPlateauFaits.
Import PetitPlateau.

Lemma verifier_etat_plateau self j : plateau (verifier_etat self j) = plateau self.
Proof.
  unfold verifier_etat.
  destruct (existsb _ _); [reflexivity|].
  destruct (diagonales _ _); [reflexivity|].
  now destruct (est_nul _).
Qed.

Lemma coup_valide_termine self l c : jeu_termine self = true -> coup_valide self l c = false.
Proof.
  intros H. unfold coup_valide. rewrite H.
  destruct (idx_of_Z l), (idx_of_Z c); try reflexivity. apply andb_false_r.
Qed.

(** A refused placement leaves the sub-board as it was. *)
Lemma jouer_coup_echec self l c j self' :
  jouer_coup self l c j = (false, self') -> self' = self /\ coup_valide self l c = false.
Proof.
  unfold jouer_coup. destruct (coup_valide self l c) eqn:Hv.
  - unfold coup_valide in Hv.
    destruct (idx_of_Z l), (idx_of_Z c); discriminate.
  - intros [= <-]. auto.
Qed.

Lemma jouer_coup_succes self l c j self' :
  jouer_coup self l c j = (true, self') ->
  exists il ic,
    idx_of_Z l = Some il /\ idx_of_Z c = Some ic /\
    get2 (plateau self) il ic = Vide /\ jeu_termine self = false /\
    self' = verifier_etat
              {| plateau := set2 (plateau self) il ic (Pion j);
                 vainqueur := vainqueur self;
                 jeu_termine := jeu_termine self |} j.
Proof.
  unfold jouer_coup, coup_valide.
  destruct (idx_of_Z l) as [il|]; [|discriminate].
  destruct (idx_of_Z c) as [ic|]; [|discriminate].
  destruct (case_eqb _ _) eqn:Hc; [|discriminate].
  destruct (jeu_termine self) eqn:Ht; [discriminate|]. simpl.
  intros [= <-]. exists il, ic. apply case_eqb_eq in Hc. auto.
Qed.

Lemma jouer_coup_vrai_ssi self l c j :
  fst (jouer_coup self l c j) = coup_valide self l c.
Proof.
  unfold jouer_coup. destruct (coup_valide self l c) eqn:Hv; [|reflexivity].
  unfold coup_valide in Hv.
  destruct (idx_of_Z l), (idx_of_Z c); try discriminate. reflexivity.
Qed.


Lemma coherent_reinitialiser : coherent reinitialiser.
Proof. unfold coherent. simpl. split; [congruence|discriminate]. Qed.

Lemma coherent_verifier_etat self j : coherent self -> coherent (verifier_etat self j).
Proof.
  unfold verifier_etat, coherent.
  destruct (existsb _ _); [simpl; intuition congruence|].
  destruct (diagonales _ _); [simpl; intuition congruence|].
  destruct (est_nul _); simpl; intuition congruence.
Qed.

Lemma coherent_jouer_coup self l c j :
  coherent self -> coherent (snd (jouer_coup self l c j)).
Proof.
  intros H. destruct (jouer_coup self l c j) as [[|] self'] eqn:E; simpl.
  - apply jouer_coup_succes in E as (il & ic & _ & _ & _ & _ & ->).
    apply coherent_verifier_etat. unfold coherent in *. simpl. exact H.
  - apply jouer_coup_echec in E as [-> _]. exact H.
Qed.


Lemma atteint_coherent self : atteint self -> coherent self.
Proof.
  induction 1; [apply coherent_reinitialiser|now apply coherent_jouer_coup].
Qed.


Lemma jouer_coup_termine self l c j :
  jeu_termine self = true -> jouer_coup self l c j = (false, self).
Proof.
  intros H. unfold jouer_coup. now rewrite coup_valide_termine.
Qed.

Lemma jouer_suite_termine self ops :
  jeu_termine self = true ->
  jouer_suite self ops = (map (fun _ => false) ops, self).
Proof.
  intros H. induction ops as [|[[l c] j] ops IH]; [reflexivity|].
  simpl. rewrite jouer_coup_termine by assumption. now rewrite IH.
Qed.

End PetitPlateauFaits.

(** ** [MorpionUltime]: one call of [jouer_coup] *)

Module MorpionUltimeFaits.
Import MorpionUltime.
Import PetitPlateauFaits.

Lemma mettre_a_jour_plateaux self :
  plateaux (mettre_a_jour_etat_global self) = plateaux self
  /\ joueur_courant (mettre_a_jour_etat_global self) = joueur_courant self
  /\ plateau_actif (mettre_a_jour_etat_global self) = plateau_actif self.
Proof.
  unfold mettre_a_jour_etat_global.
  destruct (victoire_globale _); [now simpl|].
  destruct (tous_termines _); [now simpl|].
  destruct (_ && _); now simpl.
Qed.

Lemma coup_valide_indices self sp_l sp_c cel_l cel_c :
  coup_valide self (sp_l, sp_c, cel_l, cel_c) = true ->
  exists sl sc cl cc,
    idx_of_Z sp_l = Some sl /\ idx_of_Z sp_c = Some sc /\
    idx_of_Z cel_l = Some cl /\ idx_of_Z cel_c = Some cc /\
    PetitPlateau.jeu_termine (get2 (plateaux self) sl sc) = false /\
    actif_compatible self sl sc = true /\
    PetitPlateau.coup_valide (get2 (plateaux self) sl sc) cel_l cel_c = true.
Proof.
  unfold coup_valide.
  destruct (idx_of_Z sp_l) as [sl|]; [|discriminate].
  destruct (idx_of_Z sp_c) as [sc|]; [|discriminate].
  destruct (PetitPlateau.jeu_termine _) eqn:Ht; [discriminate|].
  destruct (actif_compatible self sl sc) eqn:Ha; [|discriminate]. simpl.
  intros Hv. exists sl, sc.
  pose proof Hv as Hv'. unfold PetitPlateau.coup_valide in Hv'.
  destruct (idx_of_Z cel_l) as [cl|]; [|discriminate].
  destruct (idx_of_Z cel_c) as [cc|]; [|discriminate].
  exists cl, cc. auto 10.
Qed.

Lemma jouer_coup_refuse self mv :
  coup_valide self mv = false \/ jeu_termine self = true ->
  jouer_coup self mv = (false, self).
Proof.
  destruct mv as [[[sp_l sp_c] cel_l] cel_c]. unfold jouer_coup.
  intros [-> | ->]; [reflexivity|]. now rewrite orb_true_r.
Qed.

Lemma jouer_coup_accepte self sp_l sp_c cel_l cel_c :
  coup_valide self (sp_l, sp_c, cel_l, cel_c) = true ->
  jeu_termine self = false ->
  exists sl sc cl cc p1,
    idx_of_Z sp_l = Some sl /\ idx_of_Z sp_c = Some sc /\
    idx_of_Z cel_l = Some cl /\ idx_of_Z cel_c = Some cc /\
    PetitPlateau.jouer_coup (get2 (plateaux self) sl sc) cel_l cel_c
      (joueur_courant self) = (true, p1) /\
    let self2 := mettre_a_jour_etat_global (apres_placement self sl sc p1) in
    jouer_coup self (sp_l, sp_c, cel_l, cel_c) =
      (true,
       {| plateaux := plateaux self2;
          joueur_courant :=
            if jeu_termine self2 then joueur_courant self
            else if joueur_eqb (joueur_courant self) jX then jO else jX;
          plateau_actif :=
            if PetitPlateau.jeu_termine (get2 (plateaux self2) cl cc)
            then None else Some (cl, cc);
          jeu_termine := jeu_termine self2;
          vainqueur := vainqueur self2 |}).
Proof.
  intros Hv Ht.
  destruct (coup_valide_indices _ _ _ _ _ Hv)
    as (sl & sc & cl & cc & Hsl & Hsc & Hcl & Hcc & _ & _ & Hpv).
  destruct (PetitPlateau.jouer_coup (get2 (plateaux self) sl sc) cel_l cel_c
              (joueur_courant self)) as [ok p1] eqn:Ep.
  assert (ok = true) as ->.
  { pose proof (jouer_coup_vrai_ssi (get2 (plateaux self) sl sc) cel_l cel_c
                  (joueur_courant self)) as H.
    rewrite Ep, Hpv in H. exact H. }
  exists sl, sc, cl, cc, p1. repeat (split; [assumption || reflexivity|]).
  unfold jouer_coup. rewrite Hv, Hsl, Hsc, Hcl, Hcc.
  replace (negb true || jeu_termine self) with false by (now rewrite Ht).
  rewrite Ep. cbv beta iota zeta. fold (apres_placement self sl sc p1).
  change (negb true) with false. cbv beta iota.
  destruct (mettre_a_jour_plateaux (apres_placement self sl sc p1)) as (_ & Hj & _).
  destruct (jeu_termine (mettre_a_jour_etat_global (apres_placement self sl sc p1)));
    simpl; rewrite ?Hj; simpl; reflexivity.
Qed.

Lemma jouer_coup_resultat self mv :
  fst (jouer_coup self mv) = coup_valide self mv && negb (jeu_termine self).
Proof.
  destruct (coup_valide self mv) eqn:Hv, (jeu_termine self) eqn:Ht; simpl.
  - rewrite jouer_coup_refuse; auto.
  - destruct mv as [[[sp_l sp_c] cel_l] cel_c].
    destruct (jouer_coup_accepte _ _ _ _ _ Hv Ht)
      as (sl & sc & cl & cc & p1 & _ & _ & _ & _ & _ & E).
    cbv zeta in E. now rewrite E.
  - rewrite jouer_coup_refuse; auto.
  - rewrite jouer_coup_refuse; auto.
Qed.

(** C4 — If [jouer_coup] returns [False] the board it was called on is
    returned as it was: the grids, the outcomes of the sub-boards,
    [plateau_actif], [joueur_courant], [jeu_termine] and [vainqueur] are
    those of the call; and [False] is returned exactly when [coup_valide]
    refuses the move (indices out of range, sub-board finished, cell taken,
    imposed sub-board not respected) or the game is already over. *)
Theorem jouer_coup_echec_sans_mutation (self : t) (mv : coup) :
  fst (jouer_coup self mv) = false ->
  snd (jouer_coup self mv) = self
  /\ (coup_valide self mv = false \/ jeu_termine self = true).
Proof.
  rewrite jouer_coup_resultat. intros H.
  assert (coup_valide self mv = false \/ jeu_termine self = true) as Hr.
  { destruct (coup_valide self mv), (jeu_termine self); simpl in H; auto. }
  split; [|exact Hr]. now rewrite jouer_coup_refuse.
Qed.

Lemma jouer_coup_echec_sans_mutation_temoin :
  fst (jouer_coup reinitialiser (3, 0, 0, 0)) = false
  /\ snd (jouer_coup reinitialiser (3, 0, 0, 0)) = reinitialiser
  /\ (coup_valide reinitialiser (3, 0, 0, 0) = false
      \/ jeu_termine reinitialiser = true).
Proof.
  split; [reflexivity|].
  apply (jouer_coup_echec_sans_mutation reinitialiser (3, 0, 0, 0)). reflexivity.
Defined.

End MorpionUltimeFaits.

(** ** [MorpionUltime]: the list of legal moves *)

Module CoupsValides.
Import MorpionUltime.
Import PetitPlateauFaits MorpionUltimeFaits.

Lemma In_cases_jouables p a b mv :
  In mv (cases_jouables p a b) <->
  exists i j, mv = (a, b, i, j) /\ PetitPlateau.coup_valide p i j = true.
Proof.
  unfold cases_jouables. rewrite in_flat_map. split.
  - intros (i & _ & H). apply in_flat_map in H as (j & _ & H).
    destruct (PetitPlateau.coup_valide p i j) eqn:E; [|contradiction].
    destruct H as [<-|[]]. eauto.
  - intros (i & j & -> & E).
    assert (is_Some (idx_of_Z i) /\ is_Some (idx_of_Z j)) as [Hi Hj].
    { unfold PetitPlateau.coup_valide in E.
      destruct (idx_of_Z i), (idx_of_Z j); try discriminate. split; eauto. }
    exists i. split; [now apply In_range3Z|].
    apply in_flat_map. exists j. split; [now apply In_range3Z|].
    rewrite E. now left.
Qed.

(** The list holds exactly the moves [coup_valide] accepts. *)
Lemma In_obtenir_coups_valides self mv :
  In mv (obtenir_coups_valides self) <-> coup_valide self mv = true.
Proof.
  destruct mv as [[[sp_l sp_c] cel_l] cel_c].
  unfold obtenir_coups_valides, coup_valide, actif_compatible.
  destruct (plateau_actif self) as [[al ac]|].
  - rewrite In_cases_jouables. split.
    + intros (i & j & [= -> -> -> ->] & E). rewrite !idx_of_Z_of_idx.
      assert (PetitPlateau.jeu_termine (get2 (plateaux self) al ac) = false) as ->.
      { destruct (PetitPlateau.jeu_termine _) eqn:Ht; [|reflexivity].
        now rewrite coup_valide_termine in E. }
      destruct al, ac; exact E.
    + destruct (idx_of_Z sp_l) as [l|] eqn:El; [|discriminate].
      destruct (idx_of_Z sp_c) as [c|] eqn:Ec; [|discriminate].
      destruct (PetitPlateau.jeu_termine _); [discriminate|].
      destruct (idx_eqb l al && idx_eqb c ac) eqn:Eq; [|discriminate]. simpl.
      apply andb_true_iff in Eq as [->%idx_eqb_eq ->%idx_eqb_eq].
      apply idx_of_Z_Some in El as ->. apply idx_of_Z_Some in Ec as ->. eauto.
  - rewrite in_flat_map. split.
    + intros (l & _ & H). apply in_flat_map in H as (c & _ & H).
      destruct (PetitPlateau.jeu_termine (get2 (plateaux self) l c)) eqn:Ht;
        [contradiction|].
      apply In_cases_jouables in H as (i & j & [= -> -> -> ->] & E).
      now rewrite !idx_of_Z_of_idx, Ht.
    + destruct (idx_of_Z sp_l) as [l|] eqn:El; [|discriminate].
      destruct (idx_of_Z sp_c) as [c|] eqn:Ec; [|discriminate].
      destruct (PetitPlateau.jeu_termine (get2 (plateaux self) l c)) eqn:Ht;
        [discriminate|]. intros E. simpl in E.
      exists l. split; [apply In_range3|]. apply in_flat_map.
      exists c. split; [apply In_range3|]. rewrite Ht.
      apply In_cases_jouables.
      apply idx_of_Z_Some in El as ->. apply idx_of_Z_Some in Ec as ->. eauto.
Qed.

Lemma coups_valides_fixer_issue self v :
  obtenir_coups_valides (fixer_issue self v) = obtenir_coups_valides self.
Proof. reflexivity. Qed.

(** C2, as the code has it — [obtenir_coups_valides] returns the empty list
    if and only if [coup_valide] accepts no move, that is no sub-board
    allowed by [plateau_actif] is unfinished with an empty cell.  The global
    outcome is not consulted: the list of a board whose outcome has been
    fixed is the list of the same board without it, while [jouer_coup]
    refuses every move on it. *)
Theorem coups_valides_vide_ssi (self : t) :
  (obtenir_coups_valides self = [] <-> forall mv, coup_valide self mv = false)
  /\ (forall v, obtenir_coups_valides (fixer_issue self v) = obtenir_coups_valides self)
  /\ (forall v mv, jouer_coup (fixer_issue self v) mv = (false, fixer_issue self v)).
Proof.
  split; [|split].
  - split.
    + intros H mv. destruct (coup_valide self mv) eqn:E; [|reflexivity].
      apply In_obtenir_coups_valides in E. rewrite H in E. destruct E.
    + intros H. destruct (obtenir_coups_valides self) as [|mv l] eqn:E; [reflexivity|].
      assert (In mv (obtenir_coups_valides self)) as Hin by (rewrite E; now left).
      apply In_obtenir_coups_valides in Hin. now rewrite H in Hin.
  - intros v. apply coups_valides_fixer_issue.
  - intros v mv. apply jouer_coup_refuse. now right.
Qed.

(** C2, as stated, fails — after the 17 moves of [partie_gagnee] the game is
    won by X, and the list of legal moves is not empty. *)
Lemma coups_valides_apres_victoire :
  jouer_partie reinitialiser partie_gagnee = Some (position_apres partie_gagnee)
  /\ jeu_termine (position_apres partie_gagnee) = true
  /\ vainqueur (position_apres partie_gagnee) = Some jX
  /\ obtenir_coups_valides (position_apres partie_gagnee) <> [].
Proof.
  split; [vm_compute; reflexivity|].
  split; [vm_compute; reflexivity|].
  split; [vm_compute; reflexivity|].
  vm_compute. discriminate.
Qed.

End CoupsValides.

(** ** The imposed sub-board *)

Module Contrainte.
Import MorpionUltime.
Import PetitPlateauFaits MorpionUltimeFaits CoupsValides.

Lemma jouer_coup_vrai self mv self' :
  jouer_coup self mv = (true, self') ->
  coup_valide self mv = true /\ jeu_termine self = false.
Proof.
  intros E. pose proof (jouer_coup_resultat self mv) as H.
  rewrite E in H. simpl in H. symmetry in H.
  apply andb_true_iff in H as [Hv Ht]. split; [exact Hv|].
  now destruct (jeu_termine self).
Qed.

Lemma actif_apres_coup self sp_l sp_c cel_l cel_c self' :
  jouer_coup self (sp_l, sp_c, cel_l, cel_c) = (true, self') ->
  exists r c,
    idx_of_Z cel_l = Some r /\ idx_of_Z cel_c = Some c /\
    plateau_actif self' =
      (if PetitPlateau.jeu_termine (get2 (plateaux self') r c)
       then None else Some (r, c)).
Proof.
  intros E. destruct (jouer_coup_vrai _ _ _ E) as [Hv Ht].
  destruct (jouer_coup_accepte _ _ _ _ _ Hv Ht)
    as (sl & sc & r & c & p1 & _ & _ & Hr & Hc & _ & E').
  cbv zeta in E'. rewrite E in E'. injection E' as ->.
  exists r, c. auto.
Qed.

Lemma coups_valides_par_contrainte self mv :
  In mv (obtenir_coups_valides self) <->
  match plateau_actif self with
  | Some (r, c) =>
      exists i j,
        mv = (Z_of_idx r, Z_of_idx c, i, j)
        /\ PetitPlateau.coup_valide (get2 (plateaux self) r c) i j = true
  | None =>
      exists a b i j,
        mv = (Z_of_idx a, Z_of_idx b, i, j)
        /\ PetitPlateau.jeu_termine (get2 (plateaux self) a b) = false
        /\ PetitPlateau.coup_valide (get2 (plateaux self) a b) i j = true
  end.
Proof.
  unfold obtenir_coups_valides. destruct (plateau_actif self) as [[r c]|].
  - apply In_cases_jouables.
  - rewrite in_flat_map. split.
    + intros (a & _ & H). apply in_flat_map in H as (b & _ & H).
      destruct (PetitPlateau.jeu_termine (get2 (plateaux self) a b)) eqn:Ht;
        [contradiction|].
      apply In_cases_jouables in H as (i & j & -> & E). exists a, b, i, j. auto.
    + intros (a & b & i & j & -> & Ht & E).
      exists a. split; [apply In_range3|]. apply in_flat_map.
      exists b. split; [apply In_range3|]. rewrite Ht.
      apply In_cases_jouables. eauto.
Qed.

(** C6 — Along a game from any board [b0]: after a successful [jouer_coup]
    whose cell coordinates are [(r, c)], [plateau_actif] is [(r, c)] if
    sub-board [(r, c)] is not finished and [None] if it is; hence
    [plateau_actif] is [None] only on the starting board or when the
    sub-board matching the cell of the last move is finished; and
    [obtenir_coups_valides] lists exactly the playable cells of sub-board
    [(r, c)] when [plateau_actif] is [(r, c)], and exactly the playable cells
    of all unfinished sub-boards when it is [None]. *)
Theorem contrainte_propagee (b0 : t) (dernier : option coup) (self : t) :
  suite b0 dernier self ->
  match dernier with
  | None => self = b0
  | Some (_, _, cel_l, cel_c) =>
      exists r c,
        idx_of_Z cel_l = Some r /\ idx_of_Z cel_c = Some c /\
        plateau_actif self =
          (if PetitPlateau.jeu_termine (get2 (plateaux self) r c)
           then None else Some (r, c))
        /\ (plateau_actif self = None ->
            PetitPlateau.jeu_termine (get2 (plateaux self) r c) = true)
  end
  /\ (forall mv,
        In mv (obtenir_coups_valides self) <->
        match plateau_actif self with
        | Some (r, c) =>
            exists i j,
              mv = (Z_of_idx r, Z_of_idx c, i, j)
              /\ PetitPlateau.coup_valide (get2 (plateaux self) r c) i j = true
        | None =>
            exists a b i j,
              mv = (Z_of_idx a, Z_of_idx b, i, j)
              /\ PetitPlateau.jeu_termine (get2 (plateaux self) a b) = false
              /\ PetitPlateau.coup_valide (get2 (plateaux self) a b) i j = true
        end).
Proof.
  intros H. split; [|apply coups_valides_par_contrainte].
  destruct H as [|dernier self [[[sp_l sp_c] cel_l] cel_c] self' _ E];
    [reflexivity|].
  destruct (actif_apres_coup _ _ _ _ _ _ E) as (r & c & Hr & Hc & Ha).
  exists r, c. repeat (split; [assumption|]).
  rewrite Ha. now destruct (PetitPlateau.jeu_termine _).
Qed.

Lemma contrainte_propagee_temoin :
  suite reinitialiser (Some (0, 0, 1, 2))
    (snd (jouer_coup reinitialiser (0, 0, 1, 2)))
  /\ plateau_actif (snd (jouer_coup reinitialiser (0, 0, 1, 2))) = Some (I1, I2)
  /\ forall mv,
       In mv (obtenir_coups_valides (snd (jouer_coup reinitialiser (0, 0, 1, 2))))
       <-> exists i j,
             mv = (1, 2, i, j)
             /\ PetitPlateau.coup_valide
                  (get2 (plateaux (snd (jouer_coup reinitialiser (0, 0, 1, 2)))) I1 I2)
                  i j = true.
Proof.
  assert (suite reinitialiser (Some (0, 0, 1, 2))
            (snd (jouer_coup reinitialiser (0, 0, 1, 2)))) as Hs.
  { apply (suite_coup reinitialiser None reinitialiser);
      [apply suite_debut|reflexivity]. }
  split; [exact Hs|]. split; [reflexivity|].
  exact (proj2 (contrainte_propagee reinitialiser _ _ Hs)).
Defined.

End Contrainte.

(** ** The anticipated draw *)

Module NulleAnticipee.
Import MorpionUltime.

Lemma en_grille_virtuelle self rc :
  en (grille_virtuelle self) rc =
  match PetitPlateau.vainqueur (get2 (plateaux self) (fst rc) (snd rc)) with
  | Some v => M_de v
  | None => M_espace
  end.
Proof. unfold en, grille_virtuelle. now rewrite get2_map3. Qed.

Lemma combo_ouverte_ssi self j combo :
  combo_ouverte (grille_virtuelle self) j combo = true <->
  forall rc, In rc combo ->
    PetitPlateau.vainqueur (get2 (plateaux self) (fst rc) (snd rc)) = None
    \/ PetitPlateau.vainqueur (get2 (plateaux self) (fst rc) (snd rc)) = Some (Gagne j).
Proof.
  unfold combo_ouverte. rewrite forallb_forall.
  split; intros H rc Hin; specialize (H rc Hin);
    rewrite en_grille_virtuelle in *; simpl in *.
  - destruct (PetitPlateau.vainqueur _) as [[w|]|]; simpl in H; auto.
    + rewrite orb_false_r in H. apply joueur_eqb_eq in H as ->. auto.
    + discriminate.
  - destruct H as [-> | ->]; simpl; [reflexivity|].
    now rewrite joueur_eqb_refl.
Qed.

Lemma peut_encore_gagner_ssi g j :
  peut_encore_gagner g j = true <->
  exists combo, In combo combinaisons /\ combo_ouverte g j combo = true.
Proof. unfold peut_encore_gagner. apply existsb_exists. Qed.

(** C1, as the code has it — when [mettre_a_jour_etat_global] runs on a
    board that is not yet over, finds no global line and finds a sub-board
    still in progress, a triple is still open for a symbol S if and only if
    each of its three sub-boards is in progress or won by S (a sub-board won
    by the other symbol closes it, and so does a drawn one), S can still win
    if and only if one of the 8 triples is open for S, and the game is set
    to over with no winner exactly when neither X nor O can still win;
    otherwise the board is left as it is. *)
Theorem nulle_anticipee_selon_le_code (self : t) :
  jeu_termine self = false ->
  victoire_globale (grille_virtuelle self) = None ->
  tous_termines self = false ->
  (forall j combo,
     combo_ouverte (grille_virtuelle self) j combo = true <->
     forall rc, In rc combo ->
       PetitPlateau.vainqueur (get2 (plateaux self) (fst rc) (snd rc)) = None
       \/ PetitPlateau.vainqueur (get2 (plateaux self) (fst rc) (snd rc))
          = Some (Gagne j))
  /\ (forall j,
        peut_encore_gagner (grille_virtuelle self) j = true <->
        exists combo,
          In combo combinaisons
          /\ combo_ouverte (grille_virtuelle self) j combo = true)
  /\ (jeu_termine (mettre_a_jour_etat_global self) = true <->
      peut_encore_gagner (grille_virtuelle self) jX = false
      /\ peut_encore_gagner (grille_virtuelle self) jO = false)
  /\ mettre_a_jour_etat_global self =
     (if negb (peut_encore_gagner (grille_virtuelle self) jX)
         && negb (peut_encore_gagner (grille_virtuelle self) jO)
      then fixer_issue self None else self).
Proof.
  intros Ht Hv Hs.
  split; [intros j combo; apply combo_ouverte_ssi|].
  split; [intros j; apply peut_encore_gagner_ssi|].
  assert (mettre_a_jour_etat_global self =
          (if negb (peut_encore_gagner (grille_virtuelle self) jX)
              && negb (peut_encore_gagner (grille_virtuelle self) jO)
           then fixer_issue self None else self)) as E.
  { unfold mettre_a_jour_etat_global. cbv zeta. now rewrite Hv, Hs. }
  split; [|exact E]. rewrite E.
  destruct (peut_encore_gagner _ jX), (peut_encore_gagner _ jO); simpl;
    rewrite ?Ht; intuition congruence.
Qed.

Lemma nulle_anticipee_selon_le_code_temoin :
  jeu_termine avant_nulle_anticipee = false
  /\ victoire_globale (grille_virtuelle avant_nulle_anticipee) = None
  /\ tous_termines avant_nulle_anticipee = false
  /\ plateaux avant_nulle_anticipee
     = plateaux (position_apres partie_nulle_anticipee)
  /\ PetitPlateau.vainqueur (get2 (plateaux avant_nulle_anticipee) I1 I1)
     = Some DRAW
  /\ combo_ouverte (grille_virtuelle avant_nulle_anticipee) jX
       [(I1, I0); (I1, I1); (I1, I2)] = false
  /\ peut_encore_gagner (grille_virtuelle avant_nulle_anticipee) jX = false
  /\ peut_encore_gagner (grille_virtuelle avant_nulle_anticipee) jO = false
  /\ jeu_termine (mettre_a_jour_etat_global avant_nulle_anticipee) = true
  /\ mettre_a_jour_etat_global avant_nulle_anticipee
     = fixer_issue avant_nulle_anticipee None.
Proof.
  assert (jeu_termine avant_nulle_anticipee = false) as H1
    by (vm_compute; reflexivity).
  assert (victoire_globale (grille_virtuelle avant_nulle_anticipee) = None) as H2
    by (vm_compute; reflexivity).
  assert (tous_termines avant_nulle_anticipee = false) as H3
    by (vm_compute; reflexivity).
  assert (PetitPlateau.vainqueur (get2 (plateaux avant_nulle_anticipee) I1 I1)
          = Some DRAW) as Hd by (vm_compute; reflexivity).
  assert (peut_encore_gagner (grille_virtuelle avant_nulle_anticipee) jX = false)
    as HX by (vm_compute; reflexivity).
  assert (peut_encore_gagner (grille_virtuelle avant_nulle_anticipee) jO = false)
    as HO by (vm_compute; reflexivity).
  destruct (nulle_anticipee_selon_le_code avant_nulle_anticipee H1 H2 H3)
    as (Houvert & _ & Hfin & Hmaj).
  repeat match goal with |- _ /\ _ => split end.
  - exact H1.
  - exact H2.
  - exact H3.
  - vm_compute; reflexivity.
  - exact Hd.
  - destruct (combo_ouverte (grille_virtuelle avant_nulle_anticipee) jX
                [(I1, I0); (I1, I1); (I1, I2)]) eqn:E; [|reflexivity].
    exfalso.
    destruct (proj1 (Houvert jX [(I1, I0); (I1, I1); (I1, I2)]) E (I1, I1))
      as [Hn|Hn].
    + right. left. reflexivity.
    + cbn [fst snd] in Hn. rewrite Hd in Hn. discriminate.
    + cbn [fst snd] in Hn. rewrite Hd in Hn. discriminate.
  - exact HX.
  - exact HO.
  - apply (proj2 Hfin). split; [exact HX|exact HO].
  - rewrite Hmaj, HX, HO. reflexivity.
Defined.

(** C1, as stated, fails — in the game [partie_nulle_anticipee] the last
    update of the global state finds no global line and two sub-boards in
    progress.  No sub-board of the middle row is won by O, yet the code does
    not count that row as open for X, because sub-board (1,1) is drawn; and
    the game is declared drawn although, with drawn sub-boards counted as
    open, X would still have an open triple. *)
Lemma nulle_anticipee_contre_exemple :
  jouer_partie reinitialiser partie_nulle_anticipee
    = Some (position_apres partie_nulle_anticipee)
  /\ PetitPlateau.vainqueur
       (get2 (plateaux (position_apres partie_nulle_anticipee)) I1 I1) = Some DRAW
  /\ combo_ouverte_sauf_adverse
       (grille_virtuelle (position_apres partie_nulle_anticipee)) jX
       [(I1, I0); (I1, I1); (I1, I2)] = true
  /\ combo_ouverte
       (grille_virtuelle (position_apres partie_nulle_anticipee)) jX
       [(I1, I0); (I1, I1); (I1, I2)] = false
  /\ victoire_globale (grille_virtuelle (position_apres partie_nulle_anticipee)) = None
  /\ tous_termines (position_apres partie_nulle_anticipee) = false
  /\ existsb
       (combo_ouverte_sauf_adverse
          (grille_virtuelle (position_apres partie_nulle_anticipee)) jX)
       combinaisons = true
  /\ jeu_termine (position_apres partie_nulle_anticipee) = true
  /\ vainqueur (position_apres partie_nulle_anticipee) = None.
Proof.
  repeat match goal with |- _ /\ _ => split end; vm_compute; reflexivity.
Qed.

End NulleAnticipee.

(** ** Finished sub-boards *)

Module SousPlateauTermine.
Import MorpionUltime.
Import PetitPlateauFaits MorpionUltimeFaits Contrainte.

(** [jouer_coup] touches no sub-board other than the one it plays in, and
    that one is unfinished. *)
Lemma jouer_coup_autres_sous_plateaux self mv a b :
  PetitPlateau.jeu_termine (get2 (plateaux self) a b) = true ->
  get2 (plateaux (snd (jouer_coup self mv))) a b = get2 (plateaux self) a b.
Proof.
  intros Hab. destruct (jouer_coup self mv) as [[|] self'] eqn:E; simpl.
  - destruct mv as [[[sp_l sp_c] cel_l] cel_c].
    destruct (jouer_coup_vrai _ _ _ E) as [Hv Ht].
    destruct (coup_valide_indices _ _ _ _ _ Hv)
      as (sl & sc & cl & cc & Hsl & Hsc & _ & _ & Hnt & _ & _).
    destruct (jouer_coup_accepte _ _ _ _ _ Hv Ht)
      as (sl' & sc' & cl' & cc' & p1 & Hsl' & Hsc' & _ & _ & _ & E').
    cbv zeta in E'. rewrite E in E'. injection E' as E''. rewrite E''. simpl.
    destruct (mettre_a_jour_plateaux (apres_placement self sl' sc' p1)) as (-> & _).
    simpl. assert (sl' = sl) as -> by congruence.
    assert (sc' = sc) as -> by congruence.
    apply get2_set2_ne. intros [= -> ->]. congruence.
  - pose proof (jouer_coup_resultat self mv) as H. rewrite E in H. simpl in H.
    assert (coup_valide self mv = false \/ jeu_termine self = true) as Hr.
    { destruct (coup_valide self mv), (jeu_termine self); simpl in H; auto. }
    rewrite (jouer_coup_refuse self mv Hr) in E. now injection E as <-.
Qed.

Lemma appliquer_autres_sous_plateaux self mvs a b :
  PetitPlateau.jeu_termine (get2 (plateaux self) a b) = true ->
  get2 (plateaux (appliquer self mvs)) a b = get2 (plateaux self) a b.
Proof.
  revert self. induction mvs as [|mv mvs IH]; intros self H; [reflexivity|].
  simpl. pose proof (jouer_coup_autres_sous_plateaux self mv a b H) as E.
  rewrite IH; [exact E|]. now rewrite E.
Qed.

(** C7 — For a sub-board built by the program (a fresh one, then calls of
    [jouer_coup]) whose [vainqueur] is ['X'], ['O'] or ["DRAW"]: every call
    of [PetitPlateau.jouer_coup] returns [False] and leaves it as it is, so
    does every sequence of such calls, and wherever it sits in a global
    board no sequence of [MorpionUltime.jouer_coup] calls changes it. *)
Theorem sous_plateau_termine_fige (p : PetitPlateau.t) :
  PetitPlateau.atteint p ->
  PetitPlateau.vainqueur p <> None ->
  (forall l c j, PetitPlateau.jouer_coup p l c j = (false, p))
  /\ (forall ops,
        PetitPlateau.jouer_suite p ops = (map (fun _ => false) ops, p))
  /\ (forall self a b mvs,
        get2 (plateaux self) a b = p ->
        get2 (plateaux (appliquer self mvs)) a b = p).
Proof.
  intros Ha Hv. apply atteint_coherent in Ha. apply Ha in Hv.
  split; [|split].
  - intros l c j. now apply jouer_coup_termine.
  - intros ops. now apply jouer_suite_termine.
  - intros self a b mvs E. rewrite appliquer_autres_sous_plateaux; [exact E|].
    now rewrite E.
Qed.

Lemma sous_plateau_termine_fige_temoin :
  let p :=
    snd (PetitPlateau.jouer_coup
           (snd (PetitPlateau.jouer_coup
                   (snd (PetitPlateau.jouer_coup PetitPlateau.reinitialiser 0 0 jX))
                   0 1 jX)) 0 2 jX) in
  PetitPlateau.vainqueur p = Some (Gagne jX)
  /\ (forall l c j, PetitPlateau.jouer_coup p l c j = (false, p)).
Proof.
  intros p. split; [reflexivity|].
  refine (proj1 (sous_plateau_termine_fige p _ _)).
  - repeat apply PetitPlateau.atteint_coup. apply PetitPlateau.atteint_neuf.
  - discriminate.
Defined.

(** Every sub-board of a board of a game is one the program can build. *)
Lemma suite_sous_plateaux dernier self a b :
  suite reinitialiser dernier self ->
  PetitPlateau.atteint (get2 (plateaux self) a b).
Proof.
  intros H. revert a b. induction H as [|dernier self mv self' _ IH E]; intros a b.
  - destruct a, b; apply PetitPlateau.atteint_neuf.
  - destruct mv as [[[sp_l sp_c] cel_l] cel_c].
    destruct (jouer_coup_vrai _ _ _ E) as [Hv Ht].
    destruct (jouer_coup_accepte _ _ _ _ _ Hv Ht)
      as (sl & sc & cl & cc & p1 & _ & _ & _ & _ & Ep & E').
    cbv zeta in E'. rewrite E in E'. injection E' as E''. rewrite E''. simpl.
    destruct (mettre_a_jour_plateaux (apres_placement self sl sc p1)) as (-> & _).
    simpl. destruct (decide ((sl, sc) = (a, b))) as [[= <- <-]|Hne].
    + rewrite get2_set2_eq.
      replace p1 with (snd (PetitPlateau.jouer_coup (get2 (plateaux self) sl sc)
                              cel_l cel_c (joueur_courant self))) by now rewrite Ep.
      apply PetitPlateau.atteint_coup, IH.
    + rewrite get2_set2_ne by exact Hne. apply IH.
Qed.

End SousPlateauTermine.

(** ** The heuristic on a drawn sub-board *)

Module Evaluation.
Import MorpionUltime.

(** A sub-board that is neither won nor lost is scored on its cells,
    whether it is still in progress or drawn. *)
Lemma part_sous_plateau_nul sp j :
  PetitPlateau.vainqueur sp = Some DRAW ->
  part_sous_plateau sp j = evaluer_sous_plateau sp j.
Proof. unfold part_sous_plateau. now intros ->. Qed.

(** C5, as stated, fails — in the game [partie_sous_plateau_nul] sub-board
    (0,0) ends drawn with an O in its centre; its share of the first loop
    of [evaluer_ultime] is then -20 from the perspective of X and +20 from
    the perspective of O, not 0. *)
Lemma sous_plateau_nul_compte_son_centre :
  jouer_partie reinitialiser partie_sous_plateau_nul
    = Some (position_apres partie_sous_plateau_nul)
  /\ get2 (plateaux (position_apres partie_sous_plateau_nul)) I0 I0
     = {| PetitPlateau.plateau :=
            ((Pion jX, Pion jO, Pion jX),
             (Pion jO, Pion jO, Pion jX),
             (Pion jO, Pion jX, Pion jO));
          PetitPlateau.vainqueur := Some DRAW;
          PetitPlateau.jeu_termine := true |}
  /\ part_sous_plateau
       (get2 (plateaux (position_apres partie_sous_plateau_nul)) I0 I0) jX = -20
  /\ part_sous_plateau
       (get2 (plateaux (position_apres partie_sous_plateau_nul)) I0 I0) jO = 20.
Proof.
  repeat match goal with |- _ /\ _ => split end; vm_compute; reflexivity.
Qed.

End Evaluation.

(** ** The strategies *)

Module Strategies.
Import MorpionUltime.
Import MorpionUltimeFaits CoupsValides.

Lemma fold_left_invariant {S A} (f : S -> A -> S) (I : S -> Prop) (l : list A) (s : S) :
  I s -> (forall s a, In a l -> I s -> I (f s a)) -> I (fold_left f l s).
Proof.
  revert s. induction l as [|a l IH]; intros s Hs Hf; [exact Hs|].
  simpl. apply IH.
  - apply Hf; [now left|exact Hs].
  - intros s' a' Hin. apply Hf. now right.
Qed.

Lemma random_choice_In {A} (r : alea) (seq : list A) (x : A) :
  random_choice r seq = Renvoie x -> In x seq.
Proof.
  unfold random_choice.
  destruct (nth_error seq _) as [y|] eqn:E; [|discriminate].
  intros [= <-]. eapply nth_error_In, E.
Qed.

Lemma random_choice_vide {A} (r : alea) : random_choice r (@nil A) = IndexError.
Proof. unfold random_choice. simpl. now destruct (indice_choisi r). Qed.

Lemma random_choice_non_vide {A} (r : alea) (seq : list A) :
  seq <> [] -> exists x, random_choice r seq = Renvoie x.
Proof.
  intros H. unfold random_choice.
  destruct (nth_error seq _) as [y|] eqn:E; [eauto|].
  apply nth_error_None in E.
  assert (length seq <> 0)%nat as Hl by (destruct seq; simpl; congruence).
  pose proof (Nat.mod_upper_bound (indice_choisi r) (length seq) Hl). lia.
Qed.

(** [IAMoyenne.get_move] raises when there is no legal move, on both of its
    paths. *)
Lemma IAMoyenne_sans_coup ia r partie :
  obtenir_coups_valides partie = [] ->
  IAMoyenne.get_move ia r partie = IndexError.
Proof.
  intros H. unfold IAMoyenne.get_move. rewrite H. simpl.
  destruct (erreur_strategique r); apply random_choice_vide.
Qed.

Lemma IAFacile_sans_coup ia partie :
  obtenir_coups_valides partie = [] -> IAFacile.get_move ia partie = None.
Proof. intros H. unfold IAFacile.get_move, IAFacile.boucle. now rewrite H. Qed.

Lemma IADifficile_sans_coup ia partie :
  obtenir_coups_valides partie = [] -> IADifficile.get_move ia partie = None.
Proof. intros H. unfold IADifficile.get_move. now rewrite H. Qed.

(** C3 — The game [partie_pleine] ends with the nine sub-boards finished
    and no legal move.  On that board [IAFacile.get_move] and
    [IADifficile.get_move] return [None], and [IAMoyenne.get_move] raises
    [IndexError] whatever its symbol and whatever the random source
    draws. *)
Theorem IAMoyenne_leve_sans_coup_legal :
  jouer_partie reinitialiser partie_pleine = Some (position_apres partie_pleine)
  /\ obtenir_coups_valides (position_apres partie_pleine) = []
  /\ (forall ia, IAFacile.get_move ia (position_apres partie_pleine) = None)
  /\ (forall ia, IADifficile.get_move ia (position_apres partie_pleine) = None)
  /\ (forall ia r,
        IAMoyenne.get_move ia r (position_apres partie_pleine) = IndexError).
Proof.
  assert (obtenir_coups_valides (position_apres partie_pleine) = []) as H
    by (vm_compute; reflexivity).
  split; [vm_compute; reflexivity|]. split; [exact H|].
  split; [intros ia; exact (IAFacile_sans_coup ia _ H)|].
  split; [intros ia; exact (IADifficile_sans_coup ia _ H)|].
  intros ia r. exact (IAMoyenne_sans_coup ia r _ H).
Qed.

End Strategies.

Module Choix.
Import MorpionUltime.
Import MorpionUltimeFaits CoupsValides Strategies.

Section PremierMeilleur.
Variable ia : joueur.
Variable partie : t.
Let f := IAFacile.note ia partie.

Lemma garder_prefixe (l : list coup) :
  (l = [] /\ fold_left (IAFacile.pas ia partie) l (MoinsInf, None) = (MoinsInf, None))
  \/ exists avant mv apres,
       l = avant ++ mv :: apres
       /\ fold_left (IAFacile.pas ia partie) l (MoinsInf, None) = (Fini (f mv), Some mv)
       /\ (forall m, In m avant -> f m < f mv)
       /\ (forall m, In m apres -> f m <= f mv).
Proof.
  induction l as [|x l IH] using rev_ind; [left; auto|]. right.
  rewrite fold_left_app.
  destruct IH as [[-> ->]|(avant & mv & apres & -> & -> & Hav & Hap)].
  - exists [], x, []. split; [reflexivity|]. split; [reflexivity|].
    split; intros m [].
  - cbn [fold_left]. unfold IAFacile.pas at 1. cbv zeta. fold f.
    unfold score_gtb, score_ltb.
    destruct (Z.ltb_spec (f mv) (f x)) as [Hlt|Hge].
    + exists (avant ++ mv :: apres), x, [].
      split; [reflexivity|]. split; [reflexivity|]. split; [|intros m []].
      intros m Hin. apply in_app_or in Hin as [Hin|[<-|Hin]].
      * specialize (Hav m Hin). lia.
      * exact Hlt.
      * specialize (Hap m Hin). lia.
    + exists avant, mv, (apres ++ [x]).
      split; [now rewrite <- app_assoc|]. split; [reflexivity|].
      split; [exact Hav|].
      intros m Hin. apply in_app_or in Hin as [Hin|[<-|[]]]; [now apply Hap|exact Hge].
Qed.

End PremierMeilleur.

(** State of the loop of [IAFacile.get_move] after the moves of [l]. *)
Lemma IAFacile_boucle_prefixe ia partie (l : list coup) :
  (l = [] /\ fold_left (IAFacile.pas ia partie) l (MoinsInf, None) = (MoinsInf, None))
  \/ exists avant mv apres,
       l = avant ++ mv :: apres
       /\ fold_left (IAFacile.pas ia partie) l (MoinsInf, None)
          = (Fini (IAFacile.note ia partie mv), Some mv)
       /\ (forall m, In m avant -> IAFacile.note ia partie m < IAFacile.note ia partie mv)
       /\ (forall m, In m apres -> IAFacile.note ia partie m <= IAFacile.note ia partie mv).
Proof. exact (garder_prefixe ia partie l). Qed.




Lemma IAFacile_dans_la_liste ia partie mv :
  IAFacile.get_move ia partie = Some mv -> In mv (obtenir_coups_valides partie).
Proof.
  unfold IAFacile.get_move, IAFacile.boucle.
  set (l := obtenir_coups_valides partie).
  assert (forall st, (forall m, snd st = Some m -> In m l) ->
            forall m, snd (fold_left (IAFacile.pas ia partie) l st) = Some m -> In m l) as H.
  { intros st Hst.
    apply (fold_left_invariant (IAFacile.pas ia partie)
             (fun st => forall m, snd st = Some m -> In m l)); [exact Hst|].
    intros [s c] a Ha Hs m. unfold IAFacile.pas.
    destruct (score_gtb _ _); simpl; [now intros [= <-]|apply Hs]. }
  apply H. simpl. discriminate.
Qed.

Lemma IAMoyenne_dans_la_liste ia r partie mv :
  IAMoyenne.get_move ia r partie = Renvoie mv -> In mv (obtenir_coups_valides partie).
Proof.
  unfold IAMoyenne.get_move. set (l := obtenir_coups_valides partie).
  destruct (erreur_strategique r); [apply random_choice_In|].
  destruct (fold_left _ _ _) as [s meilleurs] eqn:E. intros Hc.
  apply random_choice_In in Hc.
  assert (forall m, In m (snd (fold_left (IAMoyenne.pas ia partie) l (MoinsInf, []))) ->
            In m l) as H.
  { apply (fold_left_invariant (IAMoyenne.pas ia partie)
             (fun st => forall m, In m (snd st) -> In m l)); [intros m []|].
    intros [s' ms] a Ha Hs m. unfold IAMoyenne.pas.
    destruct (score_gtb _ _); simpl; [now intros [<-|[]]|].
    destruct (score_eqb _ _); simpl; [|apply Hs].
    intros Hin. apply in_app_or in Hin as [Hin|[<-|[]]]; [now apply Hs|exact Ha]. }
  apply H. now rewrite E.
Qed.

Lemma IADifficile_dans_la_liste ia partie mv :
  IADifficile.get_move ia partie = Some mv -> In mv (obtenir_coups_valides partie).
Proof.
  unfold IADifficile.get_move. set (l := obtenir_coups_valides partie).
  assert (forall m, snd (fst (fold_left (IADifficile.pas ia partie) l
                                (MoinsInf, None, MoinsInf))) = Some m -> In m l) as H.
  { apply (fold_left_invariant (IADifficile.pas ia partie)
             (fun st => forall m, snd (fst st) = Some m -> In m l)); [discriminate|].
    intros [[s c] al] a Ha Hs m. unfold IADifficile.pas.
    destruct (score_gtb _ _); simpl; [now intros [= <-]|apply Hs]. }
  apply H.
Qed.

(** C10, as the code has it — A move returned by [get_move] of [IAFacile],
    [IAMoyenne] or [IADifficile] is an element of [obtenir_coups_valides] of
    the board passed in; [coup_valide] accepts it, and a subsequent
    [jouer_coup] on that board accepts it exactly when the game on that
    board is not already over. *)
Theorem coup_choisi_dans_les_coups_valides
    (ia : joueur) (r : alea) (partie : t) (mv : coup) :
  IAFacile.get_move ia partie = Some mv
  \/ IAMoyenne.get_move ia r partie = Renvoie mv
  \/ IADifficile.get_move ia partie = Some mv ->
  In mv (obtenir_coups_valides partie)
  /\ coup_valide partie mv = true
  /\ fst (jouer_coup partie mv) = negb (jeu_termine partie).
Proof.
  intros H.
  assert (In mv (obtenir_coups_valides partie)) as Hin.
  { destruct H as [H|[H|H]];
      eauto using IAFacile_dans_la_liste, IAMoyenne_dans_la_liste,
        IADifficile_dans_la_liste. }
  split; [exact Hin|]. apply In_obtenir_coups_valides in Hin.
  split; [exact Hin|]. now rewrite jouer_coup_resultat, Hin.
Qed.

Lemma coup_choisi_dans_les_coups_valides_temoin :
  IAFacile.get_move jX reinitialiser = Some (0, 0, 1, 1)
  /\ In (0, 0, 1, 1) (obtenir_coups_valides reinitialiser)
  /\ coup_valide reinitialiser (0, 0, 1, 1) = true
  /\ fst (jouer_coup reinitialiser (0, 0, 1, 1)) = negb (jeu_termine reinitialiser).
Proof.
  assert (IAFacile.get_move jX reinitialiser = Some (0, 0, 1, 1)) as H
    by (vm_compute; reflexivity).
  split; [exact H|].
  exact (coup_choisi_dans_les_coups_valides jX
           {| erreur_strategique := false; indice_choisi := 0 |}
           reinitialiser (0, 0, 1, 1) (or_introl H)).
Defined.

(** C10, as stated, fails — on the board won by X at the end of
    [partie_gagnee], [IAFacile.get_move] returns the first legal move, and
    [jouer_coup] refuses it. *)
Lemma coup_choisi_refuse_apres_victoire :
  jouer_partie reinitialiser partie_gagnee = Some (position_apres partie_gagnee)
  /\ IAFacile.get_move jX (position_apres partie_gagnee) = Some (0, 0, 0, 0)
  /\ In (0, 0, 0, 0) (obtenir_coups_valides (position_apres partie_gagnee))
  /\ jouer_coup (position_apres partie_gagnee) (0, 0, 0, 0)
     = (false, position_apres partie_gagnee).
Proof.
  split; [vm_compute; reflexivity|].
  split; [vm_compute; reflexivity|].
  split; [vm_compute; auto|].
  vm_compute; reflexivity.
Qed.

End Choix.

(** ** The object store: copies and moves *)

Module TasFaits.
Import Tas.

(** *** The monad *)

Lemma bind_Some {A B} (m : M A) (k : A -> M B) h b h' :
  bind m k h = Some (b, h') <->
  exists a h1, m h = Some (a, h1) /\ k a h1 = Some (b, h').
Proof.
  unfold bind. destruct (m h) as [[a h1]|].
  - split; [eauto|]. now intros (a' & h1' & [= <- <-] & E).
  - split; [discriminate|]. now intros (a' & h1' & [=] & _).
Qed.

Lemma bind_run {A B} (m : M A) (k : A -> M B) h a h1 :
  m h = Some (a, h1) -> bind m k h = k a h1.
Proof. unfold bind. now intros ->. Qed.

(** *** Rows of three *)

Lemma opt3_map3_Some {A B} (g : A -> option B) (t : tri A) (r : tri B) :
  opt3 (map3 g t) = Some r <-> forall i, g (get3 t i) = Some (get3 r i).
Proof.
  destruct t as [[a b] c], r as [[x y] z]. simpl. split.
  - destruct (g a) eqn:Ea, (g b) eqn:Eb, (g c) eqn:Ec; try discriminate.
    intros [= -> -> ->] i. destruct i; assumption.
  - intros H. pose proof (H I0) as H0. pose proof (H I1) as H1.
    pose proof (H I2) as H2. simpl in *. now rewrite H0, H1, H2.
Qed.

Lemma In_liste3 {A} (t : tri A) x : In x (liste3 t) <-> exists i, x = get3 t i.
Proof.
  destruct t as [[a b] c]. simpl. split.
  - intros [<-|[<-|[<-|[]]]]; [exists I0|exists I1|exists I2]; reflexivity.
  - intros [[] ->]; simpl; auto.
Qed.

(** *** Preservation of the store *)

Lemma preserve_refl h : preserve h h.
Proof. now intros a _. Qed.

Lemma preserve_dom h h' a : preserve h h' -> a ∈ dom h -> a ∈ dom h'.
Proof.
  intros H Ha. apply elem_of_dom. rewrite (H a Ha). now apply elem_of_dom.
Qed.

Lemma preserve_trans h1 h2 h3 : preserve h1 h2 -> preserve h2 h3 -> preserve h1 h3.
Proof.
  intros H12 H23 a Ha. rewrite H23; [now apply H12|]. eapply preserve_dom; eauto.
Qed.

Lemma preserve_lookup h h' a o : preserve h h' -> h !! a = Some o -> h' !! a = Some o.
Proof.
  intros H E. rewrite H; [exact E|]. apply elem_of_dom. eauto.
Qed.

Lemma allouer_spec o h :
  exists a, allouer o h = Some (a, <[a := o]> h)
            /\ (a ∉ dom h) /\ preserve h (<[a := o]> h).
Proof.
  exists (fresh (dom h)). split; [reflexivity|].
  pose proof (is_fresh (dom h)) as Hf. split; [exact Hf|].
  intros a Ha. apply lookup_insert_ne. intros <-. contradiction.
Qed.

Lemma ecrire_spec a o h :
  a ∈ dom h -> ecrire a o h = Some (tt, <[a := o]> h).
Proof.
  intros Ha. apply elem_of_dom in Ha as [o' E]. unfold ecrire. now rewrite E.
Qed.

Lemma preserve_insert_frais h h' a o :
  preserve h h' -> a ∉ dom h -> preserve h (<[a := o]> h').
Proof.
  intros H Ha x Hx. rewrite lookup_insert_ne; [now apply H|]. intros <-. contradiction.
Qed.

Lemma dom_insert_in (h : tas) a o x : x ∈ dom h -> x ∈ dom (<[a := o]> h).
Proof.
  intros Hx. apply elem_of_dom. apply lookup_insert_is_Some'. right.
  now apply elem_of_dom.
Qed.

Lemma dom_insert_eq (h : tas) a o : a ∈ dom (<[a := o]> h).
Proof. apply elem_of_dom. rewrite lookup_insert_eq. eauto. Qed.

(** *** Reading a board from the store *)

Lemma repr_petit_valeur h a ls p :
  repr_petit h a ls p ->
  valeur_petit h a = Some p /\ forme_petit h a = Some (a, ls).
Proof.
  intros [Ea Hl]. unfold valeur_petit, forme_petit. rewrite Ea.
  split; [|reflexivity].
  assert (opt3 (map3 (valeur_ligne h) ls) = Some (PetitPlateau.plateau p)) as ->.
  { apply opt3_map3_Some. intros k. unfold valeur_ligne. now rewrite Hl. }
  now destruct p.
Qed.

Lemma valeur_petit_repr h a p ls :
  valeur_petit h a = Some p -> forme_petit h a = Some (a, ls) -> repr_petit h a ls p.
Proof.
  unfold valeur_petit, forme_petit.
  destruct (h !! a) as [[cs|ls' v t|]|] eqn:Ea; try discriminate.
  destruct (opt3 (map3 (valeur_ligne h) ls')) as [g|] eqn:Eg; [|discriminate].
  intros [= <-] [= <-]. split; [exact Ea|]. simpl.
  intros k. pose proof (proj1 (opt3_map3_Some _ _ _) Eg k) as Hk.
  unfold valeur_ligne in Hk.
  destruct (h !! get3 ls' k) as [[cs|?|]|]; try discriminate.
  now injection Hk as ->.
Qed.

Lemma repr_valeur h u f b :
  repr h u f b -> valeur_ultime h u = Some b /\ forme_de h u = Some f.
Proof.
  intros [Eu Hp]. unfold valeur_ultime, forme_de. rewrite Eu. split.
  - assert (opt3 (map3 (fun r => opt3 (map3 (valeur_petit h) r)) (map3 (map3 fst) f))
            = Some (MorpionUltime.plateaux b)) as ->.
    { apply opt3_map3_Some. intros i. apply opt3_map3_Some. intros j.
      rewrite !get3_map3. apply (repr_petit_valeur _ _ _ _ (Hp i j)). }
    now destruct b.
  - apply opt3_map3_Some. intros i. apply opt3_map3_Some. intros j.
    rewrite !get3_map3.
    destruct (repr_petit_valeur _ _ _ _ (Hp i j)) as [_ E].
    unfold get2 in E. rewrite E. now destruct (get3 (get3 f i) j).
Qed.

Lemma valeur_repr h u f b :
  valeur_ultime h u = Some b -> forme_de h u = Some f -> repr h u f b.
Proof.
  unfold valeur_ultime, forme_de.
  destruct (h !! u) as [[cs|?|ps jc pa jt v]|] eqn:Eu; try discriminate.
  destruct (opt3 (map3 (fun r => opt3 (map3 (valeur_petit h) r)) ps)) as [g|] eqn:Eg;
    [|discriminate].
  intros [= <-] Ef. simpl.
  assert (forall i j, valeur_petit h (get2 ps i j) = Some (get2 g i j)) as Hv.
  { intros i j. pose proof (proj1 (opt3_map3_Some _ _ _) Eg i) as Hi.
    exact (proj1 (opt3_map3_Some _ _ _) Hi j). }
  assert (forall i j, forme_petit h (get2 ps i j) = Some (get2 f i j)) as Hf.
  { intros i j. pose proof (proj1 (opt3_map3_Some _ _ _) Ef i) as Hi.
    exact (proj1 (opt3_map3_Some _ _ _) Hi j). }
  assert (forall i j, fst (get2 f i j) = get2 ps i j) as Hfst.
  { intros i j. specialize (Hf i j). unfold forme_petit in Hf.
    destruct (h !! get2 ps i j) as [[?|ls ? ?|]|]; try discriminate.
    now injection Hf as <-. }
  assert (map3 (map3 fst) f = ps) as Hps.
  { apply tri_ext. intros i. apply tri_ext. intros j.
    rewrite !get3_map3. apply Hfst. }
  split; [now rewrite Hps|]. intros i j. simpl.
  apply valeur_petit_repr; rewrite Hfst; [apply Hv|].
  rewrite Hf. rewrite <- Hfst. now destruct (get2 f i j).
Qed.

Lemma bien_forme_repr h u b :
  bien_forme h u b <-> exists f, repr h u f b /\ NoDup (adresses f).
Proof.
  split.
  - intros (Hv & f & Hf & Hn). exists f. split; [now apply valeur_repr|exact Hn].
  - intros (f & Hr & Hn). destruct (repr_valeur _ _ _ _ Hr) as [Hv Hf].
    split; [exact Hv|]. eauto.
Qed.

Lemma repr_petit_meme h h' a ls p :
  repr_petit h a ls p ->
  h' !! a = h !! a -> (forall k, h' !! get3 ls k = h !! get3 ls k) ->
  repr_petit h' a ls p.
Proof.
  intros [Ea Hl] Ha Hk. split; [now rewrite Ha|]. intros k. now rewrite Hk.
Qed.

Lemma repr_petit_preserve h h' a ls p :
  repr_petit h a ls p -> preserve h h' -> repr_petit h' a ls p.
Proof.
  intros [Ea Hl] H. split; [eapply preserve_lookup; eauto|].
  intros k. eapply preserve_lookup; eauto.
Qed.

Lemma repr_preserve h h' u f b : repr h u f b -> preserve h h' -> repr h' u f b.
Proof.
  intros [Eu Hp] H. split; [eapply preserve_lookup; eauto|].
  intros i j. eapply repr_petit_preserve; eauto.
Qed.

(** *** Creation of objects *)

Lemma frais_hors h h' l a : frais h h' l -> In a l -> a ∉ dom h.
Proof. intros H Ha. apply (H a Ha). Qed.

Lemma mapM3_cree {A B W} (f : A -> M B) (adrs : W -> list adr) (t : tri A)
    (P : idx -> tas -> Prop) (Q : idx -> tas -> B -> W -> Prop) :
  (forall i h h', P i h -> preserve h h' -> P i h') ->
  (forall i h h' y w, Q i h y w -> preserve h h' -> Q i h' y w) ->
  (forall i h, P i h -> cree adrs (Q i) (f (get3 t i)) h) ->
  forall h, (forall i, P i h) ->
    cree (fun w3 : tri W => flat_map adrs (liste3 w3))
         (fun h' (r : tri B) (w3 : tri W) => forall i, Q i h' (get3 r i) (get3 w3 i))
         (mapM3 f t) h.
Proof.
  intros HP HQ Hf h Hh. destruct t as [[a b] c].
  destruct (Hf I0 h (Hh I0)) as (y0 & h1 & w0 & E0 & P0 & F0 & N0 & Q0).
  destruct (Hf I1 h1 (HP I1 _ _ (Hh I1) P0)) as (y1 & h2 & w1 & E1 & P1 & F1 & N1 & Q1).
  pose proof (preserve_trans _ _ _ P0 P1) as P01.
  destruct (Hf I2 h2 (HP I2 _ _ (Hh I2) P01)) as (y2 & h3 & w2 & E2 & P2 & F2 & N2 & Q2).
  pose proof (preserve_trans _ _ _ P01 P2) as P02.
  pose proof (preserve_trans _ _ _ P1 P2) as P12.
  simpl in E0, E1, E2.
  exists (y0, y1, y2), h3, (w0, w1, w2). split; [|split; [exact P02|split; [|split]]].
  - unfold mapM3. rewrite (bind_run _ _ _ _ _ E0), (bind_run _ _ _ _ _ E1),
      (bind_run _ _ _ _ _ E2). reflexivity.
  - intros x Hx. simpl in Hx. rewrite app_nil_r in Hx.
    apply in_app_or in Hx as [Hx|Hx]; [|apply in_app_or in Hx as [Hx|Hx]].
    + destruct (F0 x Hx) as [Hn Hd]. split; [exact Hn|].
      eapply preserve_dom; [exact P12|exact Hd].
    + destruct (F1 x Hx) as [Hn Hd]. split.
      * intros Hc. apply Hn. eapply preserve_dom; [exact P0|exact Hc].
      * eapply preserve_dom; [exact P2|exact Hd].
    + destruct (F2 x Hx) as [Hn Hd]. split; [|exact Hd].
      intros Hc. apply Hn. eapply preserve_dom; [exact P01|exact Hc].
  - simpl. rewrite app_nil_r. apply NoDup_app. split; [exact N0|]. split.
    + intros x Hx%list_elem_of_In Hx'%list_elem_of_In.
      destruct (F0 x Hx) as [_ Hd].
      apply in_app_or in Hx' as [Hx'|Hx'].
      * destruct (F1 x Hx') as [Hn _]. contradiction.
      * destruct (F2 x Hx') as [Hn _]. apply Hn.
        eapply preserve_dom; [exact P1|exact Hd].
    + apply NoDup_app. split; [exact N1|]. split; [|exact N2].
      intros x Hx%list_elem_of_In Hx'%list_elem_of_In.
      destruct (F1 x Hx) as [_ Hd]. destruct (F2 x Hx') as [Hn _]. contradiction.
  - intros i. destruct i; simpl.
    + eapply HQ; [exact Q0|exact P12].
    + eapply HQ; [exact Q1|exact P2].
    + exact Q2.
Qed.

Lemma affecter_petit_run a g h ls v t :
  h !! a = Some (OPetit ls v t) ->
  affecter_petit a g h = Some (tt, <[a := g ls v t]> h).
Proof.
  intros E. unfold affecter_petit, bind, lire, ecrire. now rewrite E, E.
Qed.

Lemma affecter_ultime_run a g h ps jc pa jt v :
  h !! a = Some (OUltime ps jc pa jt v) ->
  affecter_ultime a g h = Some (tt, <[a := g ps jc pa jt v]> h).
Proof.
  intros E. unfold affecter_ultime, bind, lire, ecrire. now rewrite E, E.
Qed.

Lemma copier_ligne_cree h a cs :
  h !! a = Some (OLigne cs) ->
  cree (fun w : adr => [w])
       (fun h' y w => y = w /\ h' !! y = Some (OLigne cs))
       (copier_ligne a) h.
Proof.
  intros E. destruct (allouer_spec (OLigne cs) h) as (x & Ex & Hx & Hp).
  exists x, (<[x := OLigne cs]> h), x. split; [|split; [exact Hp|split; [|split]]].
  - unfold copier_ligne, bind, lire. now rewrite E.
  - intros y [<-|[]]. split; [exact Hx|apply dom_insert_eq].
  - apply NoDup_singleton.
  - split; [reflexivity|apply lookup_insert_eq].
Qed.

Lemma allouer_run o h :
  exists a, allouer o h = Some (a, <[a := o]> h) /\ h !! a = None.
Proof.
  destruct (allouer_spec o h) as (a & E & Hn & _). exists a.
  split; [exact E|]. now apply not_elem_of_dom.
Qed.

Lemma flat_map_singleton {A} (l : list A) : flat_map (fun w => [w]) l = l.
Proof. induction l as [|a l IH]; simpl; congruence. Qed.

(** [PetitPlateau()] creates an empty sub-board in progress, made of four
    new objects. *)
Lemma pp_nouveau_cree h :
  cree bloc
    (fun h' y w => fst w = y /\ repr_petit h' y (snd w) PetitPlateau.reinitialiser)
    pp_nouveau h.
Proof.
  set (L := OLigne (Vide, Vide, Vide)).
  destruct (allouer_run L h) as (x0 & E0 & H0).
  destruct (allouer_run L (<[x0 := L]> h)) as (x1 & E1 & H1).
  destruct (allouer_run L (<[x1 := L]> (<[x0 := L]> h))) as (x2 & E2 & H2).
  destruct (allouer_run (OPetit (x0, x1, x2) None false)
              (<[x2 := L]> (<[x1 := L]> (<[x0 := L]> h)))) as (x3 & E3 & H3).
  apply lookup_insert_None in H1 as [H1 N10].
  apply lookup_insert_None in H2 as [H2 N21].
  apply lookup_insert_None in H2 as [H2 N20].
  apply lookup_insert_None in H3 as [H3 N32].
  apply lookup_insert_None in H3 as [H3 N31].
  apply lookup_insert_None in H3 as [H3 N30].
  exists x3, (<[x3 := OPetit (x0, x1, x2) None false]>
               (<[x2 := L]> (<[x1 := L]> (<[x0 := L]> h)))), (x3, (x0, x1, x2)).
  split; [|split; [|split; [|split]]].
  - unfold pp_nouveau. fold L.
    rewrite (bind_run _ _ _ _ _ E0), (bind_run _ _ _ _ _ E1), (bind_run _ _ _ _ _ E2).
    exact E3.
  - intros a Ha. apply elem_of_dom in Ha as [o Ho].
    rewrite !lookup_insert_ne by congruence. reflexivity.
  - intros a Ha. simpl in Ha.
    split; [apply not_elem_of_dom; intuition congruence|].
    apply elem_of_dom.
    destruct Ha as [<-|[<-|[<-|[<-|[]]]]]; simplify_map_eq; eauto.
  - simpl.
    repeat (apply NoDup_cons_2;
            [rewrite list_elem_of_In; simpl; intuition congruence|]).
    apply NoDup_nil_2.
  - split; [reflexivity|]. split; simpl.
    + apply lookup_insert_eq.
    + intros k. destruct k; simpl; simplify_map_eq; reflexivity.
Qed.

(** [PetitPlateau.dupliquer] creates a sub-board that reads as the source,
    made of four new objects. *)
Lemma pp_dupliquer_cree h x ls p :
  repr_petit h x ls p ->
  cree bloc (fun h' y w => fst w = y /\ repr_petit h' y (snd w) p)
    (pp_dupliquer x) h.
Proof.
  intros [Ex Hl].
  destruct (pp_nouveau_cree h) as (nv & h1 & [nv' ls0] & En & P1 & F1 & _ & Hnv & [Env _]).
  simpl in Hnv, Env. subst nv'.
  assert ((nv ∉ dom h) /\ (nv ∈ dom h1)) as [Hnv0 Hnv1] by (apply F1; now left).
  pose proof (preserve_lookup _ _ _ _ P1 Ex) as Ex1.
  destruct (mapM3_cree copier_ligne (fun w : adr => [w]) ls
              (fun k h => h !! get3 ls k = Some (OLigne (get3 (PetitPlateau.plateau p) k)))
              (fun k h' y w =>
                 y = w /\ h' !! y = Some (OLigne (get3 (PetitPlateau.plateau p) k))))
    with (h := h1) as (copie & h2 & w3 & Ec & P2 & F2 & N2 & Q2).
  { intros k h0 h0' H0 Hp. eapply preserve_lookup; eauto. }
  { intros k h0 h0' y w [-> H0] Hp. split; [reflexivity|].
    eapply preserve_lookup; eauto. }
  { intros k h0 H0. now apply copier_ligne_cree. }
  { intros k. eapply preserve_lookup; eauto. }
  assert (w3 = copie) as ->.
  { apply tri_ext. intros k. symmetry. apply Q2. }
  rewrite flat_map_singleton in F2, N2.
  pose proof (preserve_lookup _ _ _ _ P2 Env) as Env2.
  assert (forall k, get3 copie k <> nv) as Hne.
  { intros k Hk. destruct (F2 (get3 copie k)) as [Hn _];
      [apply In_liste3; eauto|]. rewrite Hk in Hn. contradiction. }
  set (v := PetitPlateau.vainqueur p) in *.
  set (t := PetitPlateau.jeu_termine p) in *.
  set (h3 := <[nv := OPetit copie None false]> h2).
  set (h4 := <[nv := OPetit copie v false]> h3).
  set (h5 := <[nv := OPetit copie v t]> h4).
  assert (forall a, a <> nv -> h5 !! a = h2 !! a) as Hautres.
  { intros a Ha. unfold h5, h4, h3. now rewrite !lookup_insert_ne by congruence. }
  exists nv, h5, (nv, copie). split; [|split; [|split; [|split]]].
  - unfold pp_dupliquer.
    rewrite (bind_run _ _ _ _ _ En).
    unfold bind at 1, lire at 1. rewrite Ex1.
    rewrite (bind_run _ _ _ _ _ Ec).
    rewrite (bind_run _ _ _ _ _ (affecter_petit_run nv _ h2 _ _ _ Env2)).
    fold h3.
    rewrite (bind_run _ _ _ _ _
               (affecter_petit_run nv _ h3 _ _ _ (lookup_insert_eq h2 nv _))).
    fold h4.
    rewrite (bind_run _ _ _ _ _
               (affecter_petit_run nv _ h4 _ _ _ (lookup_insert_eq h3 nv _))).
    reflexivity.
  - intros a Ha. rewrite Hautres by (intros ->; contradiction).
    exact (preserve_trans _ _ _ P1 P2 a Ha).
  - intros a [<-|Ha].
    + split; [exact Hnv0|]. apply dom_insert_eq.
    + destruct (F2 a Ha) as [Hn Hd]. split.
      * intros Hc. apply Hn. eapply preserve_dom; eauto.
      * unfold h5, h4, h3. now repeat apply dom_insert_in.
  - simpl. apply NoDup_cons_2; [|exact N2].
    intros Hin%list_elem_of_In. destruct (F2 nv Hin) as [Hn _]. contradiction.
  - split; [reflexivity|]. split; simpl.
    + apply lookup_insert_eq.
    + intros k. rewrite Hautres by apply Hne. apply Q2.
Qed.

(** Nine sub-boards created one after the other, row by row. *)
Lemma mapM3_2_cree {A} (f : A -> M adr) (t : tri (tri A))
    (P : idx -> idx -> tas -> Prop) (pv : idx -> idx -> PetitPlateau.t) :
  (forall i j h h', P i j h -> preserve h h' -> P i j h') ->
  (forall i j h, P i j h ->
     cree bloc (fun h' y w => fst w = y /\ repr_petit h' y (snd w) (pv i j))
       (f (get2 t i j)) h) ->
  forall h, (forall i j, P i j h) ->
    exists ps h' (g : forme),
      mapM3 (mapM3 f) t h = Some (ps, h')
      /\ preserve h h' /\ frais h h' (adresses g) /\ NoDup (adresses g)
      /\ map3 (map3 fst) g = ps
      /\ forall i j, repr_petit h' (fst (get2 g i j)) (snd (get2 g i j)) (pv i j).
Proof.
  intros HP Hf h Hh.
  destruct (mapM3_cree (mapM3 f)
              (fun w3 : tri (adr * tri adr) => flat_map bloc (liste3 w3)) t
              (fun i h => forall j, P i j h)
              (fun i h' (r : tri adr) (w3 : tri (adr * tri adr)) =>
                 forall j, fst (get3 w3 j) = get3 r j
                           /\ repr_petit h' (get3 r j) (snd (get3 w3 j)) (pv i j)))
    with (h := h) as (ps & h' & g & E & Hp & Hfr & Hn & Hq).
  - intros i h0 h0' H0 Hpr j. exact (HP i j h0 h0' (H0 j) Hpr).
  - intros i h0 h0' y w H0 Hpr j. destruct (H0 j) as [E0 R0].
    split; [exact E0|]. exact (repr_petit_preserve _ _ _ _ _ R0 Hpr).
  - intros i h0 H0.
    exact (mapM3_cree f bloc (get3 t i)
             (fun j h => P i j h)
             (fun j h' y w => fst w = y /\ repr_petit h' y (snd w) (pv i j))
             (fun j h1 h1' H1 Hpr => HP i j h1 h1' H1 Hpr)
             (fun j h1 h1' y w H1 Hpr =>
                conj (proj1 H1) (repr_petit_preserve _ _ _ _ _ (proj2 H1) Hpr))
             (fun j h1 H1 => Hf i j h1 H1) h0 H0).
  - exact Hh.
  - exists ps, h', g. split; [exact E|]. split; [exact Hp|].
    split; [exact Hfr|]. split; [exact Hn|]. split.
    + apply tri_ext. intros i. apply tri_ext. intros j.
      rewrite !get3_map3. apply (Hq i j).
    + intros i j. destruct (Hq i j) as [E0 R0]. unfold get2. now rewrite E0.
Qed.

Lemma In_adresses_petit (g : forme) i j : In (fst (get2 g i j)) (adresses g).
Proof.
  destruct g as [[[[[a [[a0 a1] a2]] [b [[b0 b1] b2]]] [c [[c0 c1] c2]]]
                   [[[a' [[a0' a1'] a2']] [b' [[b0' b1'] b2']]] [c' [[c0' c1'] c2']]]]
                  [[[a'' [[a0'' a1''] a2'']] [b'' [[b0'' b1''] b2'']]] [c'' [[c0'' c1''] c2'']]]].
  destruct i, j; unfold adresses, bloc; simpl; auto 40.
Qed.

Lemma In_adresses_ligne (g : forme) i j k :
  In (get3 (snd (get2 g i j)) k) (adresses g).
Proof.
  destruct g as [[[[[a [[a0 a1] a2]] [b [[b0 b1] b2]]] [c [[c0 c1] c2]]]
                   [[[a' [[a0' a1'] a2']] [b' [[b0' b1'] b2']]] [c' [[c0' c1'] c2']]]]
                  [[[a'' [[a0'' a1''] a2'']] [b'' [[b0'' b1''] b2'']]] [c'' [[c0'' c1''] c2'']]]].
  destruct i, j, k; unfold adresses, bloc; simpl; auto 40.
Qed.

(** [MorpionUltime()] creates a board that reads as the initial position,
    made of new objects, none of them used twice. *)
Lemma nouveau_cree h :
  exists c h' (g : forme),
    nouveau h = Some (c, h')
    /\ preserve h h' /\ frais h h' (c :: adresses g) /\ NoDup (c :: adresses g)
    /\ repr h' c g MorpionUltime.reinitialiser.
Proof.
  destruct (mapM3_2_cree (fun _ : unit => pp_nouveau)
              ((tt, tt, tt), (tt, tt, tt), (tt, tt, tt))
              (fun _ _ _ => True) (fun _ _ => PetitPlateau.reinitialiser))
    with (h := h) as (ps & h1 & g & E & Hp & Hfr & Hn & Hps & Hr); auto.
  { intros i j h0 _. apply pp_nouveau_cree. }
  destruct (allouer_spec (OUltime ps jX None false None) h1) as (c & Ec & Hc & Hpc).
  exists c, (<[c := OUltime ps jX None false None]> h1), g.
  assert (forall a, In a (adresses g) -> a <> c) as Hne.
  { intros a Ha ->. destruct (Hfr c Ha) as [_ Hd]. contradiction. }
  split; [|split; [|split; [|split]]].
  - unfold nouveau. rewrite (bind_run _ _ _ _ _ E). exact Ec.
  - eapply preserve_trans; eauto.
  - intros a [<-|Ha].
    + split; [|apply dom_insert_eq]. intros Hd. apply Hc. eapply preserve_dom; eauto.
    + destruct (Hfr a Ha) as [Hn' Hd]. split; [exact Hn'|now apply dom_insert_in].
  - apply NoDup_cons_2; [|exact Hn].
    intros Hin%list_elem_of_In. now apply (Hne c Hin).
  - split.
    + rewrite lookup_insert_eq. now rewrite Hps.
    + intros i j. eapply repr_petit_preserve; [|exact Hpc].
      replace (get2 (MorpionUltime.plateaux MorpionUltime.reinitialiser) i j)
        with PetitPlateau.reinitialiser by (destruct i, j; reflexivity).
      apply Hr.
Qed.

(** [MorpionUltime.dupliquer] creates a board that reads as the source, made
    of new objects only, none of them used twice; the objects that existed
    are left as they were. *)
Lemma dupliquer_cree h u f b :
  repr h u f b ->
  exists c h' (g : forme),
    dupliquer u h = Some (c, h')
    /\ preserve h h' /\ frais h h' (c :: adresses g) /\ NoDup (c :: adresses g)
    /\ repr h' c g b.
Proof.
  intros Hr. pose proof Hr as [Eu Hpp].
  destruct (nouveau_cree h) as (c & h1 & g0 & Ec & P1 & F1 & _ & [Ec1 _]).
  assert ((c ∉ dom h) /\ (c ∈ dom h1)) as [Hc0 Hc1] by (apply F1; now left).
  pose proof (preserve_lookup _ _ _ _ P1 Eu) as Eu1.
  destruct (mapM3_2_cree pp_dupliquer (map3 (map3 fst) f)
              (fun i j h => repr_petit h (fst (get2 f i j)) (snd (get2 f i j))
                              (get2 (MorpionUltime.plateaux b) i j))
              (fun i j => get2 (MorpionUltime.plateaux b) i j))
    with (h := h1) as (ps & h2 & g & E & P2 & F2 & N2 & Hps & Hg).
  { intros i j h0 h0' H0 Hpr. eapply repr_petit_preserve; eauto. }
  { intros i j h0 H0. rewrite get2_map3. eapply pp_dupliquer_cree; eauto. }
  { intros i j. eapply repr_petit_preserve; eauto. }
  pose proof (preserve_lookup _ _ _ _ P2 Ec1) as Ec2.
  assert (forall a, In a (adresses g) -> a <> c) as Hne.
  { intros a Ha ->. destruct (F2 c Ha) as [Hn' _]. contradiction. }
  set (jc := MorpionUltime.joueur_courant b) in *.
  set (pa := MorpionUltime.plateau_actif b) in *.
  set (jt := MorpionUltime.jeu_termine b) in *.
  set (v := MorpionUltime.vainqueur b) in *.
  set (h3 := <[c := OUltime ps jX None false None]> h2).
  set (h4 := <[c := OUltime ps jc None false None]> h3).
  set (h5 := <[c := OUltime ps jc pa false None]> h4).
  set (h6 := <[c := OUltime ps jc pa jt None]> h5).
  set (h7 := <[c := OUltime ps jc pa jt v]> h6).
  assert (forall a, a <> c -> h7 !! a = h2 !! a) as Hautres.
  { intros a Ha. unfold h7, h6, h5, h4, h3.
    now rewrite !lookup_insert_ne by congruence. }
  exists c, h7, g. split; [|split; [|split; [|split]]].
  - unfold dupliquer. rewrite (bind_run _ _ _ _ _ Ec).
    unfold bind at 1, lire at 1. rewrite Eu1.
    rewrite (bind_run _ _ _ _ _ E).
    rewrite (bind_run _ _ _ _ _ (affecter_ultime_run c _ h2 _ _ _ _ _ Ec2)). fold h3.
    rewrite (bind_run _ _ _ _ _
               (affecter_ultime_run c _ h3 _ _ _ _ _ (lookup_insert_eq h2 c _))). fold h4.
    rewrite (bind_run _ _ _ _ _
               (affecter_ultime_run c _ h4 _ _ _ _ _ (lookup_insert_eq h3 c _))). fold h5.
    rewrite (bind_run _ _ _ _ _
               (affecter_ultime_run c _ h5 _ _ _ _ _ (lookup_insert_eq h4 c _))). fold h6.
    rewrite (bind_run _ _ _ _ _
               (affecter_ultime_run c _ h6 _ _ _ _ _ (lookup_insert_eq h5 c _))).
    reflexivity.
  - intros a Ha. rewrite Hautres by (intros ->; contradiction).
    exact (preserve_trans _ _ _ P1 P2 a Ha).
  - intros a [<-|Ha].
    + split; [exact Hc0|apply dom_insert_eq].
    + destruct (F2 a Ha) as [Hn' Hd]. split.
      * intros Hd0. apply Hn'. eapply preserve_dom; eauto.
      * unfold h7, h6, h5, h4, h3. now repeat apply dom_insert_in.
  - apply NoDup_cons_2; [|exact N2].
    intros Hin%list_elem_of_In. now apply (Hne c Hin).
  - split.
    + unfold h7. rewrite lookup_insert_eq. now rewrite Hps.
    + intros i j. eapply repr_petit_meme; [apply Hg| |].
      * apply Hautres, Hne, In_adresses_petit.
      * intros k. apply Hautres, Hne, In_adresses_ligne.
Qed.

(** *** Distinct addresses *)

Lemma nat_of_idx_inj i k : nat_of_idx i = nat_of_idx k -> i = k.
Proof. destruct i, k; simpl; congruence. Qed.

Lemma nat_of_idx_lt i : (nat_of_idx i < 3)%nat.
Proof. destruct i; simpl; lia. Qed.

Ltac ouvrir_forme g :=
  destruct g as [[[[[?a [[?a ?a] ?a]] [?a [[?a ?a] ?a]]] [?a [[?a ?a] ?a]]]
                   [[[?a [[?a ?a] ?a]] [?a [[?a ?a] ?a]]] [?a [[?a ?a] ?a]]]]
                  [[[?a [[?a ?a] ?a]] [?a [[?a ?a] ?a]]] [?a [[?a ?a] ?a]]]].

Lemma adresses_rang_petit (g : forme) i j :
  adresses g !! rang_petit i j = Some (fst (get2 g i j)).
Proof. ouvrir_forme g. destruct i, j; reflexivity. Qed.

Lemma adresses_rang_ligne (g : forme) i j k :
  adresses g !! rang_ligne i j k = Some (get3 (snd (get2 g i j)) k).
Proof. ouvrir_forme g. destruct i, j, k; reflexivity. Qed.

Lemma petit_inj (g : forme) i j i' j' :
  NoDup (adresses g) ->
  fst (get2 g i j) = fst (get2 g i' j') -> i = i' /\ j = j'.
Proof.
  intros Hn E.
  pose proof (proj1 (NoDup_alt _) Hn (rang_petit i j) (rang_petit i' j') _
                (adresses_rang_petit g i j)) as H.
  rewrite E in H. specialize (H (adresses_rang_petit g i' j')).
  unfold rang_petit in H.
  pose proof (nat_of_idx_lt i). pose proof (nat_of_idx_lt j).
  pose proof (nat_of_idx_lt i'). pose proof (nat_of_idx_lt j').
  split; apply nat_of_idx_inj; lia.
Qed.

Lemma ligne_inj (g : forme) i j k i' j' k' :
  NoDup (adresses g) ->
  get3 (snd (get2 g i j)) k = get3 (snd (get2 g i' j')) k' ->
  i = i' /\ j = j' /\ k = k'.
Proof.
  intros Hn E.
  pose proof (proj1 (NoDup_alt _) Hn (rang_ligne i j k) (rang_ligne i' j' k') _
                (adresses_rang_ligne g i j k)) as H.
  rewrite E in H. specialize (H (adresses_rang_ligne g i' j' k')).
  unfold rang_ligne in H.
  pose proof (nat_of_idx_lt i). pose proof (nat_of_idx_lt j).
  pose proof (nat_of_idx_lt k). pose proof (nat_of_idx_lt i').
  pose proof (nat_of_idx_lt j'). pose proof (nat_of_idx_lt k').
  repeat split; apply nat_of_idx_inj; lia.
Qed.

Lemma petit_ligne_ne (g : forme) i j i' j' k' :
  NoDup (adresses g) ->
  fst (get2 g i j) <> get3 (snd (get2 g i' j')) k'.
Proof.
  intros Hn E.
  pose proof (proj1 (NoDup_alt _) Hn (rang_petit i j) (rang_ligne i' j' k') _
                (adresses_rang_petit g i j)) as H.
  rewrite E in H. specialize (H (adresses_rang_ligne g i' j' k')).
  unfold rang_petit, rang_ligne in H.
  pose proof (nat_of_idx_lt i). pose proof (nat_of_idx_lt j).
  pose proof (nat_of_idx_lt k'). pose proof (nat_of_idx_lt i').
  pose proof (nat_of_idx_lt j'). lia.
Qed.

(** An address of the layout is that of a sub-board object or of a row. *)
Lemma In_adresses (g : forme) a :
  In a (adresses g) ->
  exists i j, a = fst (get2 g i j) \/ exists k, a = get3 (snd (get2 g i j)) k.
Proof.
  intros Ha. apply list_elem_of_In, list_elem_of_lookup in Ha as [n Hn].
  ouvrir_forme g. unfold adresses, bloc in Hn. simpl in Hn.
  do 36 (destruct n as [|n];
         [injection Hn as <-;
          first [ exists I0, I0; first [ left; reflexivity | right; exists I0; reflexivity | right; exists I1; reflexivity | right; exists I2; reflexivity ]
                | exists I0, I1; first [ left; reflexivity | right; exists I0; reflexivity | right; exists I1; reflexivity | right; exists I2; reflexivity ]
                | exists I0, I2; first [ left; reflexivity | right; exists I0; reflexivity | right; exists I1; reflexivity | right; exists I2; reflexivity ]
                | exists I1, I0; first [ left; reflexivity | right; exists I0; reflexivity | right; exists I1; reflexivity | right; exists I2; reflexivity ]
                | exists I1, I1; first [ left; reflexivity | right; exists I0; reflexivity | right; exists I1; reflexivity | right; exists I2; reflexivity ]
                | exists I1, I2; first [ left; reflexivity | right; exists I0; reflexivity | right; exists I1; reflexivity | right; exists I2; reflexivity ]
                | exists I2, I0; first [ left; reflexivity | right; exists I0; reflexivity | right; exists I1; reflexivity | right; exists I2; reflexivity ]
                | exists I2, I1; first [ left; reflexivity | right; exists I0; reflexivity | right; exists I1; reflexivity | right; exists I2; reflexivity ]
                | exists I2, I2; first [ left; reflexivity | right; exists I0; reflexivity | right; exists I1; reflexivity | right; exists I2; reflexivity ] ]
         | ]).
  discriminate.
Qed.

Lemma repr_adresses_ne h u f b a : repr h u f b -> In a (adresses f) -> a <> u.
Proof.
  intros [Eu Hp] Ha ->. apply In_adresses in Ha as (i & j & [E|[k E]]).
  - destruct (Hp i j) as [Ea _]. rewrite <- E in Ea. congruence.
  - destruct (Hp i j) as [_ Hl]. specialize (Hl k). rewrite <- E in Hl. congruence.
Qed.

(** *** A move in the store follows the move on the value *)

Lemma voir_petit_run h a ls p :
  repr_petit h a ls p -> voir_petit a h = Some (p, h).
Proof.
  intros H. unfold voir_petit. now rewrite (proj1 (repr_petit_valeur _ _ _ _ H)).
Qed.

Lemma voir_ultime_run h u f b : repr h u f b -> voir_ultime u h = Some (b, h).
Proof.
  intros H. unfold voir_ultime. now rewrite (proj1 (repr_valeur _ _ _ _ H)).
Qed.

Lemma repr_petit_ligne_ne h a ls p k : repr_petit h a ls p -> get3 ls k <> a.
Proof. intros [Ea Hl] E. specialize (Hl k). rewrite E in Hl. congruence. Qed.

(** Assigning [vainqueur] and [jeu_termine] of a sub-board. *)
Lemma repr_petit_terminer h a ls p v t :
  repr_petit h a ls p ->
  repr_petit (<[a := OPetit ls v t]> h) a ls
    {| PetitPlateau.plateau := PetitPlateau.plateau p;
       PetitPlateau.vainqueur := v;
       PetitPlateau.jeu_termine := t |}.
Proof.
  intros H. split; simpl; [apply lookup_insert_eq|].
  intros k. rewrite lookup_insert_ne by (symmetry; eapply repr_petit_ligne_ne; eauto).
  apply H.
Qed.

Lemma pp_terminer_run h a ls p v :
  repr_petit h a ls p ->
  pp_terminer a v h = Some (tt, <[a := OPetit ls (Some v) true]> h).
Proof.
  intros [Ea _]. unfold pp_terminer.
  exact (affecter_petit_run a _ h _ _ _ Ea).
Qed.

Lemma pp_verifier_etat_spec h a ls p j :
  repr_petit h a ls p ->
  exists h',
    pp_verifier_etat a j h = Some (tt, h')
    /\ repr_petit h' a ls (PetitPlateau.verifier_etat p j)
    /\ (forall x, x <> a -> h' !! x = h !! x).
Proof.
  intros H. unfold pp_verifier_etat, PetitPlateau.verifier_etat.
  rewrite (bind_run _ _ _ _ _ (voir_petit_run _ _ _ _ H)).
  destruct (existsb _ _);
    [|destruct (PetitPlateau.diagonales p j); [|destruct (PetitPlateau.est_nul p)]].
  1-3: eexists; split; [eapply pp_terminer_run; eauto|];
       split; [now apply repr_petit_terminer|];
       intros x Hx; now apply lookup_insert_ne.
  exists h. split; [reflexivity|]. split; [exact H|reflexivity].
Qed.

Lemma pp_jouer_coup_spec h a ls p l c j :
  repr_petit h a ls p ->
  NoDup (liste3 ls) ->
  exists h',
    pp_jouer_coup a l c j h = Some (fst (PetitPlateau.jouer_coup p l c j), h')
    /\ repr_petit h' a ls (snd (PetitPlateau.jouer_coup p l c j))
    /\ (forall x, x <> a -> (forall k, x <> get3 ls k) -> h' !! x = h !! x).
Proof.
  intros H Hn. unfold pp_jouer_coup, PetitPlateau.jouer_coup.
  rewrite (bind_run _ _ _ _ _ (voir_petit_run _ _ _ _ H)).
  destruct (PetitPlateau.coup_valide p l c) eqn:Hv.
  2:{ exists h. split; [reflexivity|]. split; [exact H|reflexivity]. }
  unfold PetitPlateau.coup_valide in Hv.
  destruct (idx_of_Z l) as [il|]; [|discriminate].
  destruct (idx_of_Z c) as [ic|]; [|discriminate]. simpl.
  destruct H as [Ea Hl].
  unfold bind at 1, lire at 1. rewrite Ea.
  unfold bind at 1, lire at 1. rewrite (Hl il).
  assert (get3 ls il ∈ dom h) as Hd by (apply elem_of_dom; rewrite Hl; eauto).
  rewrite (bind_run _ _ _ _ _ (ecrire_spec _ _ _ Hd)).
  set (h1 := <[get3 ls il := OLigne (set3 (get3 (PetitPlateau.plateau p) il) ic (Pion j))]> h).
  set (p1 := {| PetitPlateau.plateau := set2 (PetitPlateau.plateau p) il ic (Pion j);
                PetitPlateau.vainqueur := PetitPlateau.vainqueur p;
                PetitPlateau.jeu_termine := PetitPlateau.jeu_termine p |}).
  assert (get3 ls il <> a) as Hne.
  { intros E. specialize (Hl il). rewrite E in Hl. congruence. }
  assert (repr_petit h1 a ls p1) as H1.
  { split; simpl.
    - unfold h1. now rewrite lookup_insert_ne.
    - intros k. unfold h1. destruct (decide (k = il)) as [->|Hk].
      + rewrite lookup_insert_eq. unfold set2. now rewrite get3_set3_eq.
      + rewrite lookup_insert_ne.
        * unfold set2. rewrite get3_set3_ne by congruence. apply Hl.
        * intros E. apply Hk. symmetry. apply nat_of_idx_inj.
          apply (proj1 (NoDup_alt _) Hn (nat_of_idx il) (nat_of_idx k) (get3 ls il)).
          -- destruct ls as [[x y] z], il; reflexivity.
          -- rewrite E. destruct ls as [[x y] z], k; reflexivity. }
  destruct (pp_verifier_etat_spec h1 a ls p1 j H1) as (h2 & E2 & H2 & F2).
  rewrite (bind_run _ _ _ _ _ E2). exists h2.
  split; [reflexivity|]. split; [exact H2|].
  intros x Hx Hk. rewrite F2 by exact Hx. unfold h1.
  apply lookup_insert_ne. intros E. now apply (Hk il).
Qed.

Lemma repr_affecter h u f b jc pa jt v :
  repr h u f b ->
  repr (<[u := OUltime (map3 (map3 fst) f) jc pa jt v]> h) u f
    {| MorpionUltime.plateaux := MorpionUltime.plateaux b;
       MorpionUltime.joueur_courant := jc;
       MorpionUltime.plateau_actif := pa;
       MorpionUltime.jeu_termine := jt;
       MorpionUltime.vainqueur := v |}.
Proof.
  intros H. split; simpl; [apply lookup_insert_eq|].
  intros i j. eapply repr_petit_meme; [apply H| |].
  - apply lookup_insert_ne. symmetry.
    eapply repr_adresses_ne; [exact H|apply In_adresses_petit].
  - intros k. apply lookup_insert_ne. symmetry.
    eapply repr_adresses_ne; [exact H|apply In_adresses_ligne].
Qed.

Lemma terminer_spec h u f b v :
  repr h u f b ->
  exists h',
    terminer u v h = Some (tt, h')
    /\ repr h' u f (MorpionUltime.fixer_issue b v)
    /\ (forall x, x <> u -> h' !! x = h !! x).
Proof.
  intros H. pose proof H as [Eu _]. eexists. split; [|split].
  - unfold terminer. exact (affecter_ultime_run u _ h _ _ _ _ _ Eu).
  - cbv beta. unfold MorpionUltime.fixer_issue. now apply repr_affecter.
  - intros x Hx. now apply lookup_insert_ne.
Qed.

Lemma mettre_a_jour_spec h u f b :
  repr h u f b ->
  exists h',
    mettre_a_jour_etat_global u h = Some (tt, h')
    /\ repr h' u f (MorpionUltime.mettre_a_jour_etat_global b)
    /\ (forall x, x <> u -> h' !! x = h !! x).
Proof.
  intros H. unfold mettre_a_jour_etat_global, MorpionUltime.mettre_a_jour_etat_global.
  rewrite (bind_run _ _ _ _ _ (voir_ultime_run _ _ _ _ H)). cbv zeta.
  destruct (MorpionUltime.victoire_globale _); [now apply terminer_spec|].
  destruct (MorpionUltime.tous_termines b); [now apply terminer_spec|].
  destruct (_ && _); [now apply terminer_spec|].
  exists h. split; [reflexivity|]. split; [exact H|reflexivity].
Qed.

(** The placement in sub-board [(sl, sc)] changes that sub-board only. *)
Lemma repr_apres_placement h h1 u f b sl sc p1 :
  repr h u f b ->
  NoDup (adresses f) ->
  repr_petit h1 (fst (get2 f sl sc)) (snd (get2 f sl sc)) p1 ->
  (forall x, x <> fst (get2 f sl sc) ->
             (forall k, x <> get3 (snd (get2 f sl sc)) k) -> h1 !! x = h !! x) ->
  repr h1 u f (MorpionUltime.apres_placement b sl sc p1).
Proof.
  intros H Hn H1 Hf. pose proof H as [Eu Hp]. split; simpl.
  - rewrite Hf; [exact Eu| |].
    + eapply not_eq_sym, repr_adresses_ne; [exact H|apply In_adresses_petit].
    + intros k. eapply not_eq_sym, repr_adresses_ne; [exact H|apply In_adresses_ligne].
  - intros i j. destruct (decide ((sl, sc) = (i, j))) as [[= <- <-]|Hne].
    + rewrite get2_set2_eq. exact H1.
    + rewrite get2_set2_ne by exact Hne.
      eapply repr_petit_meme; [apply Hp| |].
      * apply Hf.
        -- intros E. apply (petit_inj _ _ _ _ _ Hn) in E as [-> ->]. now apply Hne.
        -- intros k. now apply petit_ligne_ne.
      * intros k. apply Hf.
        -- apply not_eq_sym. now apply petit_ligne_ne.
        -- intros k' E. apply (ligne_inj _ _ _ _ _ _ _ Hn) in E as (-> & -> & _).
           now apply Hne.
Qed.

Lemma NoDup_lignes (f : forme) i j : NoDup (adresses f) -> NoDup (liste3 (snd (get2 f i j))).
Proof.
  intros Hn. apply NoDup_alt. intros n m x Hn1 Hm1.
  assert (forall (t : tri adr) n x, liste3 t !! n = Some x ->
            exists k, n = nat_of_idx k /\ x = get3 t k) as Hk.
  { intros [[x0 x1] x2] n' x' E.
    destruct n' as [|[|[|n']]]; simpl in E; try discriminate; injection E as <-;
      [exists I0|exists I1|exists I2]; split; reflexivity. }
  apply Hk in Hn1 as (k & -> & ->). apply Hk in Hm1 as (k' & -> & E).
  apply (ligne_inj _ _ _ _ _ _ _ Hn) in E as (_ & _ & ->). reflexivity.
Qed.

(** The store-level [jouer_coup] returns what the value-level one returns
    and leaves the board reading as the value-level result; it writes to no
    object outside the board. *)
Lemma jouer_coup_spec h u f b mv :
  repr h u f b ->
  NoDup (adresses f) ->
  exists h',
    jouer_coup u mv h = Some (fst (MorpionUltime.jouer_coup b mv), h')
    /\ repr h' u f (snd (MorpionUltime.jouer_coup b mv))
    /\ (forall x, x <> u -> ~ In x (adresses f) -> h' !! x = h !! x).
Proof.
  intros H Hn. destruct mv as [[[sp_l sp_c] cel_l] cel_c].
  unfold jouer_coup.
  rewrite (bind_run _ _ _ _ _ (voir_ultime_run _ _ _ _ H)).
  destruct (MorpionUltime.coup_valide b (sp_l, sp_c, cel_l, cel_c)) eqn:Hv.
  2:{ rewrite MorpionUltimeFaits.jouer_coup_refuse by auto. simpl.
      exists h. split; [reflexivity|]. split; [exact H|reflexivity]. }
  destruct (MorpionUltime.jeu_termine b) eqn:Ht.
  { rewrite MorpionUltimeFaits.jouer_coup_refuse by auto. simpl.
    exists h. split; [reflexivity|]. split; [exact H|reflexivity]. }
  destruct (MorpionUltimeFaits.jouer_coup_accepte _ _ _ _ _ Hv Ht)
    as (sl & sc & cl & cc & p1 & Hsl & Hsc & Hcl & Hcc & Ep & E).
  cbv zeta in E. rewrite E. simpl fst. simpl snd.
  rewrite Hsl, Hsc, Hcl, Hcc. change (negb true || false) with false. cbv iota.
  pose proof H as [Eu Hp].
  unfold bind at 1, lire at 1. rewrite Eu. rewrite get2_map3.
  destruct (pp_jouer_coup_spec h _ _ _ cel_l cel_c (MorpionUltime.joueur_courant b)
              (Hp sl sc) (NoDup_lignes f sl sc Hn)) as (h1 & E1 & R1 & F1).
  rewrite Ep in E1, R1. simpl in E1, R1.
  rewrite (bind_run _ _ _ _ _ E1). change (negb true) with false. cbv iota.
  pose proof (repr_apres_placement _ _ _ _ _ _ _ _ H Hn R1 F1) as H1.
  destruct (mettre_a_jour_spec _ _ _ _ H1) as (h2 & E2 & H2 & F2).
  rewrite (bind_run _ _ _ _ _ E2).
  set (b2 := MorpionUltime.mettre_a_jour_etat_global
               (MorpionUltime.apres_placement b sl sc p1)) in *.
  rewrite (bind_run _ _ _ _ _ (voir_ultime_run _ _ _ _ H2)).
  pose proof H2 as [Eu2 _].
  rewrite (bind_run _ _ _ _ _ (affecter_ultime_run u _ h2 _ _ _ _ _ Eu2)).
  match goal with |- context [bind (voir_ultime u) _ ?hh] => set (h3 := hh) end.
  assert (repr h3 u f
            {| MorpionUltime.plateaux := MorpionUltime.plateaux b2;
               MorpionUltime.joueur_courant := MorpionUltime.joueur_courant b2;
               MorpionUltime.plateau_actif :=
                 if PetitPlateau.jeu_termine (get2 (MorpionUltime.plateaux b2) cl cc)
                 then None else Some (cl, cc);
               MorpionUltime.jeu_termine := MorpionUltime.jeu_termine b2;
               MorpionUltime.vainqueur := MorpionUltime.vainqueur b2 |}) as H3.
  { unfold h3. now apply repr_affecter. }
  rewrite (bind_run _ _ _ _ _ (voir_ultime_run _ _ _ _ H3)). simpl MorpionUltime.jeu_termine.
  assert (MorpionUltime.joueur_courant b2 = MorpionUltime.joueur_courant b) as Hjc.
  { unfold b2.
    now destruct (MorpionUltimeFaits.mettre_a_jour_plateaux
                    (MorpionUltime.apres_placement b sl sc p1)) as (_ & -> & _). }
  assert (forall x, x <> u -> ~ In x (adresses f) -> h3 !! x = h !! x) as F3.
  { intros x Hx Hin. unfold h3. rewrite lookup_insert_ne by congruence.
    rewrite F2 by exact Hx. apply F1.
    - intros ->. apply Hin, In_adresses_petit.
    - intros k ->. apply Hin, In_adresses_ligne. }
  destruct (MorpionUltime.jeu_termine b2) eqn:Ht2;
    [change (negb true) with false|change (negb false) with true]; cbv iota.
  - exists h3. split; [reflexivity|]. split; [|exact F3].
    rewrite <- Hjc. exact H3.
  - pose proof H3 as [Eu3 _].
    rewrite (bind_run _ _ _ _ _ (affecter_ultime_run u _ h3 _ _ _ _ _ Eu3)).
    eexists. split; [reflexivity|]. split.
    + simpl MorpionUltime.joueur_courant. rewrite Hjc.
      exact (repr_affecter _ _ _ _ _ _ _ _ H3).
    + intros x Hx Hin. rewrite lookup_insert_ne by congruence. now apply F3.
Qed.

(** *** Sequences of moves, and boards side by side *)

Lemma repr_meme h h' u f b :
  repr h u f b ->
  h' !! u = h !! u ->
  (forall x, In x (adresses f) -> h' !! x = h !! x) ->
  repr h' u f b.
Proof.
  intros [Eu Hp] Hu Hx. split; [now rewrite Hu|].
  intros i j. eapply repr_petit_meme; [apply Hp| |].
  - apply Hx, In_adresses_petit.
  - intros k. apply Hx, In_adresses_ligne.
Qed.

Lemma appliquer_spec h u f b mvs :
  repr h u f b ->
  NoDup (adresses f) ->
  exists rs h',
    appliquer u mvs h = Some (rs, h')
    /\ repr h' u f (MorpionUltime.appliquer b mvs)
    /\ (forall x, x <> u -> ~ In x (adresses f) -> h' !! x = h !! x).
Proof.
  intros H Hn. revert h b H.
  induction mvs as [|mv mvs IH]; intros h b H.
  - exists [], h. split; [reflexivity|]. split; [exact H|reflexivity].
  - destruct (jouer_coup_spec h u f b mv H Hn) as (h1 & E1 & H1 & F1).
    destruct (IH h1 _ H1) as (rs & h2 & E2 & H2 & F2).
    exists (fst (MorpionUltime.jouer_coup b mv) :: rs), h2.
    split; [|split].
    + unfold appliquer in *. simpl.
      rewrite (bind_run _ _ _ _ _ E1), (bind_run _ _ _ _ _ E2). reflexivity.
    + exact H2.
    + intros x Hx Hin. rewrite F2 by assumption. now apply F1.
Qed.

Lemma repr_dans_dom h u f b a : repr h u f b -> In a (adresses f) -> a ∈ dom h.
Proof.
  intros [_ Hp] Ha. apply In_adresses in Ha as (i & j & [->|[k ->]]).
  - apply elem_of_dom. destruct (Hp i j) as [-> _]. eauto.
  - apply elem_of_dom. destruct (Hp i j) as [_ Hl]. rewrite Hl. eauto.
Qed.

Lemma PetitPlateau_dupliquer_valeur p : PetitPlateau.dupliquer p = p.
Proof.
  destruct p as [[[[[x0 x1] x2] [[y0 y1] y2]] [[z0 z1] z2]] v t]. reflexivity.
Qed.

Lemma MorpionUltime_dupliquer_valeur b : MorpionUltime.dupliquer b = b.
Proof.
  destruct b as [[[[[a0 a1] a2] [[b0 b1] b2]] [[c0 c1] c2]] jc pa jt v].
  unfold MorpionUltime.dupliquer. simpl.
  now rewrite !PetitPlateau_dupliquer_valeur.
Qed.

(** C8 — For a well-formed board B in the store, [dupliquer] succeeds and
    returns a new object C that reads as a board equal to B in every field
    (cells, outcomes of the sub-boards, [plateau_actif], [joueur_courant],
    [jeu_termine], [vainqueur]); B still reads the same; B and C have no
    object or row in common; after any sequence of [jouer_coup] calls on C,
    B reads as before and C reads as the value-level result of these moves;
    and after any sequence of [jouer_coup] calls on B, C reads as before. *)
Theorem dupliquer_independant (h : tas) (u : adr) (b : MorpionUltime.t) :
  bien_forme h u b ->
  exists c h1,
    dupliquer u h = Some (c, h1)
    /\ valeur_ultime h1 c = Some b
    /\ valeur_ultime h1 u = Some b
    /\ bien_forme h1 c (MorpionUltime.dupliquer b)
    /\ separes h1 u c
    /\ (forall mvs, exists rs h2,
          appliquer c mvs h1 = Some (rs, h2)
          /\ valeur_ultime h2 u = Some b
          /\ valeur_ultime h2 c = Some (MorpionUltime.appliquer b mvs))
    /\ (forall mvs, exists rs h2,
          appliquer u mvs h1 = Some (rs, h2)
          /\ valeur_ultime h2 c = Some b
          /\ valeur_ultime h2 u = Some (MorpionUltime.appliquer b mvs)).
Proof.
  intros Hb. apply bien_forme_repr in Hb as (f & Hr & Hn).
  destruct (dupliquer_cree h u f b Hr) as (c & h1 & g & E & P1 & F1 & N1 & Hc).
  pose proof (repr_preserve _ _ _ _ _ Hr P1) as Hu.
  apply NoDup_cons in N1 as [Hcg Ng].
  assert (u ∈ dom h) as Hud by (apply elem_of_dom; destruct Hr as [-> _]; eauto).
  assert (u <> c) as Huc.
  { intros ->. destruct (F1 c) as [Hn' _]; [now left|contradiction]. }
  assert (forall a, In a (adresses f) -> In a (adresses g) -> False) as Hdisj.
  { intros a Ha Hg. destruct (F1 a) as [Hn' _]; [now right|].
    apply Hn'. eapply repr_dans_dom; eauto. }
  assert (forall a, In a (adresses g) -> a <> u) as Hgu.
  { intros a Ha ->. destruct (F1 u) as [Hn' _]; [now right|contradiction]. }
  assert (forall a, In a (adresses f) -> a <> c) as Hfc.
  { intros a Ha ->. destruct (F1 c) as [Hn' _]; [now left|].
    apply Hn'. eapply repr_dans_dom; eauto. }
  exists c, h1. split; [exact E|].
  split; [apply (repr_valeur _ _ _ _ Hc)|].
  split; [apply (repr_valeur _ _ _ _ Hu)|].
  split; [rewrite MorpionUltime_dupliquer_valeur; apply bien_forme_repr; eauto|].
  split.
  { split; [exact Huc|]. exists f, g.
    split; [apply (repr_valeur _ _ _ _ Hu)|].
    split; [apply (repr_valeur _ _ _ _ Hc)|exact Hdisj]. }
  split.
  - intros mvs.
    destruct (appliquer_spec h1 c g b mvs Hc Ng) as (rs & h2 & E2 & H2 & F2).
    exists rs, h2. split; [exact E2|]. split; [|apply (repr_valeur _ _ _ _ H2)].
    apply (repr_valeur h2 u f b). eapply repr_meme; [exact Hu| |].
    + apply F2; [exact Huc|]. intros Hin. now apply (Hgu u Hin).
    + intros x Hx. apply F2.
      * now apply Hfc.
      * intros Hg. exact (Hdisj x Hx Hg).
  - intros mvs.
    destruct (appliquer_spec h1 u f b mvs Hu Hn) as (rs & h2 & E2 & H2 & F2).
    exists rs, h2. split; [exact E2|]. split; [|apply (repr_valeur _ _ _ _ H2)].
    apply (repr_valeur h2 c g b). eapply repr_meme; [exact Hc| |].
    + apply F2; [congruence|]. intros Hin. now apply (Hfc c Hin).
    + intros x Hx. apply F2.
      * now apply Hgu.
      * intros Hf. exact (Hdisj x Hf Hx).
Qed.

Lemma dupliquer_independant_temoin :
  bien_forme tas_initial jeu_initial MorpionUltime.reinitialiser
  /\ exists c h1,
       dupliquer jeu_initial tas_initial = Some (c, h1)
       /\ valeur_ultime h1 c = Some MorpionUltime.reinitialiser
       /\ valeur_ultime h1 jeu_initial = Some MorpionUltime.reinitialiser
       /\ bien_forme h1 c (MorpionUltime.dupliquer MorpionUltime.reinitialiser)
       /\ separes h1 jeu_initial c
       /\ (forall mvs, exists rs h2,
             appliquer c mvs h1 = Some (rs, h2)
             /\ valeur_ultime h2 jeu_initial = Some MorpionUltime.reinitialiser
             /\ valeur_ultime h2 c
                = Some (MorpionUltime.appliquer MorpionUltime.reinitialiser mvs))
       /\ (forall mvs, exists rs h2,
             appliquer jeu_initial mvs h1 = Some (rs, h2)
             /\ valeur_ultime h2 c = Some MorpionUltime.reinitialiser
             /\ valeur_ultime h2 jeu_initial
                = Some (MorpionUltime.appliquer MorpionUltime.reinitialiser mvs)).
Proof.
  assert (bien_forme tas_initial jeu_initial MorpionUltime.reinitialiser) as H.
  { split; [vm_compute; reflexivity|].
    eexists. split; [vm_compute; reflexivity|].
    apply (@bool_decide_unpack _ (NoDup_dec (A := positive) _)).
    vm_compute. exact I. }
  split; [exact H|].
  exact (dupliquer_independant tas_initial jeu_initial MorpionUltime.reinitialiser H).
Defined.

End TasFaits.

(** * Further properties of the rules engine *)

Module Partie.
Import MorpionUltime.
Import PetitPlateauFaits MorpionUltimeFaits Contrainte.

(** ** Every accepted move fills one empty cell *)

Lemma somme3_set3 {A} (f : A -> nat) (t : tri A) i v :
  (somme3 f (set3 t i v) + f (get3 t i) = somme3 f t + f v)%nat.
Proof. destruct t as [[a b] c], i; simpl; lia. Qed.

Lemma somme3_set2 {A} (f : A -> nat) (g : tri (tri A)) l c v :
  (somme3 (somme3 f) (set2 g l c v) + f (get2 g l c)
   = somme3 (somme3 f) g + f v)%nat.
Proof.
  unfold set2, get2.
  pose proof (somme3_set3 (somme3 f) g l (set3 (get3 g l) c v)) as H1.
  pose proof (somme3_set3 f (get3 g l) c v) as H2. lia.
Qed.

Lemma pp_nb_vides_verifier_etat p j :
  pp_nb_vides (PetitPlateau.verifier_etat p j) = pp_nb_vides p.
Proof. unfold pp_nb_vides. now rewrite verifier_etat_plateau. Qed.

Lemma pp_jouer_coup_nb_vides p l c j p' :
  PetitPlateau.jouer_coup p l c j = (true, p') ->
  (pp_nb_vides p' + 1 = pp_nb_vides p)%nat.
Proof.
  intros E. apply jouer_coup_succes in E as (il & ic & _ & _ & Hv & _ & ->).
  rewrite pp_nb_vides_verifier_etat. unfold pp_nb_vides. simpl.
  pose proof (somme3_set2 vide_1 (PetitPlateau.plateau p) il ic (Pion j)) as H.
  rewrite Hv in H. simpl in H. lia.
Qed.

Lemma jouer_coup_nb_vides self mv self' :
  jouer_coup self mv = (true, self') -> (nb_vides self' + 1 = nb_vides self)%nat.
Proof.
  intros E. destruct mv as [[[sp_l sp_c] cel_l] cel_c].
  destruct (jouer_coup_vrai _ _ _ E) as [Hv Ht].
  destruct (jouer_coup_accepte _ _ _ _ _ Hv Ht)
    as (sl & sc & cl & cc & p1 & _ & _ & _ & _ & Ep & E').
  cbv zeta in E'. rewrite E in E'. injection E' as E''. rewrite E''.
  unfold nb_vides. simpl.
  destruct (mettre_a_jour_plateaux (apres_placement self sl sc p1)) as (-> & _).
  simpl.
  pose proof (somme3_set2 pp_nb_vides (plateaux self) sl sc p1) as H.
  pose proof (pp_jouer_coup_nb_vides _ _ _ _ _ Ep). lia.
Qed.

Lemma jouer_partie_nb_vides (b0 : t) (l : list coup) (b : t) :
  jouer_partie b0 l = Some b -> (nb_vides b + length l = nb_vides b0)%nat.
Proof.
  revert b0. induction l as [|mv l IH]; intros b0 H; simpl in *.
  - injection H as <-. lia.
  - destruct (jouer_coup b0 mv) as [[|] b1] eqn:E1; [|discriminate].
    apply IH in H. apply jouer_coup_nb_vides in E1. lia.
Qed.

(** A game of [n] accepted moves from the initial position leaves exactly
    [81 - n] empty cells; it has at most 81 moves. *)
Theorem partie_au_plus_81_coups (l : list coup) (b : t) :
  jouer_partie reinitialiser l = Some b ->
  (nb_vides b + length l = 81)%nat /\ (length l <= 81)%nat.
Proof.
  intros H. apply jouer_partie_nb_vides in H.
  change (nb_vides reinitialiser) with 81%nat in H. lia.
Qed.

Lemma partie_au_plus_81_coups_temoin :
  jouer_partie reinitialiser partie_gagnee = Some (position_apres partie_gagnee)
  /\ (nb_vides (position_apres partie_gagnee) + length partie_gagnee = 81)%nat
  /\ (length partie_gagnee <= 81)%nat.
Proof.
  assert (jouer_partie reinitialiser partie_gagnee
          = Some (position_apres partie_gagnee)) as H by (vm_compute; reflexivity).
  split; [exact H|].
  exact (partie_au_plus_81_coups partie_gagnee _ H).
Defined.

End Partie.

(** ** The outcome of a sub-board agrees with its grid *)

Module IssueSousPlateau.
Import PetitPlateau.
Import PetitPlateauFaits.

Lemma diagonale_chaine (a b c : case) (j : joueur) :
  case_eqb a b && case_eqb b c && case_eqb c (Pion j)
  = case_eqb a (Pion j) && case_eqb b (Pion j) && case_eqb c (Pion j).
Proof.
  destruct a as [|[|]], b as [|[|]], c as [|[|]], j; reflexivity.
Qed.

(** The tests of [verifier_etat] look at the eight lines. *)
Lemma verifier_etat_lignes self j :
  existsb (ligne_ou_colonne self j) range3 || diagonales self j
  = a_une_ligne (plateau self) j.
Proof.
  unfold diagonales. cbv zeta. rewrite !diagonale_chaine.
  unfold a_une_ligne, ligne_ou_colonne, MorpionUltime.combinaisons, range3.
  simpl.
  generalize (case_eqb (get2 (plateau self) I0 I0) (Pion j)).
  generalize (case_eqb (get2 (plateau self) I0 I1) (Pion j)).
  generalize (case_eqb (get2 (plateau self) I0 I2) (Pion j)).
  generalize (case_eqb (get2 (plateau self) I1 I0) (Pion j)).
  generalize (case_eqb (get2 (plateau self) I1 I1) (Pion j)).
  generalize (case_eqb (get2 (plateau self) I1 I2) (Pion j)).
  generalize (case_eqb (get2 (plateau self) I2 I0) (Pion j)).
  generalize (case_eqb (get2 (plateau self) I2 I1) (Pion j)).
  generalize (case_eqb (get2 (plateau self) I2 I2) (Pion j)).
  intros [] [] [] [] [] [] [] [] []; reflexivity.
Qed.

(** Placing [j] creates no line of the other symbol. *)
Lemma ligne_de_l_autre g il ic j j' :
  j' <> j ->
  a_une_ligne (set2 g il ic (Pion j)) j' = true -> a_une_ligne g j' = true.
Proof.
  intros Hj. unfold a_une_ligne. rewrite !existsb_exists.
  intros (combo & Hin & H). exists combo. split; [exact Hin|].
  rewrite forallb_forall in *. intros [r c] Hrc. specialize (H _ Hrc). simpl in *.
  destruct (decide ((il, ic) = (r, c))) as [[= <- <-]|Hne].
  - rewrite get2_set2_eq in H. apply case_eqb_eq in H. congruence.
  - now rewrite get2_set2_ne in H.
Qed.

Lemma etat_juste_reinitialiser : etat_juste reinitialiser.
Proof.
  unfold etat_juste. simpl. split; [reflexivity|]. split; [reflexivity|].
  intros []; reflexivity.
Qed.

Lemma etat_juste_jouer_coup self l c j :
  coherent self -> etat_juste self -> etat_juste (snd (jouer_coup self l c j)).
Proof.
  intros Hc Hj. destruct (jouer_coup self l c j) as [[|] self'] eqn:E; simpl.
  2:{ now apply jouer_coup_echec in E as [-> _]. }
  apply jouer_coup_succes in E as (il & ic & _ & _ & Hv & Ht & ->).
  assert (vainqueur self = None) as Hn.
  { destruct (vainqueur self) eqn:Ev; [|reflexivity].
    assert (jeu_termine self = true) by (apply Hc; congruence). congruence. }
  unfold etat_juste in Hj. rewrite Hn in Hj. destruct Hj as (_ & _ & Hl).
  set (self1 := {| plateau := set2 (plateau self) il ic (Pion j);
                   vainqueur := vainqueur self;
                   jeu_termine := jeu_termine self |}).
  assert (forall j', j' <> j -> a_une_ligne (plateau self1) j' = false) as Hautre.
  { intros j' Hne. destruct (a_une_ligne (plateau self1) j') eqn:Ea; [|reflexivity].
    apply ligne_de_l_autre in Ea; [|exact Hne]. now rewrite Hl in Ea. }
  pose proof (verifier_etat_lignes self1 j) as Hcode.
  unfold verifier_etat, etat_juste.
  destruct (existsb (ligne_ou_colonne self1 j) range3) eqn:E1.
  { split; [reflexivity|]. symmetry. exact Hcode. }
  destruct (diagonales self1 j) eqn:E2.
  { split; [reflexivity|]. symmetry. exact Hcode. }
  change (false || false) with false in Hcode.
  assert (forall j', a_une_ligne (plateau self1) j' = false) as Htous.
  { intros j'. destruct (decide (j' = j)) as [->|Hne]; [now symmetry|].
    now apply Hautre. }
  destruct (est_nul self1) eqn:E3.
  - split; [reflexivity|]. split; [exact E3|exact Htous].
  - change (vainqueur self1) with (vainqueur self). rewrite Hn.
    split; [exact Ht|]. split; [exact E3|exact Htous].
Qed.

(** On every sub-board built by the program (a fresh one, then calls of
    [jouer_coup] with any symbols): if [vainqueur] is [None] the sub-board
    is in progress, has an empty cell and no line of three; if it is a
    symbol, the sub-board is finished and that symbol fills a line; if it is
    ["DRAW"], the sub-board is finished, full, and no symbol fills a line. *)
Theorem issue_conforme_a_la_grille (p : t) : atteint p -> etat_juste p.
Proof.
  induction 1 as [|self l c j Ha IH]; [apply etat_juste_reinitialiser|].
  apply etat_juste_jouer_coup; [now apply atteint_coherent|exact IH].
Qed.

Lemma issue_conforme_a_la_grille_temoin :
  etat_juste
    (snd (jouer_coup (snd (jouer_coup (snd (jouer_coup reinitialiser 0 0 jX)) 1 1 jX))
            2 2 jX)).
Proof.
  apply issue_conforme_a_la_grille.
  repeat apply atteint_coup. apply atteint_neuf.
Defined.

End IssueSousPlateau.

(** ** A game in progress always has a legal move *)

Module PartieEnCours.
Import MorpionUltime.
Import PetitPlateauFaits MorpionUltimeFaits CoupsValides Contrainte SousPlateauTermine.

Lemma forallb_faux {A} (f : A -> bool) (l : list A) :
  forallb f l = false -> exists x, In x l /\ f x = false.
Proof.
  induction l as [|a l IH]; simpl; [discriminate|].
  destruct (f a) eqn:E; simpl.
  - intros H. destruct (IH H) as (x & Hx & Hf). eauto.
  - intros _. exists a. auto.
Qed.

(** A sub-board in progress built by the program has a playable cell. *)
Lemma sous_plateau_en_cours_jouable p :
  PetitPlateau.atteint p -> PetitPlateau.jeu_termine p = false ->
  exists i j, PetitPlateau.coup_valide p (Z_of_idx i) (Z_of_idx j) = true.
Proof.
  intros Ha Ht.
  assert (etat_juste p) as Hj.
  { clear Ht. induction Ha as [|self l c j Ha IH];
      [apply IssueSousPlateau.etat_juste_reinitialiser|].
    apply IssueSousPlateau.etat_juste_jouer_coup;
      [now apply atteint_coherent|exact IH]. }
  unfold etat_juste in Hj.
  destruct (PetitPlateau.vainqueur p) as [[w|]|];
    [destruct Hj; congruence| destruct Hj; congruence|].
  destruct Hj as (_ & Hn & _). unfold PetitPlateau.est_nul in Hn.
  apply forallb_faux in Hn as (i & _ & Hn).
  apply forallb_faux in Hn as (j & _ & Hn).
  exists i, j. unfold PetitPlateau.coup_valide.
  rewrite !idx_of_Z_of_idx, Ht.
  destruct (case_eqb _ Vide); [reflexivity|discriminate].
Qed.

Lemma en_cours_pas_tous_termines dernier self :
  suite reinitialiser dernier self ->
  jeu_termine self = false -> tous_termines self = false.
Proof.
  intros H. destruct H as [|dernier self mv self' _ E]; [reflexivity|].
  destruct mv as [[[sp_l sp_c] cel_l] cel_c].
  destruct (jouer_coup_vrai _ _ _ E) as [Hv Ht].
  destruct (jouer_coup_accepte _ _ _ _ _ Hv Ht)
    as (sl & sc & cl & cc & p1 & _ & _ & _ & _ & _ & E').
  cbv zeta in E'. rewrite E in E'. injection E' as E''. rewrite E''. simpl.
  unfold tous_termines. simpl.
  destruct (mettre_a_jour_plateaux (apres_placement self sl sc p1)) as (Hp & _).
  rewrite Hp.
  unfold mettre_a_jour_etat_global.
  destruct (victoire_globale _); [discriminate|].
  destruct (tous_termines (apres_placement self sl sc p1)) eqn:Ett; [discriminate|].
  intros _. exact Ett.
Qed.

Lemma actif_en_cours dernier self r c :
  suite reinitialiser dernier self ->
  plateau_actif self = Some (r, c) ->
  PetitPlateau.jeu_termine (get2 (plateaux self) r c) = false.
Proof.
  intros H. destruct H as [|dernier self [[[sp_l sp_c] cel_l] cel_c] self' _ E];
    [discriminate|].
  destruct (actif_apres_coup _ _ _ _ _ _ E) as (r' & c' & _ & _ & Ha).
  rewrite Ha.
  destruct (PetitPlateau.jeu_termine (get2 (plateaux self') r' c')) eqn:Et;
    [discriminate|].
  now intros [= <- <-].
Qed.

Lemma coup_valide_existe (dernier : option coup) (self : t) :
  suite reinitialiser dernier self ->
  jeu_termine self = false ->
  exists mv, coup_valide self mv = true.
Proof.
  intros Hs Ht.
  { destruct (plateau_actif self) as [[r c]|] eqn:Ea.
    - pose proof (actif_en_cours _ _ _ _ Hs Ea) as Hrc.
      destruct (sous_plateau_en_cours_jouable _ (suite_sous_plateaux _ _ r c Hs) Hrc)
        as (i & j & Hv).
      exists (Z_of_idx r, Z_of_idx c, Z_of_idx i, Z_of_idx j).
      unfold coup_valide, actif_compatible.
      rewrite !idx_of_Z_of_idx, Hrc, Ea.
      destruct r, c; exact Hv.
    - pose proof (en_cours_pas_tous_termines _ _ Hs Ht) as Htt.
      unfold tous_termines in Htt.
      apply forallb_faux in Htt as (r & _ & Htt).
      apply forallb_faux in Htt as (c & _ & Hrc).
      destruct (sous_plateau_en_cours_jouable _ (suite_sous_plateaux _ _ r c Hs) Hrc)
        as (i & j & Hv).
      exists (Z_of_idx r, Z_of_idx c, Z_of_idx i, Z_of_idx j).
      unfold coup_valide, actif_compatible.
      rewrite !idx_of_Z_of_idx, Hrc, Ea. exact Hv. }
Qed.

Lemma partie_en_cours_a_un_coup_lemme (dernier : option coup) (self : t) :
  suite reinitialiser dernier self ->
  jeu_termine self = false ->
  obtenir_coups_valides self <> [].
Proof.
  intros Hs Ht. destruct (coup_valide_existe _ _ Hs Ht) as [mv Hmv].
  apply In_obtenir_coups_valides in Hmv. intros E. rewrite E in Hmv. destruct Hmv.
Qed.

(** On every board of a game played from the initial position, as long as
    [jeu_termine] is [False], [obtenir_coups_valides] is not empty and
    [jouer_coup] accepts one of its moves. *)
Theorem partie_en_cours_a_un_coup (dernier : option coup) (self : t) :
  suite reinitialiser dernier self ->
  jeu_termine self = false ->
  obtenir_coups_valides self <> []
  /\ exists mv, In mv (obtenir_coups_valides self)
                /\ fst (jouer_coup self mv) = true.
Proof.
  intros Hs Ht. destruct (coup_valide_existe _ _ Hs Ht) as [mv Hmv].
  assert (In mv (obtenir_coups_valides self)) as Hin
    by now apply In_obtenir_coups_valides.
  split.
  - intros E. rewrite E in Hin. destruct Hin.
  - exists mv. split; [exact Hin|].
    now rewrite jouer_coup_resultat, Hmv, Ht.
Qed.

Lemma partie_en_cours_a_un_coup_temoin :
  suite reinitialiser (Some (0, 0, 1, 2)) (snd (jouer_coup reinitialiser (0, 0, 1, 2)))
  /\ obtenir_coups_valides (snd (jouer_coup reinitialiser (0, 0, 1, 2))) <> [].
Proof.
  assert (suite reinitialiser (Some (0, 0, 1, 2))
            (snd (jouer_coup reinitialiser (0, 0, 1, 2)))) as Hs.
  { apply (suite_coup reinitialiser None reinitialiser);
      [apply suite_debut|reflexivity]. }
  split; [exact Hs|].
  exact (proj1 (partie_en_cours_a_un_coup _ _ Hs eq_refl)).
Defined.

End PartieEnCours.

(** ** During a game every strategy selects a move that is accepted *)

Module SelectionEnCours.
Import MorpionUltime.
Import MorpionUltimeFaits CoupsValides Contrainte Strategies Choix PartieEnCours.

Lemma simuler_suite dernier partie mv :
  suite reinitialiser dernier partie ->
  jeu_termine partie = false ->
  In mv (obtenir_coups_valides partie) ->
  suite reinitialiser (Some mv) (simuler partie mv).
Proof.
  intros Hs Ht Hin. apply In_obtenir_coups_valides in Hin.
  unfold simuler. rewrite TasFaits.MorpionUltime_dupliquer_valeur.
  apply (suite_coup reinitialiser dernier partie); [exact Hs|].
  pose proof (jouer_coup_resultat partie mv) as H. rewrite Hin, Ht in H.
  destruct (jouer_coup partie mv) as [ok b']. simpl in *. now subst ok.
Qed.

Lemma score_max_fini a z : a = MoinsInf \/ est_fini a -> est_fini (score_max a (Fini z)).
Proof.
  intros [->|[x ->]]; unfold score_max, score_gtb, score_ltb.
  - now exists z.
  - destruct (x <? z); eexists; reflexivity.
Qed.

Lemma score_min_fini a z : a = PlusInf \/ est_fini a -> est_fini (score_min a (Fini z)).
Proof.
  intros [->|[x ->]]; unfold score_min, score_ltb.
  - now exists z.
  - destruct (z <? x); eexists; reflexivity.
Qed.

Lemma boucle_max_fini f partie l :
  (forall mv a b, In mv l -> est_fini (f (simuler partie mv) a b)) ->
  forall val alpha beta,
    (val = MoinsInf /\ l <> []) \/ est_fini val ->
    est_fini (IADifficile.boucle_max f partie l val alpha beta).
Proof.
  induction l as [|mv l IH]; intros Hf val alpha beta Hval; simpl.
  - destruct Hval as [[_ H]|H]; [contradiction|exact H].
  - destruct (Hf mv alpha beta (or_introl eq_refl)) as [z Ez]. rewrite Ez.
    assert (est_fini (score_max val (Fini z))) as Hv.
    { apply score_max_fini. destruct Hval as [[-> _]|H]; auto. }
    destruct (score_geb _ _); [exact Hv|].
    apply IH; [|now right]. intros mv' a b Hin. apply Hf. now right.
Qed.

Lemma boucle_min_fini f partie l :
  (forall mv a b, In mv l -> est_fini (f (simuler partie mv) a b)) ->
  forall val alpha beta,
    (val = PlusInf /\ l <> []) \/ est_fini val ->
    est_fini (IADifficile.boucle_min f partie l val alpha beta).
Proof.
  induction l as [|mv l IH]; intros Hf val alpha beta Hval; simpl.
  - destruct Hval as [[_ H]|H]; [contradiction|exact H].
  - destruct (Hf mv alpha beta (or_introl eq_refl)) as [z Ez]. rewrite Ez.
    assert (est_fini (score_min val (Fini z))) as Hv.
    { apply score_min_fini. destruct Hval as [[-> _]|H]; auto. }
    destruct (score_geb _ _); [exact Hv|].
    apply IH; [|now right]. intros mv' a b Hin. apply Hf. now right.
Qed.

(** On the boards of a game the search of [IADifficile] never returns an
    infinite value. *)
Lemma IADifficile_minimax_fini ia reste :
  forall dernier partie alpha beta est_max,
    suite reinitialiser dernier partie ->
    est_fini (IADifficile.minimax ia reste partie alpha beta est_max).
Proof.
  induction reste as [|reste IH]; intros dernier partie alpha beta est_max Hs; simpl.
  - eexists; reflexivity.
  - destruct (jeu_termine partie) eqn:Ht; [eexists; reflexivity|].
    pose proof (partie_en_cours_a_un_coup_lemme dernier partie Hs Ht) as Hne.
    destruct est_max.
    + apply boucle_max_fini; [|now left].
      intros mv a b Hin. eapply IH. eapply simuler_suite; eauto.
    + apply boucle_min_fini; [|now left].
      intros mv a b Hin. eapply IH. eapply simuler_suite; eauto.
Qed.

Lemma accepte_en_cours partie mv :
  jeu_termine partie = false ->
  In mv (obtenir_coups_valides partie) ->
  fst (jouer_coup partie mv) = true.
Proof.
  intros Ht Hin. apply In_obtenir_coups_valides in Hin.
  now rewrite jouer_coup_resultat, Hin, Ht.
Qed.

Lemma IAMoyenne_meilleurs_non_vide ia partie l :
  l <> [] ->
  snd (fold_left (IAMoyenne.pas ia partie) l (MoinsInf, [])) <> [].
Proof.
  destruct l as [|mv l]; [contradiction|]. intros _. cbn [fold_left].
  apply (fold_left_invariant (IAMoyenne.pas ia partie) (fun st => snd st <> [])).
  - unfold IAMoyenne.pas.
    destruct (IAMoyenne.minimax _ _ _ _) as [|z|]; simpl; discriminate.
  - intros [s ms] a _ Hs. unfold IAMoyenne.pas.
    destruct (score_gtb _ _); [simpl; discriminate|].
    destruct (score_eqb _ _); simpl; [|exact Hs].
    intros E. apply app_eq_nil in E as [_ E]. discriminate.
Qed.

Lemma IADifficile_choisit ia dernier partie :
  suite reinitialiser dernier partie ->
  jeu_termine partie = false ->
  exists mv, IADifficile.get_move ia partie = Some mv.
Proof.
  intros Hs Ht.
  pose proof (partie_en_cours_a_un_coup_lemme _ _ Hs Ht) as Hne.
  unfold IADifficile.get_move.
  destruct (obtenir_coups_valides partie) as [|mv l] eqn:El; [contradiction|].
  cbn [fold_left].
  assert (exists s m a, IADifficile.pas ia partie (MoinsInf, None, MoinsInf) mv
                        = (s, Some m, a)) as (s & m & a & E1).
  { unfold IADifficile.pas.
    destruct (IADifficile_minimax_fini ia (IADifficile.profondeur_max - 1)
                (Some mv) (simuler partie mv) MoinsInf PlusInf false) as [z Ez].
    { eapply simuler_suite; eauto. rewrite El. now left. }
    rewrite Ez. simpl. eauto. }
  rewrite E1.
  assert (forall st, (exists m', snd (fst st) = Some m') ->
            exists m', snd (fst (fold_left (IADifficile.pas ia partie) l st)) = Some m')
    as Hinv.
  { intros st Hst.
    apply (fold_left_invariant (IADifficile.pas ia partie)
             (fun st => exists m', snd (fst st) = Some m')); [exact Hst|].
    intros [[s' c'] a'] x _ [m' Hm']. unfold IADifficile.pas.
    destruct (score_gtb _ _); simpl; eauto. }
  apply Hinv. simpl. eauto.
Qed.

Lemma strategies_jouent_lemme
    (dernier : option coup) (partie : t) (ia : joueur) (r : alea) :
  suite reinitialiser dernier partie ->
  jeu_termine partie = false ->
  (exists mv, IAFacile.get_move ia partie = Some mv
              /\ fst (jouer_coup partie mv) = true)
  /\ (exists mv, IAMoyenne.get_move ia r partie = Renvoie mv
                 /\ fst (jouer_coup partie mv) = true)
  /\ (exists mv, IADifficile.get_move ia partie = Some mv
                 /\ fst (jouer_coup partie mv) = true).
Proof.
  intros Hs Ht.
  pose proof (partie_en_cours_a_un_coup_lemme _ _ Hs Ht) as Hne.
  split; [|split].
  - destruct (IAFacile_boucle_prefixe ia partie (obtenir_coups_valides partie))
      as [[E _]|(avant & mv & apres & _ & Ef & _)]; [contradiction|].
    assert (IAFacile.get_move ia partie = Some mv) as Em.
    { unfold IAFacile.get_move, IAFacile.boucle. rewrite Ef. reflexivity. }
    exists mv. split; [exact Em|].
    apply accepte_en_cours; [exact Ht|]. now apply (IAFacile_dans_la_liste ia).
  - assert (exists mv, IAMoyenne.get_move ia r partie = Renvoie mv) as [mv Em].
    { unfold IAMoyenne.get_move. destruct (erreur_strategique r).
      - now apply random_choice_non_vide.
      - pose proof (IAMoyenne_meilleurs_non_vide ia partie _ Hne) as Hm.
        destruct (fold_left _ _ _) as [s ms]. simpl in Hm.
        now apply random_choice_non_vide. }
    exists mv. split; [exact Em|].
    apply accepte_en_cours; [exact Ht|]. now apply (IAMoyenne_dans_la_liste ia r).
  - destruct (IADifficile_choisit ia _ _ Hs Ht) as [mv Em].
    exists mv. split; [exact Em|].
    apply accepte_en_cours; [exact Ht|]. now apply (IADifficile_dans_la_liste ia).
Qed.

(** On every board of a game played from the initial position, as long as
    [jeu_termine] is [False]: [IAFacile.get_move] and
    [IADifficile.get_move] return a move (never [None]),
    [IAMoyenne.get_move] returns a move (it does not raise) whatever the
    random source draws, and [jouer_coup] accepts the move returned. *)
Theorem strategies_jouent_en_cours
    (dernier : option coup) (partie : t) (ia : joueur) (r : alea) :
  suite reinitialiser dernier partie ->
  jeu_termine partie = false ->
  (exists mv, IAFacile.get_move ia partie = Some mv
              /\ fst (jouer_coup partie mv) = true)
  /\ (exists mv, IAMoyenne.get_move ia r partie = Renvoie mv
                 /\ fst (jouer_coup partie mv) = true)
  /\ (exists mv, IADifficile.get_move ia partie = Some mv
                 /\ fst (jouer_coup partie mv) = true).
Proof.
  apply strategies_jouent_lemme.
Qed.

Lemma strategies_jouent_en_cours_temoin :
  suite reinitialiser None reinitialiser
  /\ jeu_termine reinitialiser = false
  /\ exists mv, IAFacile.get_move jX reinitialiser = Some mv
                /\ fst (jouer_coup reinitialiser mv) = true.
Proof.
  split; [apply suite_debut|]. split; [reflexivity|].
  exact (proj1 (strategies_jouent_en_cours None reinitialiser jX
                  {| erreur_strategique := false; indice_choisi := 0 |}
                  (suite_debut reinitialiser) eq_refl)).
Defined.

End SelectionEnCours.

(** ** The heuristics seen from the two sides *)

Module Heuristique.
Import MorpionUltime.

Lemma autre_autre j : autre (autre j) = j.
Proof. now destruct j. Qed.

Lemma evaluer_ligne_autre ligne j :
  evaluer_ligne ligne (autre j) = - evaluer_ligne ligne j.
Proof.
  unfold evaluer_ligne, autre. destruct j; cbn [joueur_eqb];
    destruct (contient ligne jX), (contient ligne jO); cbn [andb]; lia.
Qed.

Lemma evaluer_sous_plateau_autre p j :
  evaluer_sous_plateau p (autre j) = - evaluer_sous_plateau p j.
Proof.
  unfold evaluer_sous_plateau, range3. cbn [fold_left].
  rewrite !evaluer_ligne_autre.
  assert ((if case_eqb (get2 (PetitPlateau.plateau p) I1 I1) (Pion (autre j))
           then 0 + 20
           else if case_eqb (get2 (PetitPlateau.plateau p) I1 I1)
                     (Pion (if joueur_eqb (autre j) jX then jO else jX))
                then 0 - 20 else 0)
          = - (if case_eqb (get2 (PetitPlateau.plateau p) I1 I1) (Pion j)
               then 0 + 20
               else if case_eqb (get2 (PetitPlateau.plateau p) I1 I1)
                         (Pion (if joueur_eqb j jX then jO else jX))
                    then 0 - 20 else 0)) as ->.
  { destruct (get2 (PetitPlateau.plateau p) I1 I1) as [|[|]], j; reflexivity. }
  lia.
Qed.

Lemma part_sous_plateau_autre sp j :
  part_sous_plateau sp (autre j) = - part_sous_plateau sp j.
Proof.
  unfold part_sous_plateau.
  destruct (PetitPlateau.vainqueur sp) as [[w|]|];
    try apply evaluer_sous_plateau_autre.
  destruct w, j; reflexivity.
Qed.

Lemma evaluer_ultime_autre partie j :
  evaluer_ultime partie (autre j) = - evaluer_ultime partie j.
Proof.
  unfold evaluer_ultime, range3. cbn [fold_left].
  rewrite !evaluer_ligne_autre, !part_sous_plateau_autre. lia.
Qed.

(** The fork adjustment of a sub-board, as an amount added to the score. *)
Lemma fourches_decale sp j score :
  fourches sp j score = score + fourches sp j 0.
Proof.
  unfold fourches. cbv zeta.
  destruct (_ >=? 2), (_ >=? 2); lia.
Qed.

Lemma fourches_autre sp j : fourches sp (autre j) 0 = - fourches sp j 0.
Proof.
  unfold fourches. cbv zeta.
  replace (if joueur_eqb (autre j) jX then jO else jX) with j by now destruct j.
  change (if joueur_eqb j jX then jO else jX) with (autre j).
  destruct (_ >=? 2), (_ >=? 2); lia.
Qed.

Lemma fourches_etape sp j score :
  (if PetitPlateau.jeu_termine sp then score else fourches sp j score)
  = score + ajustement_fourches sp j.
Proof.
  unfold ajustement_fourches. destruct (PetitPlateau.jeu_termine sp); [lia|].
  apply fourches_decale.
Qed.

Lemma ajustement_fourches_autre sp j :
  ajustement_fourches sp (autre j) = - ajustement_fourches sp j.
Proof.
  unfold ajustement_fourches. destruct (PetitPlateau.jeu_termine sp); [reflexivity|].
  apply fourches_autre.
Qed.

(** The baseline score is zero-sum: seen from the other symbol it is the
    opposite.  The advanced score is not: its two perspectives add up to
    twice the number of legal moves, the mobility bonus being counted for
    whoever evaluates. *)
Theorem evaluations_des_deux_cotes (partie : t) (j : joueur) :
  evaluer_ultime partie (autre j) = - evaluer_ultime partie j
  /\ evaluer_difficile partie j + evaluer_difficile partie (autre j)
     = 2 * Z.of_nat (length (obtenir_coups_valides partie)).
Proof.
  split; [apply evaluer_ultime_autre|].
  unfold evaluer_difficile, range3. cbn [fold_left]. cbv zeta.
  rewrite !fourches_etape, evaluer_ultime_autre, !ajustement_fourches_autre.
  lia.
Qed.

End Heuristique.

(** ** What a drawn sub-board weighs in the baseline score *)

Module SousPlateauNul.
Import PetitPlateau.
Import PetitPlateauFaits.

(** A full line that neither symbol fills holds both symbols. *)
Lemma ligne_mixte (a b c : case) (j : joueur) :
  a <> Vide -> b <> Vide -> c <> Vide ->
  forallb (fun x => case_eqb x (Pion jX)) [a; b; c] = false ->
  forallb (fun x => case_eqb x (Pion jO)) [a; b; c] = false ->
  evaluer_ligne [a; b; c] j = 0.
Proof.
  destruct a as [|[|]], b as [|[|]], c as [|[|]], j;
    simpl; intros; try congruence; reflexivity.
Qed.

Lemma existsb_faux {A} (f : A -> bool) (l : list A) x :
  existsb f l = false -> In x l -> f x = false.
Proof.
  intros H Hin. destruct (f x) eqn:E; [|reflexivity].
  assert (existsb f l = true) by (apply existsb_exists; eauto). congruence.
Qed.

Lemma liste3_get3 {A} (t : tri A) : liste3 t = [get3 t I0; get3 t I1; get3 t I2].
Proof. now destruct t as [[a b] c]. Qed.

(** The eight lists [evaluer_sous_plateau] scores, on a full grid without
    line. *)
Lemma lignes_nulles (g : tri (tri case)) (j : joueur) :
  (forall r c, get2 g r c <> Vide) ->
  (forall w, a_une_ligne g w = false) ->
  (forall r, evaluer_ligne (liste3 (get3 g r)) j = 0)
  /\ (forall c, evaluer_ligne (colonne g c) j = 0)
  /\ evaluer_ligne (diag1 g) j = 0
  /\ evaluer_ligne (diag2 g) j = 0.
Proof.
  intros Hplein Hsans.
  assert (forall w combo, In combo MorpionUltime.combinaisons ->
            forallb (fun rc => case_eqb (get2 g (fst rc) (snd rc)) (Pion w)) combo
            = false) as Hc.
  { intros w combo Hin.
    exact (existsb_faux _ _ combo (Hsans w) Hin). }
  assert (forall a b c : idx * idx,
            In [a; b; c] MorpionUltime.combinaisons ->
            evaluer_ligne [get2 g (fst a) (snd a); get2 g (fst b) (snd b);
                           get2 g (fst c) (snd c)] j = 0) as Hl.
  { intros a b c Hin. apply ligne_mixte; try apply Hplein.
    - exact (Hc jX _ Hin).
    - exact (Hc jO _ Hin). }
  split; [|split; [|split]].
  - intros r. rewrite liste3_get3.
    apply (Hl (r, I0) (r, I1) (r, I2)). destruct r; simpl; auto 10.
  - intros c. apply (Hl (I0, c) (I1, c) (I2, c)). destruct c; simpl; auto 10.
  - apply (Hl (I0, I0) (I1, I1) (I2, I2)). simpl; auto 10.
  - apply (Hl (I0, I2) (I1, I1) (I2, I0)). simpl; auto 10.
Qed.

Lemma sous_plateau_nul_centre (p : t) (j : joueur) :
  atteint p ->
  vainqueur p = Some DRAW ->
  part_sous_plateau p j
  = (if case_eqb (get2 (plateau p) I1 I1) (Pion j) then 20 else -20)
  /\ part_sous_plateau p j <> 0.
Proof.
  intros Ha Hv.
  assert (etat_juste p) as Hj.
  { clear Hv. induction Ha as [|self l c w Ha IH];
      [apply IssueSousPlateau.etat_juste_reinitialiser|].
    apply IssueSousPlateau.etat_juste_jouer_coup;
      [now apply atteint_coherent|exact IH]. }
  unfold etat_juste in Hj. rewrite Hv in Hj. destruct Hj as (_ & Hn & Hs).
  assert (forall r c, get2 (plateau p) r c <> Vide) as Hplein.
  { intros r c E. unfold est_nul in Hn. rewrite forallb_forall in Hn.
    specialize (Hn r (In_range3 r)). rewrite forallb_forall in Hn.
    specialize (Hn c (In_range3 c)). rewrite E in Hn. discriminate. }
  destruct (lignes_nulles (plateau p) j Hplein Hs) as (Hr & Hc & Hd1 & Hd2).
  assert (part_sous_plateau p j
          = (if case_eqb (get2 (plateau p) I1 I1) (Pion j) then 20 else -20)) as E.
  { unfold part_sous_plateau. rewrite Hv.
    unfold evaluer_sous_plateau, range3. cbn [fold_left].
    rewrite !Hr, !Hc, Hd1, Hd2.
    pose proof (Hplein I1 I1) as Hcentre.
    destruct (get2 (plateau p) I1 I1) as [|[|]], j; try congruence; reflexivity. }
  split; [exact E|]. rewrite E. destruct (case_eqb _ _); discriminate.
Qed.

(** For every drawn sub-board built by the program, the first loop of
    [evaluer_ultime] adds +20 when the centre cell holds the evaluating
    symbol and -20 when it holds the other one; it never adds 0. *)
Theorem sous_plateau_nul_vaut_son_centre (p : t) (j : joueur) :
  atteint p ->
  vainqueur p = Some DRAW ->
  part_sous_plateau p j
  = (if case_eqb (get2 (plateau p) I1 I1) (Pion j) then 20 else -20)
  /\ part_sous_plateau p j <> 0.
Proof.
  intros Ha Hv. exact (sous_plateau_nul_centre p j Ha Hv).
Qed.

Lemma atteint_jouer_suite (ops : list (Z * Z * joueur)) :
  forall self, atteint self -> atteint (snd (jouer_suite self ops)).
Proof.
  induction ops as [|[[l c] j] ops IH]; intros self Ha; [exact Ha|].
  cbn [jouer_suite].
  pose proof (atteint_coup self l c j Ha) as H1.
  destruct (jouer_coup self l c j) as [ok self1]. cbn [snd] in H1.
  specialize (IH self1 H1).
  destruct (jouer_suite self1 ops) as [oks self2]. exact IH.
Qed.

Lemma sous_plateau_nul_vaut_son_centre_temoin :
  let p :=
    snd (jouer_suite reinitialiser
           [(0, 0, jX); (0, 1, jO); (0, 2, jX); (1, 0, jO); (1, 1, jO);
            (1, 2, jX); (2, 0, jO); (2, 1, jX); (2, 2, jO)]) in
  vainqueur p = Some DRAW /\ part_sous_plateau p jX = -20.
Proof.
  intros p. split; [reflexivity|].
  refine (proj1 (sous_plateau_nul_vaut_son_centre p jX _ eq_refl)).
  apply atteint_jouer_suite, atteint_neuf.
Defined.

End SousPlateauNul.

(** ** The recorded outcome of a game and the sub-boards *)

Module IssueGlobale.
Import MorpionUltime.
Import MorpionUltimeFaits.

Lemma aligne_tous_Some g a b c j :
  aligne_tous g a b c = Some j ->
  forall rc, In rc [a; b; c] -> en g rc = M_de (Gagne j).
Proof.
  unfold aligne_tous. destruct (en g a) as [|[w|]] eqn:Ea; try discriminate.
  destruct (forallb _ _) eqn:Ef; [|discriminate].
  intros [= ->] rc Hin. rewrite forallb_forall in Ef.
  apply Ef in Hin. now apply marque_eqb_eq in Hin.
Qed.

Lemma aligne_chaine_Some g a b c j :
  aligne_chaine g a b c = Some j ->
  forall rc, In rc [a; b; c] -> en g rc = M_de (Gagne j).
Proof.
  unfold aligne_chaine. destruct (en g a) as [|[w|]] eqn:Ea; try discriminate.
  destruct (_ && _) eqn:Ef; [|discriminate].
  apply andb_true_iff in Ef as [E1 E2].
  apply marque_eqb_eq in E1, E2.
  intros [= ->] rc [<- | [<- | [<- | []]]]; congruence.
Qed.

(** A global line found by step 2 is one of the 8 triples, its three cells
    marked with the symbol returned. *)
Lemma victoire_globale_combo g j :
  victoire_globale g = Some j ->
  exists combo, In combo combinaisons
    /\ forall rc, In rc combo -> en g rc = M_de (Gagne j).
Proof.
  unfold victoire_globale, range3. cbn [flat_map app premier].
  repeat match goal with
  | |- context [aligne_tous g ?a ?b ?c] =>
      let E := fresh "E" in
      destruct (aligne_tous g a b c) eqn:E;
      [intros [= ->]; exists [a; b; c]; split;
       [simpl; auto 10|exact (aligne_tous_Some _ _ _ _ _ E)]|]
  | |- context [aligne_chaine g ?a ?b ?c] =>
      let E := fresh "E" in
      destruct (aligne_chaine g a b c) eqn:E;
      [intros [= ->]; exists [a; b; c]; split;
       [simpl; auto 10|exact (aligne_chaine_Some _ _ _ _ _ E)]|]
  end.
  discriminate.
Qed.

(** What [mettre_a_jour_etat_global] records on a board in progress. *)
Lemma mettre_a_jour_issue self :
  jeu_termine self = false -> vainqueur self = None ->
  let b := mettre_a_jour_etat_global self in
  let g := grille_virtuelle self in
  vainqueur b = victoire_globale g
  /\ jeu_termine b =
     match victoire_globale g with
     | Some _ => true
     | None => tous_termines self
               || negb (peut_encore_gagner g jX) && negb (peut_encore_gagner g jO)
     end.
Proof.
  intros Ht Hv. cbv zeta. unfold mettre_a_jour_etat_global.
  destruct (victoire_globale _); [now simpl|].
  destruct (tous_termines _); [now simpl|].
  destruct (_ && _); simpl; auto.
Qed.

(** The invariant: the two fields are what step 1 to 4 give on the
    sub-boards as they are now. *)
Lemma issue_invariant dernier b :
  suite reinitialiser dernier b ->
  vainqueur b = victoire_globale (grille_virtuelle b)
  /\ jeu_termine b =
     match victoire_globale (grille_virtuelle b) with
     | Some _ => true
     | None => tous_termines b
               || negb (peut_encore_gagner (grille_virtuelle b) jX)
                  && negb (peut_encore_gagner (grille_virtuelle b) jO)
     end.
Proof.
  induction 1 as [|dernier self mv self' Hs IH Hj].
  - split; reflexivity.
  - destruct IH as [IHv IHt].
    destruct (jeu_termine self) eqn:Ht.
    { rewrite jouer_coup_refuse in Hj by auto. discriminate. }
    assert (vainqueur self = None) as Hv.
    { rewrite IHv. destruct (victoire_globale _); [discriminate|reflexivity]. }
    destruct (coup_valide self mv) eqn:Hcv.
    2:{ rewrite jouer_coup_refuse in Hj by auto. discriminate. }
    destruct mv as [[[sp_l sp_c] cel_l] cel_c].
    destruct (jouer_coup_accepte _ _ _ _ _ Hcv Ht)
      as (sl & sc & cl & cc & p1 & _ & _ & _ & _ & _ & E).
    cbv zeta in E. rewrite E in Hj. injection Hj as Hj. subst self'.
    set (s1 := apres_placement self sl sc p1) in *.
    destruct (mettre_a_jour_issue s1 Ht Hv) as [Av At]. cbv zeta in Av, At.
    destruct (mettre_a_jour_plateaux s1) as (Hp & _ & _).
    unfold grille_virtuelle, tous_termines in *. cbn [plateaux vainqueur jeu_termine].
    rewrite Hp. split; [exact Av|exact At].
Qed.

(** On every board of a game played from the initial position, the two
    outcome fields agree with the sub-boards: a recorded winner owns the
    three sub-boards of one of the 8 triples and the game is over; a game
    over without winner has no such triple, and either all nine sub-boards
    are finished or neither symbol can still win; a game in progress has a
    sub-board in progress and a symbol that can still win. *)
Theorem issue_conforme_aux_sous_plateaux (dernier : option coup) (b : t) :
  suite reinitialiser dernier b ->
  let g := grille_virtuelle b in
  vainqueur b = victoire_globale g
  /\ (forall j, vainqueur b = Some j ->
        jeu_termine b = true
        /\ exists combo, In combo combinaisons
           /\ forall rc, In rc combo ->
                PetitPlateau.vainqueur (get2 (plateaux b) (fst rc) (snd rc))
                = Some (Gagne j))
  /\ (jeu_termine b = true -> vainqueur b = None ->
        tous_termines b = true
        \/ (peut_encore_gagner g jX = false /\ peut_encore_gagner g jO = false))
  /\ (jeu_termine b = false ->
        vainqueur b = None /\ tous_termines b = false
        /\ (peut_encore_gagner g jX = true \/ peut_encore_gagner g jO = true)).
Proof.
  intros Hs g. destruct (issue_invariant _ _ Hs) as [Hv Ht]. fold g in Hv, Ht.
  split; [exact Hv|]. split; [|split].
  - intros j Hj. rewrite Hv in Hj. rewrite Hj in Ht. split; [exact Ht|].
    destruct (victoire_globale_combo g j Hj) as (combo & Hin & Hc).
    exists combo. split; [exact Hin|]. intros rc Hrc.
    specialize (Hc rc Hrc). unfold g in Hc.
    rewrite NulleAnticipee.en_grille_virtuelle in Hc.
    destruct (PetitPlateau.vainqueur _); congruence.
  - intros Hfin Hnul. rewrite Hv in Hnul. rewrite Hnul, Hfin in Ht.
    symmetry in Ht. apply orb_true_iff in Ht as [Ht | Ht]; [now left|right].
    apply andb_true_iff in Ht as [H1 H2].
    split; [now destruct (peut_encore_gagner g jX)|now destruct (peut_encore_gagner g jO)].
  - intros Hcours. rewrite Hcours in Ht.
    destruct (victoire_globale g); [discriminate|].
    split; [exact Hv|]. symmetry in Ht. apply orb_false_iff in Ht as [H1 H2].
    split; [exact H1|]. apply andb_false_iff in H2 as [H2 | H2].
    + left. now destruct (peut_encore_gagner g jX).
    + right. now destruct (peut_encore_gagner g jO).
Qed.

(** The boards [jouer_partie] returns are boards of a game. *)
Lemma jouer_partie_suite (b0 : t) (l : list coup) :
  forall dernier self b,
    suite b0 dernier self -> jouer_partie self l = Some b ->
    exists dernier', suite b0 dernier' b.
Proof.
  induction l as [|mv l IH]; intros dernier self b Hs E.
  - injection E as <-. eauto.
  - cbn [jouer_partie] in E.
    destruct (jouer_coup self mv) as [ok self'] eqn:Ej.
    destruct ok; [|discriminate].
    exact (IH _ _ _ (suite_coup b0 dernier self mv self' Hs Ej) E).
Qed.

Lemma issue_conforme_aux_sous_plateaux_temoin :
  exists b, jouer_partie reinitialiser partie_gagnee = Some b
    /\ vainqueur b = Some jX
    /\ jeu_termine b = true
    /\ vainqueur b = victoire_globale (grille_virtuelle b).
Proof.
  destruct (jouer_partie reinitialiser partie_gagnee) as [b|] eqn:E;
    [|vm_compute in E; discriminate].
  exists b. split; [reflexivity|].
  assert (exists d, suite reinitialiser d b) as [d Hs].
  { exact (jouer_partie_suite _ _ _ _ _ (suite_debut _) E). }
  destruct (issue_conforme_aux_sous_plateaux d b Hs) as (H1 & H2 & _).
  assert (vainqueur b = Some jX) as Hv.
  { vm_compute in E. injection E as <-. reflexivity. }
  split; [exact Hv|]. split; [exact (proj1 (H2 jX Hv))|exact H1].
Defined.

End IssueGlobale.

(** ** What a drawn sub-board adds to the Baseline score *)

Module EvaluationNul.
Import MorpionUltime.

(** C5, as the code has it — on any board and for either perspective, a
    drawn sub-board is kept out of the +10000 and -10000 cases and is
    scored, in the first loop of [evaluer_ultime], by
    [evaluer_sous_plateau] on its cells (centre bonus and line scores); it
    is an empty cell of the meta-grid [pg].  When the sub-board is one the
    program built, its eight lines score 0, so that it adds +20 if its
    centre holds the evaluating symbol and -20 if it holds the other one,
    and never 0. *)
Theorem sous_plateau_nul_selon_le_code (partie : t) (j : joueur) (a b : idx) :
  PetitPlateau.vainqueur (get2 (plateaux partie) a b) = Some DRAW ->
  part_sous_plateau (get2 (plateaux partie) a b) j
  = evaluer_sous_plateau (get2 (plateaux partie) a b) j
  /\ get2 (plateau_global partie) a b = Vide
  /\ (PetitPlateau.atteint (get2 (plateaux partie) a b) ->
      part_sous_plateau (get2 (plateaux partie) a b) j
      = (if case_eqb
              (get2 (PetitPlateau.plateau (get2 (plateaux partie) a b)) I1 I1)
              (Pion j)
         then 20 else -20)
      /\ part_sous_plateau (get2 (plateaux partie) a b) j <> 0).
Proof.
  intros Hv. split; [|split].
  - exact (Evaluation.part_sous_plateau_nul _ j Hv).
  - unfold plateau_global. rewrite get2_map3, Hv. reflexivity.
  - intros Ha. exact (SousPlateauNul.sous_plateau_nul_centre _ j Ha Hv).
Qed.

Lemma sous_plateau_nul_selon_le_code_temoin :
  PetitPlateau.vainqueur
    (get2 (plateaux (position_apres partie_sous_plateau_nul)) I0 I0) = Some DRAW
  /\ PetitPlateau.atteint
       (get2 (plateaux (position_apres partie_sous_plateau_nul)) I0 I0)
  /\ part_sous_plateau
       (get2 (plateaux (position_apres partie_sous_plateau_nul)) I0 I0) jX
     = evaluer_sous_plateau
         (get2 (plateaux (position_apres partie_sous_plateau_nul)) I0 I0) jX
  /\ get2 (plateau_global (position_apres partie_sous_plateau_nul)) I0 I0 = Vide
  /\ part_sous_plateau
       (get2 (plateaux (position_apres partie_sous_plateau_nul)) I0 I0) jX = -20.
Proof.
  assert (PetitPlateau.vainqueur
            (get2 (plateaux (position_apres partie_sous_plateau_nul)) I0 I0)
          = Some DRAW) as Hv by (vm_compute; reflexivity).
  assert (jouer_partie reinitialiser partie_sous_plateau_nul
          = Some (position_apres partie_sous_plateau_nul)) as Ej
    by (vm_compute; reflexivity).
  destruct (IssueGlobale.jouer_partie_suite _ _ _ _ _ (suite_debut _) Ej)
    as [d Hs].
  pose proof (SousPlateauTermine.suite_sous_plateaux _ _ I0 I0 Hs) as Ha.
  destruct (sous_plateau_nul_selon_le_code
              (position_apres partie_sous_plateau_nul) jX I0 I0 Hv)
    as (H1 & H2 & H3).
  split; [exact Hv|]. split; [exact Ha|]. split; [exact H1|].
  split; [exact H2|].
  rewrite (proj1 (H3 Ha)). vm_compute. reflexivity.
Defined.

End EvaluationNul.

(** ** Whose turn it is *)

Module TourDeJeu.
Import MorpionUltime.
Import PetitPlateauFaits MorpionUltimeFaits Contrainte.

(** An accepted move, unfolded: the sub-board and the cell it addresses,
    the symbol written, and the fields of the board returned. *)
Lemma coup_accepte self mv self' :
  jouer_coup self mv = (true, self') ->
  exists sl sc cl cc p1,
    mv = (Z_of_idx sl, Z_of_idx sc, Z_of_idx cl, Z_of_idx cc)
    /\ jeu_termine self = false
    /\ PetitPlateau.jeu_termine (get2 (plateaux self) sl sc) = false
    /\ get2 (PetitPlateau.plateau (get2 (plateaux self) sl sc)) cl cc = Vide
    /\ p1 = PetitPlateau.verifier_etat
              {| PetitPlateau.plateau :=
                   set2 (PetitPlateau.plateau (get2 (plateaux self) sl sc)) cl cc
                     (Pion (joueur_courant self));
                 PetitPlateau.vainqueur :=
                   PetitPlateau.vainqueur (get2 (plateaux self) sl sc);
                 PetitPlateau.jeu_termine :=
                   PetitPlateau.jeu_termine (get2 (plateaux self) sl sc) |}
              (joueur_courant self)
    /\ plateaux self' = set2 (plateaux self) sl sc p1
    /\ jeu_termine self'
       = jeu_termine (mettre_a_jour_etat_global (apres_placement self sl sc p1))
    /\ vainqueur self'
       = vainqueur (mettre_a_jour_etat_global (apres_placement self sl sc p1))
    /\ joueur_courant self'
       = (if jeu_termine self' then joueur_courant self
          else autre (joueur_courant self)).
Proof.
  intros E. destruct mv as [[[sp_l sp_c] cel_l] cel_c].
  destruct (jouer_coup_vrai _ _ _ E) as [Hv Ht].
  destruct (jouer_coup_accepte _ _ _ _ _ Hv Ht)
    as (sl & sc & cl & cc & p1 & Hsl & Hsc & Hcl & Hcc & Ep & E').
  cbv zeta in E'. rewrite E in E'. injection E' as E''.
  exists sl, sc, cl, cc, p1.
  apply idx_of_Z_Some in Hsl as Hsl', Hsc as Hsc', Hcl as Hcl', Hcc as Hcc'.
  split; [congruence|]. split; [exact Ht|].
  apply jouer_coup_succes in Ep as (il & ic & Hil & Hic & Hvide & Hpt & Hp1).
  assert (il = cl) as -> by congruence. assert (ic = cc) as -> by congruence.
  split; [exact Hpt|]. split; [exact Hvide|]. split; [exact Hp1|].
  destruct (mettre_a_jour_plateaux (apres_placement self sl sc p1)) as (Hp & _).
  rewrite E''. cbn [plateaux jeu_termine vainqueur joueur_courant].
  split; [exact Hp|]. repeat split.
Qed.

Lemma pp_nb_pions_verifier_etat j p w :
  pp_nb_pions j (PetitPlateau.verifier_etat p w) = pp_nb_pions j p.
Proof. unfold pp_nb_pions. now rewrite verifier_etat_plateau. Qed.

(** An accepted move adds one symbol of the player to move and nothing
    else. *)
Lemma coup_nb_pions self mv self' j :
  jouer_coup self mv = (true, self') ->
  nb_pions j self'
  = (nb_pions j self + (if joueur_eqb (joueur_courant self) j then 1 else 0))%nat.
Proof.
  intros E.
  destruct (coup_accepte _ _ _ E)
    as (sl & sc & cl & cc & p1 & _ & _ & _ & Hvide & Hp1 & Hp & _).
  unfold nb_pions. rewrite Hp.
  pose proof (Partie.somme3_set2 (pp_nb_pions j) (plateaux self) sl sc p1) as H1.
  assert (pp_nb_pions j p1
          = (pp_nb_pions j (get2 (plateaux self) sl sc)
             + (if joueur_eqb (joueur_courant self) j then 1 else 0))%nat) as H2.
  { rewrite Hp1, pp_nb_pions_verifier_etat. unfold pp_nb_pions.
    cbn [PetitPlateau.plateau].
    pose proof (Partie.somme3_set2 (pion_1 j)
                  (PetitPlateau.plateau (get2 (plateaux self) sl sc)) cl cc
                  (Pion (joueur_courant self))) as H.
    rewrite Hvide in H. change (pion_1 j Vide) with 0%nat in H.
    replace (pion_1 j (Pion (joueur_courant self)))
      with (if joueur_eqb (joueur_courant self) j then 1%nat else 0%nat) in H
      by (now destruct (joueur_courant self), j).
    lia. }
  lia.
Qed.

(** On every board of a game played from the initial position X has as
    many symbols as O, or one more; it has one more exactly when the move
    that led to the board was made by X.  While the game goes on
    [joueur_courant] is the other player, so X is to move when the counts are
    equal and O when they differ; once the game is over [joueur_courant] is
    left on the player of the last move. *)
Theorem alternance_des_joueurs (dernier : option coup) (b : t) :
  suite reinitialiser dernier b ->
  nb_pions jX b
  = (nb_pions jO b + (if joueur_eqb (dernier_joueur b) jX then 1 else 0))%nat
  /\ (jeu_termine b = false ->
      (joueur_courant b = jX <-> nb_pions jX b = nb_pions jO b)).
Proof.
  intros Hs.
  assert (nb_pions jX b
          = (nb_pions jO b
             + (if joueur_eqb (dernier_joueur b) jX then 1 else 0))%nat) as H.
  { induction Hs as [|dernier self mv self' Hs IH Hj]; [reflexivity|].
    destruct (coup_accepte _ _ _ Hj)
      as (sl & sc & cl & cc & p1 & _ & Ht & _ & _ & _ & _ & _ & _ & Hjc).
    rewrite (coup_nb_pions _ _ _ jX Hj), (coup_nb_pions _ _ _ jO Hj), IH.
    unfold dernier_joueur. rewrite Ht, Hjc.
    destruct (jeu_termine self'), (joueur_courant self); simpl; lia. }
  split; [exact H|]. intros Ht. unfold dernier_joueur in H. rewrite Ht in H.
  destruct (joueur_courant b); simpl in H; split; intros; (lia || congruence).
Qed.

Lemma alternance_des_joueurs_temoin :
  let b := snd (jouer_coup reinitialiser (0, 0, 1, 2)) in
  suite reinitialiser (Some (0, 0, 1, 2)) b
  /\ joueur_courant b = jO
  /\ nb_pions jX b = 1%nat /\ nb_pions jO b = 0%nat.
Proof.
  intros b.
  assert (suite reinitialiser (Some (0, 0, 1, 2)) b) as Hs.
  { apply (suite_coup reinitialiser None reinitialiser);
      [apply suite_debut|reflexivity]. }
  split; [exact Hs|]. split; [reflexivity|].
  pose proof (proj1 (alternance_des_joueurs _ b Hs)) as H.
  split; [|reflexivity]. rewrite H. reflexivity.
Defined.

End TourDeJeu.

(** ** The winner is the player of the last move *)

Module VainqueurDernierCoup.
Import MorpionUltime.
Import PetitPlateauFaits MorpionUltimeFaits Contrainte.

Lemma premier_None {A} (l : list (option A)) x :
  premier l = None -> In (Some x) l -> False.
Proof.
  induction l as [|[a|] l IH]; simpl; [tauto|discriminate|].
  intros H [E|Hin]; [discriminate|auto].
Qed.

Lemma marque_eqb_refl m : marque_eqb m m = true.
Proof. now apply marque_eqb_eq. Qed.

Lemma aligne_tous_plein g a b c j :
  (forall rc, In rc [a; b; c] -> en g rc = M_de (Gagne j)) ->
  aligne_tous g a b c = Some j.
Proof.
  intros H. unfold aligne_tous. cbn [forallb].
  rewrite (H a), (H b), (H c) by (simpl; auto).
  now rewrite marque_eqb_refl.
Qed.

Lemma aligne_chaine_plein g a b c j :
  (forall rc, In rc [a; b; c] -> en g rc = M_de (Gagne j)) ->
  aligne_chaine g a b c = Some j.
Proof.
  intros H. unfold aligne_chaine.
  rewrite (H a), (H b), (H c) by (simpl; auto).
  now rewrite marque_eqb_refl.
Qed.

(** Step 2 misses no triple. *)
Lemma victoire_globale_None g combo j :
  victoire_globale g = None ->
  In combo combinaisons ->
  (forall rc, In rc combo -> en g rc = M_de (Gagne j)) -> False.
Proof.
  unfold victoire_globale, range3. cbn [flat_map app].
  intros Hn Hin Hall. apply (premier_None _ j Hn).
  simpl in Hin.
  repeat (destruct Hin as [<- | Hin];
          [first [solve [rewrite <- (aligne_tous_plein g _ _ _ j Hall);
                         repeat (first [left; reflexivity | right])]
                 |solve [rewrite <- (aligne_chaine_plein g _ _ _ j Hall);
                         repeat (first [left; reflexivity | right])]]|]).
  destruct Hin.
Qed.

(** The outcome [verifier_etat] can record for the symbol just placed. *)
Lemma verifier_etat_vainqueur p j w :
  PetitPlateau.vainqueur p = None ->
  PetitPlateau.vainqueur (PetitPlateau.verifier_etat p j) = Some (Gagne w) ->
  w = j.
Proof.
  intros Hp. unfold PetitPlateau.verifier_etat.
  destruct (existsb _ _); [simpl; congruence|].
  destruct (PetitPlateau.diagonales _ _); [simpl; congruence|].
  destruct (PetitPlateau.est_nul _); simpl; congruence.
Qed.

(** On every board of a game played from the initial position, a recorded
    winner is the symbol of the move just played: the game is over,
    [joueur_courant] still names that player, and [vainqueur] is equal to
    it.  No move makes the opponent win. *)
Theorem vainqueur_a_joue_le_dernier_coup (dernier : option coup) (b : t) (j : joueur) :
  suite reinitialiser dernier b ->
  vainqueur b = Some j ->
  jeu_termine b = true /\ joueur_courant b = j /\ dernier_joueur b = j.
Proof.
  intros Hs. destruct Hs as [|dernier self mv self' Hs Hj]; [discriminate|].
  intros Hw.
  destruct (TourDeJeu.coup_accepte _ _ _ Hj)
    as (sl & sc & cl & cc & p1 & _ & Ht & Hpt & _ & Hp1 & Hp & Hfin & Hvq & Hjc).
  destruct (IssueGlobale.issue_invariant _ _ Hs) as [Hv0 Ht0].
  rewrite Ht in Ht0.
  destruct (victoire_globale (grille_virtuelle self)) eqn:Hg0; [discriminate|].
  set (s1 := apres_placement self sl sc p1) in *.
  destruct (IssueGlobale.mettre_a_jour_issue s1 Ht Hv0) as [Av At].
  cbv zeta in Av, At. rewrite <- Hvq, Hw in Av. rewrite <- Hfin, <- Av in At.
  assert (joueur_courant self = j) as Hmover.
  { symmetry in Av.
    destruct (IssueGlobale.victoire_globale_combo _ _ Av) as (combo & Hin & Hall).
    destruct (in_dec (fun x y : idx * idx => decide (x = y)) (sl, sc) combo)
      as [Hd|Hd].
    - specialize (Hall _ Hd). rewrite NulleAnticipee.en_grille_virtuelle in Hall.
      unfold s1 in Hall. cbn [fst snd apres_placement plateaux] in Hall.
      rewrite get2_set2_eq in Hall.
      destruct (PetitPlateau.vainqueur p1) as [[w|]|] eqn:Hw1; try discriminate.
      injection Hall as ->. rewrite Hp1 in Hw1.
      apply verifier_etat_vainqueur in Hw1; [congruence|].
      cbn [PetitPlateau.vainqueur].
      pose proof (atteint_coherent _
                    (SousPlateauTermine.suite_sous_plateaux _ _ sl sc Hs)) as Hc.
      unfold PetitPlateau.coherent in Hc.
      destruct (PetitPlateau.vainqueur (get2 (plateaux self) sl sc)) eqn:Ev;
        [|reflexivity].
      assert (PetitPlateau.jeu_termine (get2 (plateaux self) sl sc) = true)
        by (apply Hc; congruence).
      congruence.
    - exfalso. apply (victoire_globale_None _ combo j Hg0 Hin).
      intros rc Hrc. specialize (Hall rc Hrc).
      rewrite NulleAnticipee.en_grille_virtuelle in Hall |- *.
      unfold s1 in Hall. cbn [apres_placement plateaux] in Hall.
      rewrite get2_set2_ne in Hall; [exact Hall|].
      intros E. apply Hd. destruct rc as [r c]. simpl in E.
      injection E as <- <-. exact Hrc. }
  unfold dernier_joueur. rewrite Hjc, At, Hmover. auto.
Qed.

Lemma vainqueur_a_joue_le_dernier_coup_temoin :
  exists b, jouer_partie reinitialiser partie_gagnee = Some b
    /\ vainqueur b = Some jX /\ joueur_courant b = jX.
Proof.
  destruct (jouer_partie reinitialiser partie_gagnee) as [b|] eqn:E;
    [|vm_compute in E; discriminate].
  exists b. split; [reflexivity|].
  destruct (IssueGlobale.jouer_partie_suite _ _ _ _ _ (suite_debut _) E) as [d Hs].
  assert (vainqueur b = Some jX) as Hv.
  { vm_compute in E. injection E as <-. reflexivity. }
  split; [exact Hv|].
  exact (proj1 (proj2 (vainqueur_a_joue_le_dernier_coup d b jX Hs Hv))).
Defined.

End VainqueurDernierCoup.

(** ** The cut-offs of [IADifficile] never change its answer *)

Module Elagage.
Import MorpionUltime.

(** Facts about the order of the scores: case analysis on the scores, then
    linear arithmetic on the integers. *)
Ltac feuille :=
  repeat match goal with
  | H : Fini _ = Fini _ |- _ => injection H as H
  end;
  first [discriminate | congruence | exfalso; lia | f_equal; lia].

Ltac ordre :=
  unfold encadre, score_leb, score_max, score_min, score_gtb, score_geb,
         score_eqb in *;
  repeat match goal with s : score |- _ => destruct s end;
  cbn [score_ltb negb andb] in *;
  repeat match goal with
  | H : context [Z.ltb ?x ?y] |- _ =>
      destruct (Z.ltb_spec x y); cbn [score_ltb negb andb] in *
  | |- context [Z.ltb ?x ?y] =>
      destruct (Z.ltb_spec x y); cbn [score_ltb negb andb] in *
  end;
  try reflexivity; try feuille; intuition (try feuille).

Lemma score_leb_trans a b c :
  score_leb a b = true -> score_leb b c = true -> score_leb a c = true.
Proof. intros H1 H2. ordre. Qed.

Lemma score_leb_max_l a b : score_leb a (score_max a b) = true.
Proof. ordre. Qed.

Lemma score_leb_max_r a b : score_leb b (score_max a b) = true.
Proof. ordre. Qed.

Lemma score_leb_min_l a b : score_leb (score_min a b) a = true.
Proof. ordre. Qed.

Lemma score_leb_min_r a b : score_leb (score_min a b) b = true.
Proof. ordre. Qed.

Lemma score_max_moins_inf a : score_max a MoinsInf = a.
Proof. ordre. Qed.

Lemma score_min_plus_inf a : score_min a PlusInf = a.
Proof. ordre. Qed.

Lemma encadre_exact r alpha beta : encadre r r alpha beta.
Proof. ordre. Qed.

Lemma encadre_tout r v : encadre r v MoinsInf PlusInf -> r = v.
Proof. intros H. ordre. Qed.

Lemma fold_max_croit {A} (h : A -> score) (l : list A) :
  forall t, score_leb t (fold_left (fun m x => score_max m (h x)) l t) = true.
Proof.
  induction l as [|x l IH]; intros t; cbn [fold_left]; [ordre|].
  exact (score_leb_trans _ _ _ (score_leb_max_l t (h x)) (IH _)).
Qed.

Lemma fold_min_decroit {A} (h : A -> score) (l : list A) :
  forall t, score_leb (fold_left (fun m x => score_min m (h x)) l t) t = true.
Proof.
  induction l as [|x l IH]; intros t; cbn [fold_left]; [ordre|].
  exact (score_leb_trans _ _ _ (IH _) (score_leb_min_l t (h x))).
Qed.

(** *** A node where the player to move maximises

    [al], [be] are the bounds the node was called with, [val] the best
    result so far, [t] the best true value so far, [rc] the result of the
    next child on the window [(max al val, be)] and [vc] its true value. *)

Lemma max_fin al be val t :
  score_ltb (score_max al val) be = true ->
  score_leb t val = true ->
  (score_ltb al val = true -> val = t) ->
  encadre val t al be.
Proof. intros H1 H2 H3. ordre. Qed.

Lemma max_coupe al be val rc vc v :
  score_ltb (score_max al val) be = true ->
  encadre rc vc (score_max al val) be ->
  score_geb (score_max (score_max al val) (score_max val rc)) be = true ->
  score_leb vc v = true ->
  encadre (score_max val rc) v al be.
Proof. intros H1 H2 H3 H4. ordre. Qed.

Lemma max_alpha al val rc :
  score_max (score_max al val) (score_max val rc)
  = score_max al (score_max val rc).
Proof. ordre. Qed.

Lemma max_suite al be val t rc vc :
  score_ltb (score_max al val) be = true ->
  encadre rc vc (score_max al val) be ->
  score_geb (score_max al (score_max val rc)) be = false ->
  score_leb t val = true ->
  (score_ltb al val = true -> val = t) ->
  score_ltb (score_max al (score_max val rc)) be = true
  /\ score_leb (score_max t vc) (score_max val rc) = true
  /\ (score_ltb al (score_max val rc) = true ->
      score_max val rc = score_max t vc).
Proof. intros H1 H2 H3 H4 H5. ordre. Qed.

(** *** A node where the player to move minimises *)

Lemma min_fin al be val t :
  score_ltb al (score_min be val) = true ->
  score_leb val t = true ->
  (score_ltb val be = true -> val = t) ->
  encadre val t al be.
Proof. intros H1 H2 H3. ordre. Qed.

Lemma min_coupe al be val rc vc v :
  score_ltb al (score_min be val) = true ->
  encadre rc vc al (score_min be val) ->
  score_geb al (score_min (score_min be val) (score_min val rc)) = true ->
  score_leb v vc = true ->
  encadre (score_min val rc) v al be.
Proof. intros H1 H2 H3 H4. ordre. Qed.

Lemma min_beta be val rc :
  score_min (score_min be val) (score_min val rc)
  = score_min be (score_min val rc).
Proof. ordre. Qed.

Lemma min_suite al be val t rc vc :
  score_ltb al (score_min be val) = true ->
  encadre rc vc al (score_min be val) ->
  score_geb al (score_min be (score_min val rc)) = false ->
  score_leb val t = true ->
  (score_ltb val be = true -> val = t) ->
  score_ltb al (score_min be (score_min val rc)) = true
  /\ score_leb (score_min val rc) (score_min t vc) = true
  /\ (score_ltb (score_min val rc) be = true ->
      score_min val rc = score_min t vc).
Proof. intros H1 H2 H3 H4 H5. ordre. Qed.

Section Boucles.
Variable f : t -> score -> score -> score.
Variable g : t -> score.
Variable partie : t.
Hypothesis f_encadre :
  forall mv a b, score_ltb a b = true ->
    encadre (f (simuler partie mv) a b) (g (simuler partie mv)) a b.

Lemma boucle_max_encadre (al be : score) (l : list coup) :
  forall val v,
    score_ltb (score_max al val) be = true ->
    score_leb v val = true ->
    (score_ltb al val = true -> val = v) ->
    encadre (IADifficile.boucle_max f partie l val (score_max al val) be)
      (fold_left (fun m mv => score_max m (g (simuler partie mv))) l v) al be.
Proof.
  induction l as [|mv l IH]; intros val v H1 H2 H3;
    cbn [IADifficile.boucle_max fold_left].
  - now apply max_fin.
  - pose proof (f_encadre mv _ _ H1) as Hc.
    set (rc := f (simuler partie mv) (score_max al val) be) in *.
    set (vc := g (simuler partie mv)) in *.
    destruct (score_geb (score_max (score_max al val) (score_max val rc)) be)
      eqn:Hb.
    + apply (max_coupe al be val rc vc _ H1 Hc Hb).
      exact (score_leb_trans _ _ _ (score_leb_max_r v vc) (fold_max_croit _ _ _)).
    + rewrite max_alpha in Hb |- *.
      destruct (max_suite al be val v rc vc H1 Hc Hb H2 H3) as (K1 & K2 & K3).
      exact (IH _ _ K1 K2 K3).
Qed.

Lemma boucle_min_encadre (al be : score) (l : list coup) :
  forall val v,
    score_ltb al (score_min be val) = true ->
    score_leb val v = true ->
    (score_ltb val be = true -> val = v) ->
    encadre (IADifficile.boucle_min f partie l val al (score_min be val))
      (fold_left (fun m mv => score_min m (g (simuler partie mv))) l v) al be.
Proof.
  induction l as [|mv l IH]; intros val v H1 H2 H3;
    cbn [IADifficile.boucle_min fold_left].
  - now apply min_fin.
  - pose proof (f_encadre mv _ _ H1) as Hc.
    set (rc := f (simuler partie mv) al (score_min be val)) in *.
    set (vc := g (simuler partie mv)) in *.
    destruct (score_geb al (score_min (score_min be val) (score_min val rc)))
      eqn:Hb.
    + apply (min_coupe al be val rc vc _ H1 Hc Hb).
      exact (score_leb_trans _ _ _ (fold_min_decroit _ _ _) (score_leb_min_r v vc)).
    + rewrite min_beta in Hb |- *.
      destruct (min_suite al be val v rc vc H1 Hc Hb H2 H3) as (K1 & K2 & K3).
      exact (IH _ _ K1 K2 K3).
Qed.

End Boucles.

(** The pruned search on any window that is not empty. *)
Lemma minimax_encadre (ia : joueur) (reste : nat) :
  forall partie alpha beta est_max,
    score_ltb alpha beta = true ->
    encadre (IADifficile.minimax ia reste partie alpha beta est_max)
      (SansElagage.minimax ia reste partie est_max) alpha beta.
Proof.
  induction reste as [|reste IH]; intros partie alpha beta est_max Hw;
    cbn [IADifficile.minimax SansElagage.minimax].
  - apply encadre_exact.
  - destruct (jeu_termine partie); [apply encadre_exact|].
    destruct est_max.
    + pose proof (boucle_max_encadre
                    (fun clone a b => IADifficile.minimax ia reste clone a b false)
                    (fun clone => SansElagage.minimax ia reste clone false)
                    partie (fun mv a b H => IH _ a b false H)
                    alpha beta (obtenir_coups_valides partie) MoinsInf MoinsInf)
        as H.
      rewrite score_max_moins_inf in H. apply H; [exact Hw|reflexivity|].
      destruct alpha; discriminate.
    + pose proof (boucle_min_encadre
                    (fun clone a b => IADifficile.minimax ia reste clone a b true)
                    (fun clone => SansElagage.minimax ia reste clone true)
                    partie (fun mv a b H => IH _ a b true H)
                    alpha beta (obtenir_coups_valides partie) PlusInf PlusInf)
        as H.
      rewrite score_min_plus_inf in H. apply H; [exact Hw|reflexivity|].
      destruct beta; discriminate.
Qed.

(** *** The root loop *)

Lemma racine_etape ms sc v :
  (score_ltb ms PlusInf = true -> encadre sc v ms PlusInf) ->
  score_gtb sc ms = score_gtb v ms
  /\ (score_gtb sc ms = true -> sc = v).
Proof. intros H. ordre. Qed.

Lemma racine_alpha ms sc :
  score_max ms (if score_gtb sc ms then sc else ms)
  = (if score_gtb sc ms then sc else ms).
Proof. ordre. Qed.

Lemma racine_boucle ia partie (l : list coup) :
  forall ms mc,
    fold_left (IADifficile.pas ia partie) l (ms, mc, ms)
    = (fold_left (SansElagage.pas ia partie) l (ms, mc),
       fst (fold_left (SansElagage.pas ia partie) l (ms, mc))).
Proof.
  induction l as [|mv l IH]; intros ms mc; cbn [fold_left]; [reflexivity|].
  unfold IADifficile.pas at 2, SansElagage.pas at 2 4. cbv zeta.
  unfold SansElagage.valeur.
  destruct (racine_etape ms
              (IADifficile.minimax ia (IADifficile.profondeur_max - 1)
                 (simuler partie mv) ms PlusInf false)
              (SansElagage.minimax ia (IADifficile.profondeur_max - 1)
                 (simuler partie mv) false)
              (minimax_encadre ia _ _ ms PlusInf false)) as [E1 E2].
  rewrite <- E1.
  destruct (score_gtb _ ms) eqn:Eg.
  - rewrite <- (E2 eq_refl).
    pose proof (racine_alpha ms
                  (IADifficile.minimax ia (IADifficile.profondeur_max - 1)
                     (simuler partie mv) ms PlusInf false)) as Ha.
    rewrite Eg in Ha. rewrite Ha. apply IH.
  - pose proof (racine_alpha ms
                  (IADifficile.minimax ia (IADifficile.profondeur_max - 1)
                     (simuler partie mv) ms PlusInf false)) as Ha.
    rewrite Eg in Ha. rewrite Ha. apply IH.
Qed.

(** The root loop without cut-offs keeps the first move of greatest
    value, and none when every value is [-inf]. *)
Lemma premier_maximum ia partie (l : list coup) :
  (fold_left (SansElagage.pas ia partie) l (MoinsInf, None) = (MoinsInf, None)
   /\ forall m, In m l -> SansElagage.valeur ia partie m = MoinsInf)
  \/ exists avant mv apres,
       l = avant ++ mv :: apres
       /\ fold_left (SansElagage.pas ia partie) l (MoinsInf, None)
          = (SansElagage.valeur ia partie mv, Some mv)
       /\ score_ltb MoinsInf (SansElagage.valeur ia partie mv) = true
       /\ (forall m, In m avant ->
             score_ltb (SansElagage.valeur ia partie m)
               (SansElagage.valeur ia partie mv) = true)
       /\ (forall m, In m apres ->
             score_leb (SansElagage.valeur ia partie m)
               (SansElagage.valeur ia partie mv) = true).
Proof.
  induction l as [|x l IH] using rev_ind.
  { left. split; [reflexivity|]. intros m []. }
  rewrite fold_left_app. cbn [fold_left].
  destruct IH as [[-> Hinf]|(avant & mv & apres & -> & -> & Hpos & Hav & Hap)].
  - unfold SansElagage.pas.
    destruct (score_gtb (SansElagage.valeur ia partie x) MoinsInf) eqn:Eg.
    + right. exists l, x, []. split; [reflexivity|]. split; [reflexivity|].
      split; [exact Eg|]. split; [|intros m []].
      intros m Hm. rewrite (Hinf m Hm). exact Eg.
    + left. split; [reflexivity|].
      intros m Hm. apply in_app_or in Hm as [Hm|[<-|[]]]; [now apply Hinf|].
      revert Eg. generalize (SansElagage.valeur ia partie x). clear.
      intros s H. ordre.
  - right. unfold SansElagage.pas.
    destruct (score_gtb (SansElagage.valeur ia partie x)
                (SansElagage.valeur ia partie mv)) eqn:Eg.
    + exists (avant ++ mv :: apres), x, [].
      split; [reflexivity|]. split; [reflexivity|].
      split; [|split; [|intros m []]].
      * revert Hpos Eg. generalize (SansElagage.valeur ia partie x),
          (SansElagage.valeur ia partie mv). clear. intros a b H1 H2. ordre.
      * intros m Hm. apply in_app_or in Hm as [Hm|[<-|Hm]].
        -- specialize (Hav m Hm). revert Hav Eg.
           generalize (SansElagage.valeur ia partie x),
             (SansElagage.valeur ia partie mv), (SansElagage.valeur ia partie m).
           clear. intros a b c H1 H2. ordre.
        -- exact Eg.
        -- specialize (Hap m Hm). revert Hap Eg.
           generalize (SansElagage.valeur ia partie x),
             (SansElagage.valeur ia partie mv), (SansElagage.valeur ia partie m).
           clear. intros a b c H1 H2. ordre.
    + exists avant, mv, (apres ++ [x]).
      split; [now rewrite <- app_assoc|]. split; [reflexivity|].
      split; [exact Hpos|]. split; [exact Hav|].
      intros m Hm. apply in_app_or in Hm as [Hm|[<-|[]]]; [now apply Hap|].
      unfold score_leb. unfold score_gtb in Eg. now rewrite Eg.
Qed.

(** On any board and for either symbol, [IADifficile] gives the answers of
    the same search without cut-offs: [minimax] called with the window
    [(-inf, inf)] returns the plain minimax value of [evaluer_difficile] at
    every depth and for both kinds of node, and [get_move] returns the same
    result, with the same [score_dernier_coup], as the root loop that
    values each move by plain minimax.  That result is [None] exactly when
    every legal move has the value [-inf] (in particular when there is no
    legal move); otherwise it is the first legal move of greatest value:
    the moves listed before it have a strictly smaller value and those
    listed after it have at most its value. *)
Theorem elagage_sans_effet (ia : joueur) (partie : t) :
  (forall reste est_max,
     IADifficile.minimax ia reste partie MoinsInf PlusInf est_max
     = SansElagage.minimax ia reste partie est_max)
  /\ IADifficile.get_move ia partie = SansElagage.get_move ia partie
  /\ fst (fst (fold_left (IADifficile.pas ia partie)
                 (obtenir_coups_valides partie) (MoinsInf, None, MoinsInf)))
     = fst (SansElagage.boucle ia partie)
  /\ (IADifficile.get_move ia partie = None <->
      forall m, In m (obtenir_coups_valides partie) ->
        SansElagage.valeur ia partie m = MoinsInf)
  /\ (forall mv, IADifficile.get_move ia partie = Some mv ->
        exists avant apres,
          obtenir_coups_valides partie = avant ++ mv :: apres
          /\ (forall m, In m avant ->
                score_ltb (SansElagage.valeur ia partie m)
                  (SansElagage.valeur ia partie mv) = true)
          /\ (forall m, In m apres ->
                score_leb (SansElagage.valeur ia partie m)
                  (SansElagage.valeur ia partie mv) = true)).
Proof.
  assert (IADifficile.get_move ia partie = SansElagage.get_move ia partie) as Eg.
  { unfold IADifficile.get_move, SansElagage.get_move, SansElagage.boucle.
    now rewrite racine_boucle. }
  split; [|split; [exact Eg|split; [|split]]].
  - intros reste est_max. apply encadre_tout.
    now apply minimax_encadre.
  - unfold SansElagage.boucle. now rewrite racine_boucle.
  - rewrite Eg. unfold SansElagage.get_move, SansElagage.boucle.
    destruct (premier_maximum ia partie (obtenir_coups_valides partie))
      as [[Ef Hinf]|(avant & mv & apres & El & Ef & Hpos & _)]; rewrite Ef.
    + split; [intros _; exact Hinf|reflexivity].
    + split; [discriminate|]. intros Hinf. exfalso.
      rewrite (Hinf mv) in Hpos; [discriminate|].
      rewrite El. apply in_or_app. right. now left.
  - intros mv. rewrite Eg. unfold SansElagage.get_move, SansElagage.boucle.
    destruct (premier_maximum ia partie (obtenir_coups_valides partie))
      as [[Ef Hinf]|(avant & mv' & apres & El & Ef & _ & Hav & Hap)]; rewrite Ef.
    + discriminate.
    + cbn [snd]. intros E. injection E as <-. exists avant, apres. auto.
Qed.

Lemma elagage_sans_effet_temoin :
  obtenir_coups_valides avant_partie_pleine
  = [(1, 0, 0, 2); (1, 0, 1, 0); (1, 0, 1, 2); (1, 0, 2, 0)]
  /\ IADifficile.get_move jX avant_partie_pleine = Some (1, 0, 0, 2)
  /\ SansElagage.get_move jX avant_partie_pleine = Some (1, 0, 0, 2)
  /\ SansElagage.valeur jX avant_partie_pleine (1, 0, 0, 2) = Fini 10000
  /\ exists avant apres,
       obtenir_coups_valides avant_partie_pleine = avant ++ (1, 0, 0, 2) :: apres
       /\ (forall m, In m avant ->
             score_ltb (SansElagage.valeur jX avant_partie_pleine m)
               (SansElagage.valeur jX avant_partie_pleine (1, 0, 0, 2)) = true)
       /\ (forall m, In m apres ->
             score_leb (SansElagage.valeur jX avant_partie_pleine m)
               (SansElagage.valeur jX avant_partie_pleine (1, 0, 0, 2)) = true).
Proof.
  assert (IADifficile.get_move jX avant_partie_pleine = Some (1, 0, 0, 2)) as Hm
    by (vm_compute; reflexivity).
  destruct (elagage_sans_effet jX avant_partie_pleine) as (_ & Eg & _ & _ & Hp).
  split; [vm_compute; reflexivity|]. split; [exact Hm|].
  split; [rewrite <- Eg; exact Hm|]. split; [vm_compute; reflexivity|].
  exact (Hp (1, 0, 0, 2) Hm).
Defined.

(** Whatever the window [(alpha, beta)] with [alpha < beta], the value
    [minimax] returns is the plain minimax value when it lies strictly
    between [alpha] and [beta], at least that value when it is at most
    [alpha], and at most that value when it is at least [beta]. *)
Theorem elagage_fenetre (ia : joueur) (reste : nat) (partie : t)
    (alpha beta : score) (est_max : bool) :
  score_ltb alpha beta = true ->
  encadre (IADifficile.minimax ia reste partie alpha beta est_max)
    (SansElagage.minimax ia reste partie est_max) alpha beta.
Proof. apply minimax_encadre. Qed.

Lemma elagage_fenetre_temoin :
  score_ltb (Fini 0) (Fini 1) = true
  /\ encadre
       (IADifficile.minimax jX 1 reinitialiser (Fini 0) (Fini 1) true)
       (SansElagage.minimax jX 1 reinitialiser true) (Fini 0) (Fini 1).
Proof.
  split; [reflexivity|].
  exact (elagage_fenetre jX 1 reinitialiser (Fini 0) (Fini 1) true eq_refl).
Defined.

End Elagage.

(** ** What [IAMoyenne] picks when it makes no strategic error *)

Module ChoixMoyenne.
Import MorpionUltime.
Import Elagage.

Section Boucle.
Variable ia : joueur.
Variable partie : t.

Local Abbreviation val := (valeur_moyenne ia partie).
Local Abbreviation maxi := (meilleure_valeur ia partie).

Lemma cas_meilleur sc ms m :
  score_gtb sc ms = true -> score_leb sc m = true ->
  score_gtb m ms = true /\ score_eqb sc m = negb (score_gtb m sc).
Proof. intros H1 H2. ordre. Qed.

Lemma cas_egal sc ms m :
  score_eqb sc ms = true -> score_leb ms m = true ->
  score_eqb sc m = negb (score_gtb m ms).
Proof. intros H1 H2. ordre. Qed.

Lemma cas_moindre sc ms m :
  score_gtb sc ms = false -> score_eqb sc ms = false -> score_leb ms m = true ->
  score_eqb sc m = false.
Proof. intros H1 H2 H3. ordre. Qed.

Lemma score_eqb_eq a b : score_eqb a b = true -> a = b.
Proof. intros H. ordre. Qed.

(** The loop keeps the best value and, in order, the moves that reach it. *)
Lemma boucle_meilleurs (l : list coup) :
  forall ms ml,
    fold_left (IAMoyenne.pas ia partie) l (ms, ml)
    = (maxi l ms,
       (if score_gtb (maxi l ms) ms then [] else ml)
       ++ List.filter (fun mv => score_eqb (val mv) (maxi l ms)) l).
Proof.
  induction l as [|mv l IH]; intros ms ml.
  - unfold meilleure_valeur. cbn [fold_left List.filter].
    replace (score_gtb ms ms) with false by (clear; ordre).
    now rewrite app_nil_r.
  - cbn [fold_left]. unfold IAMoyenne.pas at 2. cbv zeta. fold (val mv).
    unfold meilleure_valeur at 1 2 3. cbn [fold_left].
    fold (maxi l (score_max ms (val mv))).
    pose proof (fold_max_croit val l (score_max ms (val mv))) as Hm.
    fold (maxi l (score_max ms (val mv))) in Hm.
    destruct (score_gtb (val mv) ms) eqn:Eg.
    + rewrite IH. unfold score_max in Hm |- *. rewrite Eg in Hm |- *.
      destruct (cas_meilleur _ _ _ Eg Hm) as [H1 H2].
      cbn [List.filter]. rewrite H1, H2.
      now destruct (score_gtb (maxi l (val mv)) (val mv)).
    + unfold score_max in Hm |- *. rewrite Eg in Hm |- *.
      destruct (score_eqb (val mv) ms) eqn:Ee.
      * rewrite IH. cbn [List.filter]. rewrite (cas_egal _ _ _ Ee Hm).
        destruct (score_gtb (maxi l ms) ms); cbn [negb]; [reflexivity|].
        now rewrite <- app_assoc.
      * rewrite IH. cbn [List.filter]. now rewrite (cas_moindre _ _ _ Eg Ee Hm).
Qed.

Lemma maxi_majore (l : list coup) :
  forall depart m, In m l -> score_leb (val m) (maxi l depart) = true.
Proof.
  induction l as [|mv l IH]; intros depart m Hin; [destruct Hin|].
  unfold meilleure_valeur. cbn [fold_left].
  fold (maxi l (score_max depart (val mv))).
  destruct Hin as [<- | Hin]; [|now apply IH].
  exact (score_leb_trans _ _ _ (score_leb_max_r depart (val mv))
           (fold_max_croit val l _)).
Qed.

Lemma get_move_meilleurs (r : alea) :
  erreur_strategique r = false ->
  IAMoyenne.get_move ia r partie
  = random_choice r
      (List.filter (fun mv =>
                 score_eqb (val mv) (maxi (obtenir_coups_valides partie) MoinsInf))
         (obtenir_coups_valides partie)).
Proof.
  intros He. unfold IAMoyenne.get_move. rewrite He, boucle_meilleurs.
  now destruct (score_gtb _ MoinsInf).
Qed.

End Boucle.

(** When [random.random()] does not trigger a strategic error,
    [IAMoyenne.get_move] draws its answer, with [random.choice], from the
    list of the legal moves whose minimax value is the maximum over the
    legal moves, kept in the order of [obtenir_coups_valides]; so a move it
    returns is legal and no legal move has a greater minimax value. *)
Theorem IAMoyenne_choisit_un_maximum (ia : joueur) (r : alea) (partie : t) :
  erreur_strategique r = false ->
  IAMoyenne.get_move ia r partie
  = random_choice r
      (List.filter
         (fun mv =>
            score_eqb (valeur_moyenne ia partie mv)
              (meilleure_valeur ia partie (obtenir_coups_valides partie) MoinsInf))
         (obtenir_coups_valides partie))
  /\ forall mv, IAMoyenne.get_move ia r partie = Renvoie mv ->
       In mv (obtenir_coups_valides partie)
       /\ valeur_moyenne ia partie mv
          = meilleure_valeur ia partie (obtenir_coups_valides partie) MoinsInf
       /\ forall m, In m (obtenir_coups_valides partie) ->
            score_leb (valeur_moyenne ia partie m) (valeur_moyenne ia partie mv)
            = true.
Proof.
  intros He.
  pose proof (get_move_meilleurs ia partie r He) as E.
  split; [exact E|]. intros mv Hmv. rewrite E in Hmv.
  apply Strategies.random_choice_In in Hmv. apply filter_In in Hmv as [Hin Hv].
  apply score_eqb_eq in Hv. split; [exact Hin|]. split; [exact Hv|].
  intros m Hm. rewrite Hv. exact (maxi_majore ia partie _ MoinsInf m Hm).
Qed.

Lemma IAMoyenne_choisit_un_maximum_temoin :
  let r := {| erreur_strategique := false; indice_choisi := 1 |} in
  erreur_strategique r = false
  /\ obtenir_coups_valides avant_partie_pleine
     = [(1, 0, 0, 2); (1, 0, 1, 0); (1, 0, 1, 2); (1, 0, 2, 0)]
  /\ IAMoyenne.get_move jX r avant_partie_pleine = Renvoie (1, 0, 2, 0)
  /\ meilleure_valeur jX avant_partie_pleine
       (obtenir_coups_valides avant_partie_pleine) MoinsInf = Fini 10000
  /\ In (1, 0, 2, 0) (obtenir_coups_valides avant_partie_pleine)
  /\ valeur_moyenne jX avant_partie_pleine (1, 0, 2, 0)
     = meilleure_valeur jX avant_partie_pleine
         (obtenir_coups_valides avant_partie_pleine) MoinsInf
  /\ forall m, In m (obtenir_coups_valides avant_partie_pleine) ->
       score_leb (valeur_moyenne jX avant_partie_pleine m)
         (valeur_moyenne jX avant_partie_pleine (1, 0, 2, 0)) = true.
Proof.
  intros r.
  assert (IAMoyenne.get_move jX r avant_partie_pleine = Renvoie (1, 0, 2, 0))
    as Hm by (vm_compute; reflexivity).
  split; [reflexivity|]. split; [vm_compute; reflexivity|].
  split; [exact Hm|]. split; [vm_compute; reflexivity|].
  exact (proj2 (IAMoyenne_choisit_un_maximum jX r avant_partie_pleine eq_refl)
           (1, 0, 2, 0) Hm).
Defined.

End ChoixMoyenne.

(** ** A game between two strategies always ends *)

Module FinDePartie.
Import MorpionUltime.

(** During a game the instance to move returns a move that is accepted. *)
Lemma get_move_accepte s j r dernier jeu :
  suite reinitialiser dernier jeu ->
  jeu_termine jeu = false ->
  exists mv, Tournoi.get_move s j r jeu = Renvoie (Some mv)
    /\ fst (jouer_coup jeu mv) = true.
Proof.
  intros Hs Ht.
  destruct (SelectionEnCours.strategies_jouent_lemme dernier jeu j r Hs Ht)
    as ((m1 & E1 & A1) & (m2 & E2 & A2) & (m3 & E3 & A3)).
  destruct s; unfold Tournoi.get_move.
  - exists m1. now rewrite E1.
  - exists m2. now rewrite E2.
  - exists m3. now rewrite E3.
Qed.

Lemma boucle_termine joueurs tirages (n : nat) :
  forall tour dernier jeu,
    suite reinitialiser dernier jeu ->
    (nb_vides jeu <= n)%nat ->
    exists coups fin,
      Tournoi.boucle n joueurs tirages tour jeu = Tournoi.Condition fin
      /\ jouer_partie jeu coups = Some fin
      /\ jeu_termine fin = true
      /\ (length coups <= n)%nat.
Proof.
  induction n as [|n IH]; intros tour dernier jeu Hs Hn.
  - destruct (jeu_termine jeu) eqn:Ht.
    + exists [], jeu. cbn [Tournoi.boucle]. rewrite Ht. auto.
    + exfalso.
      destruct (get_move_accepte Tournoi.Facile jX (tirages tour) _ _ Hs Ht)
        as (mv & _ & Ha).
      destruct (jouer_coup jeu mv) as [ok jeu'] eqn:Ej. cbn [fst] in Ha. subst ok.
      apply Partie.jouer_coup_nb_vides in Ej. lia.
  - destruct (jeu_termine jeu) eqn:Ht.
    + exists [], jeu. cbn [Tournoi.boucle]. rewrite Ht.
      repeat split; auto. simpl. lia.
    + cbn [Tournoi.boucle]. rewrite Ht. cbv zeta.
      destruct (get_move_accepte (joueurs (joueur_courant jeu)) (joueur_courant jeu)
                  (tirages tour) _ _ Hs Ht) as (mv & Em & Ha).
      rewrite Em.
      destruct (jouer_coup jeu mv) as [ok jeu'] eqn:Ej. cbn [fst] in Ha. subst ok.
      cbn [snd].
      pose proof (Partie.jouer_coup_nb_vides _ _ _ Ej) as Hv.
      destruct (IH (S tour) (Some mv) jeu'
                  (suite_coup _ _ _ _ _ Hs Ej) ltac:(lia))
        as (coups & fin & Eb & Ep & Hf & Hl).
      exists (mv :: coups), fin. rewrite Eb. cbn [jouer_partie length].
      rewrite Ej. repeat split; auto. lia.
Qed.

(** Whatever two instances (different objects, so that each plays with
    its own symbol as [self.joueur]) are set against each other and
    whatever the random source draws, the turn-by-turn loop of
    [lancer_match] started on a new [MorpionUltime] is left by its own
    condition after at most 81 iterations: [get_move] never raises, the
    [break] on [None] is never taken, every move chosen is accepted by
    [jouer_coup], and the board the loop ends on has [jeu_termine] set. *)
Theorem partie_de_tournoi_termine
    (joueurs : joueur -> Tournoi.strategie) (tirages : nat -> alea) :
  exists coups fin,
    Tournoi.boucle 81 joueurs tirages 0 reinitialiser = Tournoi.Condition fin
    /\ jouer_partie reinitialiser coups = Some fin
    /\ jeu_termine fin = true
    /\ (length coups <= 81)%nat.
Proof.
  apply (boucle_termine joueurs tirages 81 0%nat None reinitialiser).
  - apply suite_debut.
  - change (nb_vides reinitialiser) with 81%nat. lia.
Qed.

End FinDePartie.

(** ** Moves and new boards on the object store *)

Module TasJeu.
Import Tas.
Import TasFaits.

(** A refused move writes nothing. *)
Lemma jouer_coup_refuse_tas h u f b mv :
  repr h u f b ->
  fst (MorpionUltime.jouer_coup b mv) = false ->
  jouer_coup u mv h = Some (false, h).
Proof.
  intros H Hf. rewrite MorpionUltimeFaits.jouer_coup_resultat in Hf.
  destruct mv as [[[sp_l sp_c] cel_l] cel_c]. unfold jouer_coup.
  rewrite (bind_run _ _ _ _ _ (voir_ultime_run _ _ _ _ H)).
  destruct (MorpionUltime.coup_valide b (sp_l, sp_c, cel_l, cel_c));
    [|reflexivity].
  destruct (MorpionUltime.jeu_termine b); [reflexivity|discriminate].
Qed.

(** For a well-formed board in the store, [jouer_coup] runs without fault
    and returns what the rules give on the board read from the store; the
    board then reads as the result of the rules and is still well formed,
    on the same objects; no object is created; the objects that do not
    belong to the board are left as they were; and when [False] is returned
    the store is the one of the call. *)
Theorem jouer_coup_sur_le_tas (h : tas) (u : adr) (b : MorpionUltime.t) (mv : coup) :
  bien_forme h u b ->
  exists h',
    jouer_coup u mv h = Some (fst (MorpionUltime.jouer_coup b mv), h')
    /\ bien_forme h' u (snd (MorpionUltime.jouer_coup b mv))
    /\ forme_de h' u = forme_de h u
    /\ dom h' = dom h
    /\ (forall f x, forme_de h u = Some f -> x <> u -> ~ In x (adresses f) ->
          h' !! x = h !! x)
    /\ (fst (MorpionUltime.jouer_coup b mv) = false -> h' = h).
Proof.
  intros Hb. apply bien_forme_repr in Hb as (f & Hr & Hn).
  destruct (jouer_coup_spec h u f b mv Hr Hn) as (h' & E & Hr' & Fr).
  exists h'. split; [exact E|].
  split; [apply bien_forme_repr; eauto|].
  destruct (repr_valeur _ _ _ _ Hr) as [_ Ef].
  destruct (repr_valeur _ _ _ _ Hr') as [_ Ef'].
  split; [congruence|]. split; [|split].
  - apply set_eq. intros x.
    destruct (decide (x = u)) as [->|Hxu].
    { split; intros _; apply elem_of_dom;
        [destruct Hr as [-> _]|destruct Hr' as [-> _]]; eauto. }
    destruct (in_dec (fun a c : adr => decide (a = c)) x (adresses f)) as [Hin|Hin].
    { split; intros _; eapply repr_dans_dom; eauto. }
    rewrite !elem_of_dom, (Fr x Hxu Hin). reflexivity.
  - intros g x Eg Hxu Hin. rewrite Ef in Eg. injection Eg as <-. now apply Fr.
  - intros Hfaux.
    rewrite (jouer_coup_refuse_tas h u f b mv Hr Hfaux) in E.
    rewrite Hfaux in E. now injection E as <-.
Qed.

Lemma jouer_coup_sur_le_tas_temoin :
  bien_forme tas_initial jeu_initial MorpionUltime.reinitialiser
  /\ exists h',
       jouer_coup jeu_initial (0, 0, 1, 2) tas_initial = Some (true, h')
       /\ bien_forme h' jeu_initial
            (snd (MorpionUltime.jouer_coup MorpionUltime.reinitialiser (0, 0, 1, 2)))
       /\ dom h' = dom tas_initial.
Proof.
  assert (bien_forme tas_initial jeu_initial MorpionUltime.reinitialiser) as Hb.
  { destruct (nouveau_cree ∅) as (c & h' & g & E & _ & _ & Hn & Hr).
    unfold tas_initial, jeu_initial. rewrite E.
    apply bien_forme_repr. exists g. split; [exact Hr|].
    now apply NoDup_cons in Hn as [_ Hn]. }
  split; [exact Hb|].
  destruct (jouer_coup_sur_le_tas tas_initial jeu_initial _ (0, 0, 1, 2) Hb)
    as (h' & E & Hb' & _ & Hd & _).
  exists h'. split; [exact E|]. split; [exact Hb'|exact Hd].
Defined.

(** [MorpionUltime()] on any store runs without fault and returns an
    object that was not in the store, well formed, which reads as the
    initial position; it is made of 37 objects that are new and all
    different (the board, its 9 sub-boards and their 27 rows: no sub-board
    and no row is shared); the objects of the store are left as they
    were. *)
Theorem nouveau_sur_le_tas (h : tas) :
  exists c h' g,
    nouveau h = Some (c, h')
    /\ bien_forme h' c MorpionUltime.reinitialiser
    /\ forme_de h' c = Some g
    /\ length (c :: adresses g) = 37%nat
    /\ NoDup (c :: adresses g)
    /\ (forall a, In a (c :: adresses g) -> a ∉ dom h)
    /\ (forall a, a ∈ dom h -> h' !! a = h !! a).
Proof.
  destruct (nouveau_cree h) as (c & h' & g & E & Hp & Hf & Hn & Hr).
  exists c, h', g. split; [exact E|].
  split.
  { apply bien_forme_repr. exists g. split; [exact Hr|].
    now apply NoDup_cons in Hn as [_ Hn]. }
  split; [apply (repr_valeur _ _ _ _ Hr)|].
  split.
  { destruct g as [[[[a0 a1] a2] [[b0 b1] b2]] [[c0 c1] c2]].
    repeat match goal with p : adr * tri adr |- _ =>
      destruct p as [? [[? ?] ?]] end.
    reflexivity. }
  split; [exact Hn|]. split; [|exact Hp].
  intros a Ha. exact (proj1 (Hf a Ha)).
Qed.

End TasJeu.

(** ** The list of legal moves against [coup_valide] *)

Module Enumeration.
Import MorpionUltime.
Import PetitPlateauFaits MorpionUltimeFaits.

Lemma filter_flat_map {A B} (P : B -> bool) (f : A -> list B) (l : list A) :
  List.filter P (flat_map f l) = flat_map (fun x => List.filter P (f x)) l.
Proof.
  induction l as [|x l IH]; [reflexivity|].
  cbn [flat_map]. now rewrite List.filter_app, IH.
Qed.

Lemma cases_jouables_termine p a b :
  PetitPlateau.jeu_termine p = true -> cases_jouables p a b = [].
Proof.
  intros H. unfold cases_jouables, range3Z. cbn [flat_map].
  now rewrite !coup_valide_termine by exact H.
Qed.

(** The moves of one sub-board that [coup_valide] accepts. *)
Lemma bloc_filtre self (a b : idx) :
  flat_map (fun i =>
    flat_map (fun j =>
      List.filter (coup_valide self) [(Z_of_idx a, Z_of_idx b, i, j)]) range3Z)
    range3Z
  = if actif_compatible self a b
    then cases_jouables (get2 (plateaux self) a b) (Z_of_idx a) (Z_of_idx b)
    else [].
Proof.
  unfold cases_jouables, range3Z. cbn [flat_map List.filter app].
  unfold coup_valide. rewrite !idx_of_Z_of_idx.
  destruct (PetitPlateau.jeu_termine (get2 (plateaux self) a b)) eqn:Ht.
  - rewrite !coup_valide_termine by exact Ht. now destruct (actif_compatible self a b).
  - destruct (actif_compatible self a b); reflexivity.
Qed.

Lemma coups_valides_filtre (self : t) :
  obtenir_coups_valides self = List.filter (coup_valide self) tous_les_coups.
Proof.
  unfold tous_les_coups. rewrite filter_flat_map.
  erewrite flat_map_ext by (intros a; apply filter_flat_map).
  erewrite flat_map_ext
    by (intros a; apply flat_map_ext; intros b; rewrite filter_flat_map;
        apply flat_map_ext; intros i; apply filter_flat_map).
  unfold range3Z. cbn [flat_map].
  pose proof (fun a b => bloc_filtre self a b) as H.
  pose proof (H I0 I0) as H00. pose proof (H I0 I1) as H01.
  pose proof (H I0 I2) as H02. pose proof (H I1 I0) as H10.
  pose proof (H I1 I1) as H11. pose proof (H I1 I2) as H12.
  pose proof (H I2 I0) as H20. pose proof (H I2 I1) as H21.
  pose proof (H I2 I2) as H22. clear H.
  unfold range3Z in H00, H01, H02, H10, H11, H12, H20, H21, H22.
  cbn [Z_of_idx flat_map] in H00, H01, H02, H10, H11, H12, H20, H21, H22.
  rewrite H00, H01, H02, H10, H11, H12, H20, H21, H22.
  clear H00 H01 H02 H10 H11 H12 H20 H21 H22.
  unfold obtenir_coups_valides, actif_compatible.
  destruct (plateau_actif self) as [[al ac]|].
  - destruct al, ac; cbn [idx_eqb andb app Z_of_idx]; now rewrite ?app_nil_r.
  - unfold range3. cbn [flat_map Z_of_idx].
    repeat match goal with
    | |- context [if PetitPlateau.jeu_termine ?p then _ else _] =>
        let E := fresh "E" in
        destruct (PetitPlateau.jeu_termine p) eqn:E;
        [rewrite (cases_jouables_termine p _ _ E)|]
    end; reflexivity.
Qed.

Lemma NoDup_tous_les_coups : NoDup tous_les_coups.
Proof.
  apply (@bool_decide_unpack _ (NoDup_dec (A := coup) _)).
  vm_compute. reflexivity.
Qed.

(** On any board [obtenir_coups_valides] returns the moves that
    [coup_valide] accepts, each once, in the order of their coordinates:
    it is the list of the 81 moves filtered by [coup_valide]; so it has no
    repetition and at most 81 elements. *)
Theorem coups_valides_enumeres (self : t) :
  obtenir_coups_valides self = List.filter (coup_valide self) tous_les_coups
  /\ NoDup (obtenir_coups_valides self)
  /\ (length (obtenir_coups_valides self) <= 81)%nat.
Proof.
  rewrite coups_valides_filtre. split; [reflexivity|]. split.
  - apply NoDup_ListNoDup, List.NoDup_filter, NoDup_ListNoDup,
      NoDup_tous_les_coups.
  - exact (List.filter_length_le (coup_valide self) tous_les_coups).
Qed.

End Enumeration.

(** ** The strategies never touch the board they are given *)

Module TasStrategies.
Import Tas.
Import TasFaits.
Import TasIA.

Lemma sans_effet_ret {A} (a : A) h : sans_effet (ret a) h a.
Proof. exists h. split; [reflexivity|apply preserve_refl]. Qed.

Lemma sans_effet_bind {A B} (m : M A) (k : A -> M B) h a b :
  sans_effet m h a ->
  (forall h', m h = Some (a, h') -> preserve h h' -> sans_effet (k a) h' b) ->
  sans_effet (bind m k) h b.
Proof.
  intros (h1 & E1 & P1) Hk. destruct (Hk h1 E1 P1) as (h2 & E2 & P2).
  exists h2. split; [now rewrite (bind_run _ _ _ _ _ E1)|].
  eapply preserve_trans; eauto.
Qed.

Lemma consulter_run {A} (f : MorpionUltime.t -> A) h u g b :
  repr h u g b -> consulter f u h = Some (f b, h).
Proof.
  intros H. unfold consulter.
  now rewrite (bind_run _ _ _ _ _ (voir_ultime_run _ _ _ _ H)).
Qed.

Lemma sans_effet_consulter {A B} (F : MorpionUltime.t -> A) (k : A -> M B)
    h u g b v :
  repr h u g b -> sans_effet (k (F b)) h v ->
  sans_effet (bind (consulter F u) k) h v.
Proof.
  intros Hr (h' & E & P). exists h'. split; [|exact P].
  now rewrite (bind_run _ _ _ _ _ (consulter_run F _ _ _ _ Hr)).
Qed.

Lemma sans_effet_consulter_seul {A} (F : MorpionUltime.t -> A) h u g b :
  repr h u g b -> sans_effet (consulter F u) h (F b).
Proof.
  intros Hr. exists h. split; [exact (consulter_run F _ _ _ _ Hr)|].
  apply preserve_refl.
Qed.

(** The clone is made of new objects and reads as the value-level
    [simuler]; the objects of the store are left as they were. *)
Lemma essayer_spec h u f b mv :
  repr h u f b ->
  exists c h' g,
    essayer u mv h = Some (c, h')
    /\ preserve h h'
    /\ repr h' c g (simuler b mv)
    /\ NoDup (adresses g).
Proof.
  intros Hr.
  destruct (dupliquer_cree h u f b Hr) as (c & h1 & g & E1 & P1 & F1 & N1 & Hc).
  apply NoDup_cons in N1 as [Hcg Ng].
  destruct (jouer_coup_spec h1 c g b mv Hc Ng) as (h2 & E2 & H2 & F2).
  exists c, h2, g. split; [|split; [|split]].
  - unfold essayer.
    rewrite (bind_run _ _ _ _ _ E1), (bind_run _ _ _ _ _ E2). reflexivity.
  - intros a Ha. rewrite <- (P1 a Ha). apply F2.
    + intros ->. destruct (F1 c) as [Hn _]; [now left|contradiction].
    + intros Hin. destruct (F1 a) as [Hn _]; [now right|contradiction].
  - unfold simuler. rewrite MorpionUltime_dupliquer_valeur. exact H2.
  - exact Ng.
Qed.

(** A loop whose body has no effect and computes [g]. *)
Lemma pour_sans_effet {S} (corps : S -> coup -> M S) (g : S -> coup -> S)
    (h0 : tas) (l : list coup) :
  (forall s mv h, preserve h0 h -> sans_effet (corps s mv) h (g s mv)) ->
  forall s h, preserve h0 h -> sans_effet (pour corps l s) h (fold_left g l s).
Proof.
  intros Hc. induction l as [|mv l IH]; intros s h Hp; cbn [pour fold_left].
  - apply sans_effet_ret.
  - apply (sans_effet_bind _ _ _ (g s mv)); [now apply Hc|].
    intros h' _ Hp'. apply IH. eapply preserve_trans; eauto.
Qed.

Lemma facile_pas_sans_effet ia h0 u f b etat mv h :
  repr h0 u f b -> preserve h0 h ->
  sans_effet (facile_pas ia u etat mv) h (IAFacile.pas ia b etat mv).
Proof.
  intros Hr Hp. pose proof (repr_preserve _ _ _ _ _ Hr Hp) as Hh.
  destruct etat as [ms mc]. unfold facile_pas, IAFacile.pas, IAFacile.note.
  destruct (essayer_spec h u f b mv Hh) as (c & h1 & g & E1 & P1 & Hc & _).
  exists h1. split; [|exact P1].
  rewrite (bind_run _ _ _ _ _ E1).
  rewrite (bind_run _ _ _ _ _ (consulter_run _ _ _ _ _ Hc)). reflexivity.
Qed.

Lemma moyenne_minimax_sans_effet ia (reste : nat) :
  forall h u f b est_max,
    repr h u f b ->
    sans_effet (moyenne_minimax ia reste u est_max) h
      (IAMoyenne.minimax ia reste b est_max).
Proof.
  induction reste as [|reste IH]; intros h u f b est_max Hr;
    cbn [moyenne_minimax IAMoyenne.minimax].
  - exact (sans_effet_consulter_seul _ _ _ _ _ Hr).
  - apply (sans_effet_consulter _ _ _ _ _ _ _ Hr). cbv beta.
    destruct (MorpionUltime.jeu_termine b).
    { exact (sans_effet_consulter_seul _ _ _ _ _ Hr). }
    apply (sans_effet_consulter _ _ _ _ _ _ _ Hr). cbv beta.
    destruct est_max.
    + apply (pour_sans_effet _
               (fun meilleur mv =>
                  score_max meilleur (IAMoyenne.minimax ia reste (simuler b mv) false))
               h); [|apply preserve_refl].
      intros s mv h1 Hp1. pose proof (repr_preserve _ _ _ _ _ Hr Hp1) as Hh.
      destruct (essayer_spec h1 u f b mv Hh) as (c & h2 & g & E2 & P2 & Hc & _).
      destruct (IH h2 c g _ false Hc) as (h3 & E3 & P3).
      exists h3. split; [|eapply preserve_trans; eauto].
      rewrite (bind_run _ _ _ _ _ E2), (bind_run _ _ _ _ _ E3). reflexivity.
    + apply (pour_sans_effet _
               (fun pire mv =>
                  score_min pire (IAMoyenne.minimax ia reste (simuler b mv) true))
               h); [|apply preserve_refl].
      intros s mv h1 Hp1. pose proof (repr_preserve _ _ _ _ _ Hr Hp1) as Hh.
      destruct (essayer_spec h1 u f b mv Hh) as (c & h2 & g & E2 & P2 & Hc & _).
      destruct (IH h2 c g _ true Hc) as (h3 & E3 & P3).
      exists h3. split; [|eapply preserve_trans; eauto].
      rewrite (bind_run _ _ _ _ _ E2), (bind_run _ _ _ _ _ E3). reflexivity.
Qed.

Lemma moyenne_pas_sans_effet ia h0 u f b etat mv h :
  repr h0 u f b -> preserve h0 h ->
  sans_effet (moyenne_pas ia u etat mv) h (IAMoyenne.pas ia b etat mv).
Proof.
  intros Hr Hp. pose proof (repr_preserve _ _ _ _ _ Hr Hp) as Hh.
  destruct etat as [ms ml]. unfold moyenne_pas, IAMoyenne.pas.
  destruct (essayer_spec h u f b mv Hh) as (c & h1 & g & E1 & P1 & Hc & _).
  destruct (moyenne_minimax_sans_effet ia (IAMoyenne.profondeur_max - 1)
              h1 c g _ false Hc) as (h2 & E2 & P2).
  exists h2. split; [|eapply preserve_trans; eauto].
  rewrite (bind_run _ _ _ _ _ E1), (bind_run _ _ _ _ _ E2). reflexivity.
Qed.

Section BouclesDifficile.
Variable fs : adr -> score -> score -> M score.
Variable fv : MorpionUltime.t -> score -> score -> score.
Hypothesis fs_sans_effet :
  forall h c g b a be, repr h c g b -> sans_effet (fs c a be) h (fv b a be).

Lemma difficile_boucle_max_sans_effet h0 u f b (l : list coup) :
  repr h0 u f b ->
  forall val alpha beta h, preserve h0 h ->
    sans_effet (difficile_boucle_max fs u l val alpha beta) h
      (IADifficile.boucle_max fv b l val alpha beta).
Proof.
  intros Hr. induction l as [|mv l IH]; intros val alpha beta h Hp;
    cbn [difficile_boucle_max IADifficile.boucle_max].
  - apply sans_effet_ret.
  - pose proof (repr_preserve _ _ _ _ _ Hr Hp) as Hh.
    destruct (essayer_spec h u f b mv Hh) as (c & h1 & g & E1 & P1 & Hc & _).
    destruct (fs_sans_effet h1 c g _ alpha beta Hc) as (h2 & E2 & P2).
    unfold sans_effet.
    rewrite (bind_run _ _ _ _ _ E1), (bind_run _ _ _ _ _ E2). cbv zeta.
    assert (preserve h h2) as P12 by (eapply preserve_trans; eauto).
    destruct (score_geb _ beta).
    + exists h2. split; [reflexivity|exact P12].
    + destruct (IH (score_max val (fv (simuler b mv) alpha beta))
                  (score_max alpha (score_max val (fv (simuler b mv) alpha beta)))
                  beta h2 (preserve_trans _ _ _ Hp P12)) as (h3 & E3 & P3).
      exists h3. split; [exact E3|eapply preserve_trans; eauto].
Qed.

Lemma difficile_boucle_min_sans_effet h0 u f b (l : list coup) :
  repr h0 u f b ->
  forall val alpha beta h, preserve h0 h ->
    sans_effet (difficile_boucle_min fs u l val alpha beta) h
      (IADifficile.boucle_min fv b l val alpha beta).
Proof.
  intros Hr. induction l as [|mv l IH]; intros val alpha beta h Hp;
    cbn [difficile_boucle_min IADifficile.boucle_min].
  - apply sans_effet_ret.
  - pose proof (repr_preserve _ _ _ _ _ Hr Hp) as Hh.
    destruct (essayer_spec h u f b mv Hh) as (c & h1 & g & E1 & P1 & Hc & _).
    destruct (fs_sans_effet h1 c g _ alpha beta Hc) as (h2 & E2 & P2).
    unfold sans_effet.
    rewrite (bind_run _ _ _ _ _ E1), (bind_run _ _ _ _ _ E2). cbv zeta.
    assert (preserve h h2) as P12 by (eapply preserve_trans; eauto).
    destruct (score_geb alpha _).
    + exists h2. split; [reflexivity|exact P12].
    + destruct (IH (score_min val (fv (simuler b mv) alpha beta)) alpha
                  (score_min beta (score_min val (fv (simuler b mv) alpha beta)))
                  h2 (preserve_trans _ _ _ Hp P12)) as (h3 & E3 & P3).
      exists h3. split; [exact E3|eapply preserve_trans; eauto].
Qed.

End BouclesDifficile.

Lemma difficile_minimax_sans_effet ia (reste : nat) :
  forall h u f b alpha beta est_max,
    repr h u f b ->
    sans_effet (difficile_minimax ia reste u alpha beta est_max) h
      (IADifficile.minimax ia reste b alpha beta est_max).
Proof.
  induction reste as [|reste IH]; intros h u f b alpha beta est_max Hr;
    cbn [difficile_minimax IADifficile.minimax].
  - exact (sans_effet_consulter_seul _ _ _ _ _ Hr).
  - apply (sans_effet_consulter _ _ _ _ _ _ _ Hr). cbv beta.
    destruct (MorpionUltime.jeu_termine b).
    { exact (sans_effet_consulter_seul _ _ _ _ _ Hr). }
    apply (sans_effet_consulter _ _ _ _ _ _ _ Hr). cbv beta.
    destruct est_max.
    + apply (difficile_boucle_max_sans_effet
               (fun clone a b => difficile_minimax ia reste clone a b false)
               (fun clone a b => IADifficile.minimax ia reste clone a b false)
               (fun h c g b a be H => IH h c g b a be false H)
               h u f b _ Hr); apply preserve_refl.
    + apply (difficile_boucle_min_sans_effet
               (fun clone a b => difficile_minimax ia reste clone a b true)
               (fun clone a b => IADifficile.minimax ia reste clone a b true)
               (fun h c g b a be H => IH h c g b a be true H)
               h u f b _ Hr); apply preserve_refl.
Qed.

Lemma difficile_pas_sans_effet ia h0 u f b etat mv h :
  repr h0 u f b -> preserve h0 h ->
  sans_effet (difficile_pas ia u etat mv) h (IADifficile.pas ia b etat mv).
Proof.
  intros Hr Hp. pose proof (repr_preserve _ _ _ _ _ Hr Hp) as Hh.
  destruct etat as [[ms mc] alpha]. unfold difficile_pas, IADifficile.pas.
  destruct (essayer_spec h u f b mv Hh) as (c & h1 & g & E1 & P1 & Hc & _).
  destruct (difficile_minimax_sans_effet ia (IADifficile.profondeur_max - 1)
              h1 c g _ alpha PlusInf false Hc) as (h2 & E2 & P2).
  exists h2. split; [|eapply preserve_trans; eauto].
  rewrite (bind_run _ _ _ _ _ E1), (bind_run _ _ _ _ _ E2). cbv zeta.
  now destruct (score_gtb _ ms).
Qed.

(** For a well-formed board in the store, [get_move] of each of the three
    strategies runs without fault, returns what the strategy computes on
    the board read from the store, and leaves every board, sub-board and
    row of the store as it was: all its trial moves are played on clones.
    In particular the board it was given still reads the same.  (The
    attribute [score_dernier_coup] that [get_move] assigns belongs to the
    strategy, which is not an object of this store.) *)
Theorem get_move_sans_effet
    (h : tas) (u : adr) (b : MorpionUltime.t) (ia : joueur) (r : alea) :
  bien_forme h u b ->
  (exists h', facile_get_move ia u h = Some (IAFacile.get_move ia b, h')
     /\ preserve h h' /\ bien_forme h' u b)
  /\ (exists h', moyenne_get_move ia r u h = Some (IAMoyenne.get_move ia r b, h')
        /\ preserve h h' /\ bien_forme h' u b)
  /\ (exists h', difficile_get_move ia u h = Some (IADifficile.get_move ia b, h')
        /\ preserve h h' /\ bien_forme h' u b).
Proof.
  intros Hb. apply bien_forme_repr in Hb as (f & Hr & Hn).
  assert (forall h', preserve h h' -> bien_forme h' u b) as Hbf.
  { intros h' Hp. apply bien_forme_repr. exists f.
    split; [exact (repr_preserve _ _ _ _ _ Hr Hp)|exact Hn]. }
  split; [|split].
  - destruct (pour_sans_effet (facile_pas ia u) (IAFacile.pas ia b) h
                (MorpionUltime.obtenir_coups_valides b)
                (fun s mv h1 Hp => facile_pas_sans_effet ia h u f b s mv h1 Hr Hp)
                (MoinsInf, None) h (preserve_refl h)) as (h' & E & P).
    exists h'. split; [|split; [exact P|now apply Hbf]].
    unfold facile_get_move, IAFacile.get_move, IAFacile.boucle.
    rewrite (bind_run _ _ _ _ _ (consulter_run _ _ _ _ _ Hr)).
    rewrite (bind_run _ _ _ _ _ E). reflexivity.
  - unfold moyenne_get_move, IAMoyenne.get_move.
    destruct (erreur_strategique r).
    + rewrite (bind_run _ _ _ _ _ (consulter_run _ _ _ _ _ Hr)).
      destruct (random_choice r (MorpionUltime.obtenir_coups_valides b)) as [mv|].
      * destruct (essayer_spec h u f b mv Hr) as (c & h1 & g & E1 & P1 & Hc & _).
        exists h1. split; [|split; [exact P1|now apply Hbf]].
        rewrite (bind_run _ _ _ _ _ E1).
        rewrite (bind_run _ _ _ _ _ (consulter_run _ _ _ _ _ Hc)). reflexivity.
      * exists h. split; [reflexivity|].
        split; [apply preserve_refl|apply Hbf, preserve_refl].
    + destruct (pour_sans_effet (moyenne_pas ia u) (IAMoyenne.pas ia b) h
                  (MorpionUltime.obtenir_coups_valides b)
                  (fun s mv h1 Hp => moyenne_pas_sans_effet ia h u f b s mv h1 Hr Hp)
                  (MoinsInf, []) h (preserve_refl h)) as (h' & E & P).
      exists h'. split; [|split; [exact P|now apply Hbf]].
      rewrite (bind_run _ _ _ _ _ (consulter_run _ _ _ _ _ Hr)).
      rewrite (bind_run _ _ _ _ _ E).
      now destruct (fold_left _ _ _).
  - destruct (pour_sans_effet (difficile_pas ia u) (IADifficile.pas ia b) h
                (MorpionUltime.obtenir_coups_valides b)
                (fun s mv h1 Hp => difficile_pas_sans_effet ia h u f b s mv h1 Hr Hp)
                (MoinsInf, None, MoinsInf) h (preserve_refl h)) as (h' & E & P).
    exists h'. split; [|split; [exact P|now apply Hbf]].
    unfold difficile_get_move, IADifficile.get_move.
    rewrite (bind_run _ _ _ _ _ (consulter_run _ _ _ _ _ Hr)).
    rewrite (bind_run _ _ _ _ _ E). reflexivity.
Qed.

Lemma get_move_sans_effet_temoin :
  bien_forme tas_initial jeu_initial MorpionUltime.reinitialiser
  /\ exists h',
       facile_get_move jX jeu_initial tas_initial
       = Some (IAFacile.get_move jX MorpionUltime.reinitialiser, h')
       /\ preserve tas_initial h'
       /\ bien_forme h' jeu_initial MorpionUltime.reinitialiser.
Proof.
  assert (bien_forme tas_initial jeu_initial MorpionUltime.reinitialiser) as Hb.
  { destruct (nouveau_cree ∅) as (c & h' & g & E & _ & _ & Hn & Hr).
    unfold tas_initial, jeu_initial. rewrite E.
    apply bien_forme_repr. exists g. split; [exact Hr|].
    now apply NoDup_cons in Hn as [_ Hn]. }
  split; [exact Hb|].
  exact (proj1 (get_move_sans_effet tas_initial jeu_initial _ jX
                  {| erreur_strategique := false; indice_choisi := 0 |} Hb)).
Defined.

End TasStrategies.

(** ** The cells after a move *)

Module Cases.
Import MorpionUltime.
Import PetitPlateauFaits MorpionUltimeFaits.

(** The cell [(i, j)] of the sub-board [(a, b)]. *)
Local Abbreviation case_de self a b i j :=
  (get2 (PetitPlateau.plateau (get2 (plateaux self) a b)) i j).

Lemma jouer_coup_faux self mv :
  fst (jouer_coup self mv) = false -> snd (jouer_coup self mv) = self.
Proof.
  intros H. rewrite jouer_coup_resultat in H.
  rewrite jouer_coup_refuse; [reflexivity|].
  destruct (coup_valide self mv), (jeu_termine self); simpl in H; auto.
Qed.

Lemma case_apres_coup self mv (a b i j : idx) :
  case_de (snd (jouer_coup self mv)) a b i j
  = if fst (jouer_coup self mv)
       && bool_decide (mv = (Z_of_idx a, Z_of_idx b, Z_of_idx i, Z_of_idx j))
    then Pion (joueur_courant self)
    else case_de self a b i j.
Proof.
  destruct (jouer_coup self mv) as [[|] self'] eqn:E; cbn [fst snd andb].
  2:{ pose proof (jouer_coup_faux self mv) as H. rewrite E in H.
      cbn [fst snd] in H. now rewrite (H eq_refl). }
  destruct (TourDeJeu.coup_accepte _ _ _ E)
    as (sl & sc & cl & cc & p1 & -> & _ & _ & _ & Hp1 & Hp & _).
  rewrite Hp.
  destruct (decide ((sl, sc) = (a, b))) as [[= <- <-]|Hne].
  - rewrite get2_set2_eq, Hp1, verifier_etat_plateau. cbn [PetitPlateau.plateau].
    destruct (decide ((cl, cc) = (i, j))) as [[= <- <-]|Hne'].
    + rewrite get2_set2_eq. now rewrite bool_decide_eq_true_2.
    + rewrite get2_set2_ne by exact Hne'.
      rewrite bool_decide_eq_false_2; [reflexivity|].
      intros [= Hi%Z_of_idx_inj Hj%Z_of_idx_inj]. congruence.
  - rewrite get2_set2_ne by exact Hne.
    rewrite bool_decide_eq_false_2; [reflexivity|].
    intros [= Ha%Z_of_idx_inj Hb%Z_of_idx_inj _ _]. congruence.
Qed.

Lemma case_prise_reste self mv (a b i j : idx) :
  case_de self a b i j <> Vide ->
  case_de (snd (jouer_coup self mv)) a b i j = case_de self a b i j.
Proof.
  intros Hc. rewrite case_apres_coup.
  destruct (fst (jouer_coup self mv)) eqn:Ef; [|reflexivity].
  destruct (bool_decide _) eqn:Ed; [|reflexivity]. exfalso.
  apply bool_decide_eq_true_1 in Ed. subst mv.
  destruct (jouer_coup self _) as [ok self'] eqn:E. cbn [fst] in Ef. subst ok.
  destruct (TourDeJeu.coup_accepte _ _ _ E)
    as (sl & sc & cl & cc & p1 & Hmv & _ & _ & Hvide & _).
  injection Hmv as Ha%Z_of_idx_inj Hb%Z_of_idx_inj Hi%Z_of_idx_inj Hj%Z_of_idx_inj.
  subst. contradiction.
Qed.

(** On any board, a call of [jouer_coup] changes at most one of the 81
    cells: when it returns [True], the cell the move addresses receives the
    symbol of [joueur_courant] and every other cell is kept; when it returns
    [False] every cell is kept. *)
Theorem une_case_par_coup (self : t) (mv : coup) (a b i j : idx) :
  case_de (snd (jouer_coup self mv)) a b i j
  = if fst (jouer_coup self mv)
       && bool_decide (mv = (Z_of_idx a, Z_of_idx b, Z_of_idx i, Z_of_idx j))
    then Pion (joueur_courant self)
    else case_de self a b i j.
Proof.
  pose proof (case_apres_coup self mv a b i j) as H.
  destruct (fst (jouer_coup self mv)); exact H.
Qed.

(** A cell that holds a symbol keeps it through any sequence of calls of
    [jouer_coup], whatever they return. *)
Theorem case_prise_definitive (self : t) (mvs : list coup) (a b i j : idx) :
  case_de self a b i j <> Vide ->
  case_de (appliquer self mvs) a b i j = case_de self a b i j.
Proof.
  revert self. induction mvs as [|m mvs IH]; intros self Hc; [reflexivity|].
  cbn [appliquer]. pose proof (case_prise_reste self m a b i j Hc) as E.
  rewrite IH; [exact E|]. now rewrite E.
Qed.

Lemma case_prise_definitive_temoin :
  let self := snd (jouer_coup reinitialiser (0, 0, 1, 2)) in
  case_de self I0 I0 I1 I2 <> Vide
  /\ case_de (appliquer self [(1, 2, 0, 0); (0, 0, 1, 2)]) I0 I0 I1 I2 = Pion jX.
Proof.
  intros self.
  assert (case_de self I0 I0 I1 I2 <> Vide) as H by (vm_compute; discriminate).
  split; [exact H|].
  rewrite (case_prise_definitive self [(1, 2, 0, 0); (0, 0, 1, 2)] I0 I0 I1 I2 H).
  reflexivity.
Defined.

End Cases.

(** ** The count of [lancer_match] *)

Module Decompte.
Import MorpionUltime.
Import Tournoi Match.

Lemma joueurs_de_cas ia1 ia2 num j :
  joueurs_de ia1 ia2 num j = ia1 \/ joueurs_de ia1 ia2 num j = ia2.
Proof. unfold joueurs_de. destruct (Nat.even num), j; auto. Qed.

Lemma total_incrementer_nom ia1 ia2 res s :
  s = ia1 \/ s = ia2 ->
  total ia1 ia2 (incrementer res (Nom s)) = S (total ia1 ia2 res).
Proof.
  intros Hs. unfold total, incrementer.
  destruct (decide (ia1 = ia2)) as [->|Hne].
  - assert (s = ia2) as -> by (destruct Hs; assumption).
    rewrite (bool_decide_eq_true_2 (ia2 = ia2)) by reflexivity.
    rewrite (bool_decide_eq_true_2 (Nom ia2 = Nom ia2)) by reflexivity.
    rewrite (bool_decide_eq_false_2 (Nuls = Nom ia2)) by discriminate. lia.
  - rewrite (bool_decide_eq_false_2 (ia1 = ia2)) by exact Hne.
    rewrite (bool_decide_eq_false_2 (Nuls = Nom s)) by discriminate.
    destruct Hs as [-> | ->].
    + rewrite (bool_decide_eq_true_2 (Nom ia1 = Nom ia1)) by reflexivity.
      rewrite (bool_decide_eq_false_2 (Nom ia2 = Nom ia1)) by congruence. lia.
    + rewrite (bool_decide_eq_false_2 (Nom ia1 = Nom ia2)) by congruence.
      rewrite (bool_decide_eq_true_2 (Nom ia2 = Nom ia2)) by reflexivity. lia.
Qed.

Lemma total_incrementer_nuls ia1 ia2 res :
  total ia1 ia2 (incrementer res Nuls) = S (total ia1 ia2 res).
Proof.
  unfold total, incrementer.
  rewrite (bool_decide_eq_false_2 (Nom ia1 = Nuls)) by discriminate.
  rewrite (bool_decide_eq_false_2 (Nom ia2 = Nuls)) by discriminate.
  rewrite (bool_decide_eq_true_2 (Nuls = Nuls)) by reflexivity.
  destruct (bool_decide (ia1 = ia2)); lia.
Qed.

Lemma total_compter ia1 ia2 num jeu res :
  total ia1 ia2 (compter ia1 ia2 num jeu res) = S (total ia1 ia2 res).
Proof.
  unfold compter. destruct (obtenir_vainqueur jeu) as [g|].
  - apply total_incrementer_nom, joueurs_de_cas.
  - apply total_incrementer_nuls.
Qed.

Lemma parties_total ia1 ia2 tirages (restantes : nat) :
  forall num res,
    exists res',
      parties 81 ia1 ia2 tirages num restantes res = Resultats res'
      /\ total ia1 ia2 res' = (total ia1 ia2 res + restantes)%nat.
Proof.
  induction restantes as [|k IH]; intros num res; cbn [parties].
  - exists res. split; [reflexivity|lia].
  - destruct (FinDePartie.boucle_termine (joueurs_de ia1 ia2 num) (tirages num)
                81 0%nat None reinitialiser (suite_debut _))
      as (coups & fin & Eb & _).
    { change (nb_vides reinitialiser) with 81%nat. lia. }
    rewrite Eb.
    destruct (IH (S num) (compter ia1 ia2 num fin res)) as (res' & E & Ht).
    exists res'. split; [exact E|]. rewrite Ht, total_compter. lia.
Qed.

(** Whatever two instances (different objects) [lancer_match] is given and
    whatever the random source draws, the games all end within 81 moves and
    no [get_move] raises.  With [nb_parties = 0] the call then raises
    [ZeroDivisionError] when it computes ['moyenne_par_partie'].  Otherwise
    it returns, and the dictionary counts every game exactly once: with
    instances of two classes the two win counts and ['nuls'] add up to the
    number of games played ([nb_parties], or none when it is negative);
    with two instances of one class, whose [nom] is the same key, that
    count and ['nuls'] add up to it. *)
Theorem lancer_match_compte_chaque_partie
    (ia1 ia2 : strategie) (nb_parties : Z) (tirages : nat -> nat -> alea) :
  exists res,
    total ia1 ia2 res = Z.to_nat nb_parties
    /\ lancer_match 81 ia1 ia2 nb_parties tirages
       = if nb_parties =? 0 then ZeroDivisionError else Resultats res.
Proof.
  destruct (parties_total ia1 ia2 tirages (Z.to_nat nb_parties) 0%nat
              resultats_initiaux) as (res & E & Ht).
  exists res. split.
  - rewrite Ht. unfold total, resultats_initiaux. destruct (bool_decide _); lia.
  - unfold lancer_match. now rewrite E.
Qed.

End Decompte.
